(** * NeuraOS hybrid memory engine: a shallow embedding

    The definitions below follow the Python sources
    [neura/core/types.py], [neura/memory/types.py],
    [neura/memory/embeddings.py] and [neura/memory/graph.py].

    Conventions of the embedding:
    - a Python [str] is a [string]; its characters are the code points
      below 256;
    - a Python [float] is a primitive binary64 [float], so float
      arithmetic rounds exactly as CPython does;
    - a Python [int] is a [Z] (or a [nat] for a counter that only grows
      from 0);
    - a raised exception is the [Raise] case of [res]; the [Result]
      dataclass of [neura/core/types.py] is the inductive [Result];
    - every call that leaves the process (HTTP to Ollama, Qdrant, the
      FTS5 MATCH query, the clock, uuid4) takes its outcome from an
      explicit environment argument, so theorems quantify over all
      outcomes. *)

From stdpp Require Import gmap strings list.
From Stdlib Require Import ZArith Ascii String Floats DecimalString.

Local Open Scope string_scope.
Local Open Scope list_scope.

(** ** Exceptions and results *)

Inductive exn_kind :=
| AttributeError | ValueError | IndexError | KeyError
| ZeroDivisionError | OverflowError | IntegrityError | ProgrammingError
| ConnectError | OtherError.

Record exn := Exn { exn_kind_of : exn_kind; exn_msg : string }.

Inductive res (A : Type) :=
| Ok (a : A)
| Raise (e : exn).
Arguments Ok {A} a.
Arguments Raise {A} e.

(** [neura.core.types.Result]: [Result.success(data)] and
    [Result.failure(error)]. *)
Inductive Result (T : Type) :=
| Success (data : T)
| Failure (error : string).
Arguments Success {T} data.
Arguments Failure {T} error.

Definition is_success {T} (r : Result T) : bool :=
  match r with Success _ => true | Failure _ => false end.

Definition is_failure {T} (r : Result T) : bool :=
  match r with Success _ => false | Failure _ => true end.

(** ** Python string primitives *)

Module PyStr.

(** [c.isspace()] for a code point below 256. *)
Definition is_space (c : ascii) : bool :=
  let n := nat_of_ascii c in
  (((9 <=? n) && (n <=? 13)) || ((28 <=? n) && (n <=? 32))
   || (n =? 133) || (n =? 160))%nat.

Fixpoint lstrip (s : string) : string :=
  match s with
  | String c s' => if is_space c then lstrip s' else s
  | EmptyString => EmptyString
  end.

Fixpoint rstrip (s : string) : string :=
  match s with
  | String c s' =>
      match rstrip s' with
      | EmptyString => if is_space c then EmptyString else String c EmptyString
      | r => String c r
      end
  | EmptyString => EmptyString
  end.

(** [s.strip()] *)
Definition strip (s : string) : string := rstrip (lstrip s).

(** [s[i:]] for [0 <= i] *)
Fixpoint drop (i : nat) (s : string) : string :=
  match i, s with
  | O, _ => s
  | S i', String _ s' => drop i' s'
  | S _, EmptyString => EmptyString
  end.

(** [s[:j]] for [0 <= j] *)
Fixpoint take (j : nat) (s : string) : string :=
  match j, s with
  | O, _ => EmptyString
  | S j', String c s' => String c (take j' s')
  | S _, EmptyString => EmptyString
  end.

(** [s[i:j]] for [0 <= i] and [0 <= j] *)
Definition slice (i j : nat) (s : string) : string := take (j - i) (drop i s).

(** [str(z)] for an int *)
Definition of_Z (z : Z) : string := NilZero.string_of_int (Z.to_int z).

(** [str(n)] for a non-negative int *)
Definition of_nat (n : nat) : string := NilZero.string_of_uint (Nat.to_uint n).

End PyStr.

(** ** neura/memory/embeddings.py *)

(** Outcome of [await self._client.post(url, json={model, prompt})]
    followed, on status 200, by [response.json().get("embedding", [])].
    [HttpOtherError] is any exception of [post] other than
    [httpx.ConnectError]; the body of a response is [Raise] when
    [response.json()] raises. *)
Inductive http_outcome :=
| HttpConnectError (msg : string)
| HttpOtherError (msg : string)
| HttpResponse (status_code : Z) (embedding : res (list float)).

Module Embeddings.

Record EmbeddingEngine := mkEngine {
  model : string;
  ollama_host : string;
  dimension : Z;
  version : string;
  _degraded_mode : bool;
  _cache : gmap string (list float);
  _cache_order : list string;
  _cache_size : Z;
  _cache_hits : nat;
  _cache_misses : nat
}.

(** [EmbeddingEngine.__init__] *)
Definition init (model ollama_host : string) (dimension : Z)
    (version : string) (cache_size : Z) : EmbeddingEngine :=
  {| model := model; ollama_host := ollama_host; dimension := dimension;
     version := version; _degraded_mode := false;
     _cache := ∅; _cache_order := []; _cache_size := cache_size;
     _cache_hits := 0; _cache_misses := 0 |}.

Definition default : EmbeddingEngine :=
  init "mxbai-embed-large" "http://localhost:11434" 1024 "embed_v1" 1000.

Definition set_degraded (b : bool) (self : EmbeddingEngine) :=
  {| model := model self; ollama_host := ollama_host self;
     dimension := dimension self; version := version self;
     _degraded_mode := b;
     _cache := _cache self; _cache_order := _cache_order self;
     _cache_size := _cache_size self;
     _cache_hits := _cache_hits self; _cache_misses := _cache_misses self |}.

Definition set_cache (c : gmap string (list float)) (self : EmbeddingEngine) :=
  {| model := model self; ollama_host := ollama_host self;
     dimension := dimension self; version := version self;
     _degraded_mode := _degraded_mode self;
     _cache := c; _cache_order := _cache_order self;
     _cache_size := _cache_size self;
     _cache_hits := _cache_hits self; _cache_misses := _cache_misses self |}.

Definition set_cache_order (o : list string) (self : EmbeddingEngine) :=
  {| model := model self; ollama_host := ollama_host self;
     dimension := dimension self; version := version self;
     _degraded_mode := _degraded_mode self;
     _cache := _cache self; _cache_order := o;
     _cache_size := _cache_size self;
     _cache_hits := _cache_hits self; _cache_misses := _cache_misses self |}.

Definition incr_hits (self : EmbeddingEngine) :=
  {| model := model self; ollama_host := ollama_host self;
     dimension := dimension self; version := version self;
     _degraded_mode := _degraded_mode self;
     _cache := _cache self; _cache_order := _cache_order self;
     _cache_size := _cache_size self;
     _cache_hits := S (_cache_hits self); _cache_misses := _cache_misses self |}.

Definition incr_misses (self : EmbeddingEngine) :=
  {| model := model self; ollama_host := ollama_host self;
     dimension := dimension self; version := version self;
     _degraded_mode := _degraded_mode self;
     _cache := _cache self; _cache_order := _cache_order self;
     _cache_size := _cache_size self;
     _cache_hits := _cache_hits self; _cache_misses := S (_cache_misses self) |}.

(** [list.remove(x)]: drops the first occurrence, [ValueError] when
    there is none. *)
Fixpoint list_remove (x : string) (l : list string) : res (list string) :=
  match l with
  | [] => Raise (Exn ValueError "list.remove(x): x not in list")
  | y :: l' =>
      if decide (x = y) then Ok l'
      else match list_remove x l' with
           | Ok r => Ok (y :: r)
           | Raise e => Raise e
           end
  end.

(** [_add_to_cache]: the engine after the call (mutations made before
    an exception stay) and whether the call raised. *)
Definition _add_to_cache (key : string) (embedding : list float)
    (self : EmbeddingEngine) : EmbeddingEngine * res unit :=
  (* if key in self._cache: self._cache_order.remove(key) *)
  let removed :=
    match _cache self !! key with
    | Some _ =>
        match list_remove key (_cache_order self) with
        | Ok o => Ok (set_cache_order o self)
        | Raise e => Raise e
        end
    | None => Ok self
    end in
  match removed with
  | Raise e => (self, Raise e)
  | Ok self1 =>
      (* self._cache[key] = embedding; self._cache_order.append(key) *)
      let self2 := set_cache (<[key := embedding]> (_cache self1)) self1 in
      let self3 := set_cache_order (_cache_order self2 ++ [key]) self2 in
      (* if len(self._cache) > self._cache_size: *)
      if (_cache_size self3 <? Z.of_nat (size (_cache self3)))%Z then
        (* oldest_key = self._cache_order.pop(0) *)
        match _cache_order self3 with
        | [] => (self3, Raise (Exn IndexError "pop from empty list"))
        | oldest_key :: rest =>
            let self4 := set_cache_order rest self3 in
            (* del self._cache[oldest_key] *)
            match _cache self4 !! oldest_key with
            | None => (self4, Raise (Exn KeyError oldest_key))
            | Some _ => (set_cache (delete oldest_key (_cache self4)) self4, Ok tt)
            end
        end
      else (self3, Ok tt)
  end.

(** [not text or not text.strip()] *)
Definition is_blank (text : string) : bool :=
  match text with
  | EmptyString => true
  | _ => match PyStr.strip text with EmptyString => true | _ => false end
  end.

Section WithNetwork.

(** [post m prompt] is the outcome of the POST to
    [{ollama_host}/api/embeddings] with [{"model": m, "prompt": prompt}]. *)
Variable post : string -> string -> http_outcome.

(** [_fallback_embed]: the engine, the result, and the models
    posted to (the trace of [self._client.post] calls). *)
Definition _fallback_embed (text : string) (self : EmbeddingEngine)
    : EmbeddingEngine * Result (list float) * list string :=
  let self := set_degraded true self in
  match post "mistral" text with
  | HttpResponse status body =>
      if negb (status =? 200)%Z then
        (self, Failure "Fallback model also failed", ["mistral"])
      else
        match body with
        | Raise e =>
            (self, Failure ("Fallback embedding failed: " +:+ exn_msg e), ["mistral"])
        | Ok [] =>
            (self, Failure "Empty fallback embedding", ["mistral"])
        | Ok embedding => (self, Success embedding, ["mistral"])
        end
  | HttpConnectError msg | HttpOtherError msg =>
      (self, Failure ("Fallback embedding failed: " +:+ msg), ["mistral"])
  end.

(** [embed] *)
Definition embed (text : string) (self : EmbeddingEngine)
    : EmbeddingEngine * Result (list float) * list string :=
  if is_blank text then (self, Failure "Cannot embed empty text", [])
  else
    let cache_key := model self +:+ ":" +:+ text in
    match _cache self !! cache_key with
    | Some v => (incr_hits self, Success v, [])
    | None =>
        let self := incr_misses self in
        match post (model self) text with
        | HttpResponse status body =>
            if negb (status =? 200)%Z then
              if negb (_degraded_mode self) then
                let '(s, r, calls) := _fallback_embed text self in
                (s, r, model self :: calls)
              else
                (self, Failure ("Ollama API error: " +:+ PyStr.of_Z status),
                 [model self])
            else
              match body with
              | Raise e =>
                  (self,
                   Failure ("Unexpected error generating embedding: " +:+ exn_msg e),
                   [model self])
              | Ok [] =>
                  (self, Failure "Empty embedding returned", [model self])
              | Ok embedding =>
                  match _add_to_cache cache_key embedding self with
                  | (self', Ok _) => (self', Success embedding, [model self])
                  | (self', Raise e) =>
                      (self',
                       Failure ("Unexpected error generating embedding: " +:+ exn_msg e),
                       [model self])
                  end
              end
        | HttpConnectError msg =>
            if negb (_degraded_mode self) then
              let '(s, r, calls) := _fallback_embed text self in
              (s, r, model self :: calls)
            else
              (self, Failure ("Cannot connect to Ollama: " +:+ msg), [model self])
        | HttpOtherError msg =>
            (self, Failure ("Unexpected error generating embedding: " +:+ msg),
             [model self])
        end
    end.

End WithNetwork.

End Embeddings.

(** ** Python numbers *)

Module PyNum.

(** [float(z)] for an int: exact below 2^53, rounded to nearest even
    above, [OverflowError] when the int is too large for a float. *)
Definition float_of_int (z : Z) : res float :=
  if (Z.abs z <? 2 ^ 63)%Z then
    let f := PrimFloat.of_uint63 (Uint63.of_Z (Z.abs z)) in
    Ok (if (z <? 0)%Z then PrimFloat.opp f else f)
  else
    match binary_normalize prec emax z 0 false with
    | S754_infinity _ =>
        Raise (Exn OverflowError "int too large to convert to float")
    | sf => Ok (SF2Prim sf)
    end.

(** [1.0 / n] for an int [n] *)
Definition one_over_int (n : Z) : res float :=
  if (n =? 0)%Z then Raise (Exn ZeroDivisionError "float division by zero")
  else
    match float_of_int n with
    | Ok d => Ok (PrimFloat.div 1 d)
    | Raise e => Raise e
    end.

(** Index of a slice bound in a sequence of length [len]: a negative
    bound counts from the end, and the result is clamped to
    [0 .. len]. *)
Definition slice_index (len : nat) (i : Z) : nat :=
  Z.to_nat (Z.min (Z.of_nat len)
              (if (i <? 0)%Z then Z.max 0 (i + Z.of_nat len) else i)).

(** [l[:k]] *)
Definition list_upto {A} (k : Z) (l : list A) : list A :=
  take (slice_index (List.length l) k) l.

(** [s[i:j]] *)
Definition str_slice (i j : Z) (s : string) : string :=
  PyStr.slice (slice_index (String.length s) i)
              (slice_index (String.length s) j) s.

(** [s[i:]] *)
Definition str_from (i : Z) (s : string) : string :=
  PyStr.drop (slice_index (String.length s) i) s.

End PyNum.

(** ** neura/memory/types.py *)

Module Types.

Inductive MemoryType :=
| NOTE | CONVERSATION | OBSERVATION | THOUGHT | DECISION | LEARNING.

Global Instance MemoryType_eq_dec : EqDecision MemoryType.
Proof. solve_decision. Defined.

(** A JSON value as far as [metadata] needs it. *)
#[warnings="-register-all"]
Inductive json :=
| JStr (s : string)
| JInt (z : Z)
| JObj (fields : list (string * json)).

(** [dict[str, Any]], in insertion order. *)
Definition json_dict := list (string * json).

(** [d[key] = v] on an insertion-ordered dict: an existing key keeps its
    place, a new key goes last. *)
Fixpoint dict_set {V} (key : string) (v : V) (d : list (string * V))
    : list (string * V) :=
  match d with
  | [] => [(key, v)]
  | (k, w) :: d' =>
      if decide (k = key) then (k, v) :: d' else (k, w) :: dict_set key v d'
  end.

(** [d.get(key)] *)
Fixpoint dict_get {V} (key : string) (d : list (string * V)) : option V :=
  match d with
  | [] => None
  | (k, w) :: d' => if decide (k = key) then Some w else dict_get key d'
  end.

(** [ChunkMetadata(parent_id, chunk_index, total_chunks).dict()] *)
Definition ChunkMetadata_dict (parent_id : string) (chunk_index total_chunks : nat)
    : json :=
  JObj [("parent_id", JStr parent_id);
        ("chunk_index", JInt (Z.of_nat chunk_index));
        ("total_chunks", JInt (Z.of_nat total_chunks));
        ("overlap_start", JInt 0);
        ("overlap_end", JInt 0)].

Record MemoryEntry := mkEntry {
  id : string;
  content : string;
  content_hash : string;
  metadata : json_dict;
  timestamp : Z;
  memory_type : MemoryType;
  embedding_model : option string
}.

(** The [source] string of a [RecallResult]: ["fts"] (the lexical
    index), ["semantic"] or ["hybrid"]. *)
Inductive Source := fts | semantic | hybrid.

Record RecallResult := mkRecall {
  entry : MemoryEntry;
  score : float;
  source : Source
}.

End Types.
Import Types.

(** ** neura/memory/graph.py: the chunker *)

Module Chunker.

Definition nl : ascii := "010"%char.

(** The separator ["\n\n"]. *)
Definition blank_line : string := String nl (String nl EmptyString).

(** [content.split("\n\n")]: the pieces between the non-overlapping
    occurrences of a blank line, scanned from the left. *)
Fixpoint split_paragraphs (s : string) : list string :=
  match s with
  | EmptyString => [EmptyString]
  | String c s' =>
      let same_piece :=
        match split_paragraphs s' with
        | p :: ps => String c p :: ps
        | [] => [String c EmptyString]
        end in
      if Ascii.eqb c nl then
        match s' with
        | String c2 s'' =>
            if Ascii.eqb c2 nl then EmptyString :: split_paragraphs s''
            else same_piece
        | EmptyString => same_piece
        end
      else same_piece
  end.

Section WithConfig.

Variables chunk_size chunk_overlap : Z.

(** The [while i < len(text)] loop of the sliding window. [None]
    when the fuel runs out; with fuel [S (len text)] that happens
    exactly when the Python loop does not terminate
    ([chunk_size - chunk_overlap <= 0] on a non-empty text). *)
Fixpoint window_loop (fuel : nat) (text : string) (i : Z)
    : option (list string) :=
  if (i <? Z.of_nat (String.length text))%Z then
    match fuel with
    | O => None
    | S fuel' =>
        let chunk_end := Z.min (i + chunk_size) (Z.of_nat (String.length text)) in
        match window_loop fuel' text (i + (chunk_size - chunk_overlap)) with
        | Some chunks => Some (PyNum.str_slice i chunk_end text :: chunks)
        | None => None
        end
    end
  else Some [].

(** The paragraph loop, from [current_chunk] on, with the final
    [if current_chunk: chunks.append(current_chunk.strip())]. *)
Fixpoint pack_paragraphs (paragraphs : list string) (current_chunk : string)
    : list string :=
  match paragraphs with
  | [] =>
      match current_chunk with
      | EmptyString => []
      | _ => [PyStr.strip current_chunk]
      end
  | para :: rest =>
      if (Z.of_nat (String.length current_chunk) + Z.of_nat (String.length para)
          <? chunk_size)%Z
      then pack_paragraphs rest (current_chunk +:+ para +:+ blank_line)
      else
        match current_chunk with
        | EmptyString => []
        | _ => [PyStr.strip current_chunk]
        end ++ pack_paragraphs rest (para +:+ blank_line)
  end.

(** [prev[-chunk_overlap:] if len(prev) > chunk_overlap else prev] *)
Definition overlap_of (prev : string) : string :=
  if (chunk_overlap <? Z.of_nat (String.length prev))%Z
  then PyNum.str_from (- chunk_overlap) prev
  else prev.

(** The chunks after [prev], each prefixed with the overlap of the
    chunk before it (before its own prefix was added). *)
Fixpoint add_overlap (prev : string) (chunks : list string) : list string :=
  match chunks with
  | [] => []
  | chunk :: rest =>
      (overlap_of prev +:+ " " +:+ chunk) :: add_overlap chunk rest
  end.

(** [_chunk_content]; [None] when the call does not terminate. *)
Definition _chunk_content (content : string) : option (list string) :=
  if (Z.of_nat (String.length content) <=? chunk_size)%Z then Some [content]
  else
    let paragraphs := split_paragraphs content in
    let by_paragraphs :=
      let chunks := pack_paragraphs paragraphs "" in
      (* if len(chunks) > 1: add the overlaps *)
      match chunks with
      | first :: (_ :: _) as rest => Some (first :: add_overlap first rest)
      | _ => Some chunks
      end in
    match paragraphs with
    | [text] =>
        (* len(paragraphs) == 1 and len(paragraphs[0]) > chunk_size *)
        if (chunk_size <? Z.of_nat (String.length text))%Z
        then window_loop (S (String.length text)) text 0
        else by_paragraphs
    | _ => by_paragraphs
    end.

(** The reconstruction of the chunk round trip: every chunk but the
    first loses its leading [chunk_overlap] characters
    ([chunk[chunk_overlap:]]), and the remainders are concatenated. *)
Definition drop_overlaps (chunks : list string) : list string :=
  match chunks with
  | [] => []
  | first :: rest => first :: map (PyNum.str_from chunk_overlap) rest
  end.

Definition reconstruct (chunks : list string) : string :=
  fold_right String.append "" (drop_overlaps chunks).

End WithConfig.

(** A string with its whitespace characters removed. *)
Fixpoint remove_spaces (s : string) : string :=
  match s with
  | EmptyString => EmptyString
  | String c s' =>
      if PyStr.is_space c then remove_spaces s' else String c (remove_spaces s')
  end.

(** [n] copies of the character [c]. *)
Fixpoint repeat_char (c : ascii) (n : nat) : string :=
  match n with
  | O => EmptyString
  | S n' => String c (repeat_char c n')
  end.

End Chunker.

(** ** neura/memory/graph.py: Reciprocal Rank Fusion *)

Module RRF.

(** [sorted(items, key=key, reverse=True)]: the stable descending
    sort. An element moves behind the elements that follow it only
    when its key is strictly smaller ([<] on floats, none of them a
    NaN here). *)
Fixpoint insert_desc {A} (key : A -> float) (x : A) (l : list A) : list A :=
  match l with
  | [] => [x]
  | y :: l' =>
      if PrimFloat.ltb (key x) (key y) then y :: insert_desc key x l'
      else x :: l
  end.

Definition sorted_desc {A} (key : A -> float) (l : list A) : list A :=
  fold_right (insert_desc key) [] l.

(** [[e.id for e, _ in results]] *)
Definition ids_of (results : list (MemoryEntry * float)) : list string :=
  map (fun r => id (fst r)) results.

Section WithK.

Variable rrf_k : Z.

(** One [for rank, (entry, _) in enumerate(results)] loop, from
    [rank] on, over the two dicts [scores] and [entries]. *)
Fixpoint rrf_pass (rank : nat) (results : list (MemoryEntry * float))
    (scores : list (string * float)) (entries : list (string * MemoryEntry))
    : res (list (string * float) * list (string * MemoryEntry)) :=
  match results with
  | [] => Ok (scores, entries)
  | (entry, _) :: rest =>
      match PyNum.one_over_int (Z.of_nat rank + rrf_k) with
      | Raise e => Raise e
      | Ok rrf_score =>
          let old := default 0%float (dict_get (id entry) scores) in
          rrf_pass (S rank) rest
            (dict_set (id entry) (old + rrf_score)%float scores)
            (dict_set (id entry) entry entries)
      end
  end.

(** The [source] of an id. *)
Definition source_of (results1 results2 : list (MemoryEntry * float))
    (entry_id : string) : Source :=
  if bool_decide (entry_id ∈ ids_of results1)
     && bool_decide (entry_id ∈ ids_of results2) then hybrid
  else if bool_decide (entry_id ∈ ids_of results1) then fts
  else semantic.

(** The final loop over [sorted_ids]; [scores[entry_id]] is the
    score the id was sorted by. *)
Fixpoint collect (results1 results2 : list (MemoryEntry * float))
    (entries : list (string * MemoryEntry)) (sorted : list (string * float))
    : res (list (MemoryEntry * float * Source)) :=
  match sorted with
  | [] => Ok []
  | (entry_id, s) :: rest =>
      match dict_get entry_id entries with
      | None => Raise (Exn KeyError entry_id)
      | Some e =>
          match collect results1 results2 entries rest with
          | Raise x => Raise x
          | Ok out => Ok ((e, s, source_of results1 results2 entry_id) :: out)
          end
      end
  end.

(** [_reciprocal_rank_fusion]. [sorted(scores.keys(), key=lambda x:
    scores[x], reverse=True)] is the sort of the items of [scores]
    by their value, the keys of a dict being distinct. *)
Definition _reciprocal_rank_fusion
    (results1 results2 : list (MemoryEntry * float))
    : res (list (MemoryEntry * float * Source)) :=
  match rrf_pass 0 results1 [] [] with
  | Raise e => Raise e
  | Ok (scores1, entries1) =>
      match rrf_pass 0 results2 scores1 entries1 with
      | Raise e => Raise e
      | Ok (scores, entries) =>
          collect results1 results2 entries (sorted_desc snd scores)
      end
  end.

(** The scores dict after both passes. *)
Definition fused_scores (results1 results2 : list (MemoryEntry * float))
    : res (list (string * float)) :=
  match rrf_pass 0 results1 [] [] with
  | Raise e => Raise e
  | Ok (scores1, entries1) =>
      match rrf_pass 0 results2 scores1 entries1 with
      | Raise e => Raise e
      | Ok (scores, _) => Ok scores
      end
  end.

(** *** The fused score as the specification words it *)

(** Rank of an id in a list of ids, counted from [rank]. *)
Fixpoint rank_from (rank : nat) (entry_id : string) (ids : list string)
    : option nat :=
  match ids with
  | [] => None
  | x :: ids' =>
      if decide (x = entry_id) then Some rank
      else rank_from (S rank) entry_id ids'
  end.

(** What one list, ranked from [rank0] on, adds to the running sum
    [acc] for an id: [1/(rank + k)] when the list contains the id,
    nothing otherwise. *)
Definition add_contribution_from (rank0 : nat)
    (results : list (MemoryEntry * float))
    (entry_id : string) (acc : float) : res float :=
  match rank_from rank0 entry_id (ids_of results) with
  | None => Ok acc
  | Some rank =>
      match PyNum.one_over_int (Z.of_nat rank + rrf_k) with
      | Ok c => Ok (acc + c)%float
      | Raise e => Raise e
      end
  end.

Definition add_contribution := add_contribution_from 0.

Definition spec_score (results1 results2 : list (MemoryEntry * float))
    (entry_id : string) : res float :=
  match add_contribution results1 entry_id 0%float with
  | Ok acc => add_contribution results2 entry_id acc
  | Raise e => Raise e
  end.

End WithK.

(** Position of the first occurrence. *)
Definition first_index (x : string) (l : list string) : option nat :=
  rank_from 0 x l.

End RRF.

(** ** neura/memory/graph.py: the memory graph *)

Module Graph.

Import Embeddings.

(** A row of the [memories] table. *)
Record Row := mkRow {
  row_id : string;
  row_content : string;
  row_content_hash : string;
  row_metadata : json_dict;
  row_timestamp : Z;
  row_type : MemoryType;
  row_embedding_model : string;
  row_embedding_version : string
}.

(** The [sqlite3.Connection]: the [memories] table as the connection
    sees it, in rowid order (the FTS5 table is kept equal to it by
    the triggers), and whether [close()] was called. *)
Record Connection := mkConn {
  closed : bool;
  memories : list Row
}.

(** A point of the Qdrant collection ["memories"]. *)
Record Point := mkPoint {
  point_vector : list float;
  point_content : string;
  point_memory_id : string;
  point_type : MemoryType
}.

Record MemoryGraph := mkGraph {
  embedding_model : string;
  embedding_dimension : Z;
  embedding_version : string;
  chunk_size : Z;
  chunk_overlap : Z;
  rrf_k : Z;
  _conn : option Connection;
  _qdrant : gmap string Point;
  _embedding_engine : option EmbeddingEngine;
  _qdrant_available : bool;
  _initialized : bool
}.

(** [MemoryGraph.__init__] *)
Definition init (embedding_model : string) (embedding_dimension : Z)
    (embedding_version : string) (chunk_size chunk_overlap rrf_k : Z)
    : MemoryGraph :=
  {| embedding_model := embedding_model;
     embedding_dimension := embedding_dimension;
     embedding_version := embedding_version;
     chunk_size := chunk_size; chunk_overlap := chunk_overlap; rrf_k := rrf_k;
     _conn := None; _qdrant := ∅; _embedding_engine := None;
     _qdrant_available := false; _initialized := false |}.

Definition default : MemoryGraph :=
  init "mxbai-embed-large" 1024 "embed_v1" 500 50 60.

Definition set_conn (c : option Connection) (self : MemoryGraph) :=
  {| embedding_model := embedding_model self;
     embedding_dimension := embedding_dimension self;
     embedding_version := embedding_version self;
     chunk_size := chunk_size self; chunk_overlap := chunk_overlap self;
     rrf_k := rrf_k self;
     _conn := c; _qdrant := _qdrant self;
     _embedding_engine := _embedding_engine self;
     _qdrant_available := _qdrant_available self;
     _initialized := _initialized self |}.

Definition set_qdrant (q : gmap string Point) (self : MemoryGraph) :=
  {| embedding_model := embedding_model self;
     embedding_dimension := embedding_dimension self;
     embedding_version := embedding_version self;
     chunk_size := chunk_size self; chunk_overlap := chunk_overlap self;
     rrf_k := rrf_k self;
     _conn := _conn self; _qdrant := q;
     _embedding_engine := _embedding_engine self;
     _qdrant_available := _qdrant_available self;
     _initialized := _initialized self |}.

Definition set_engine (e : option EmbeddingEngine) (self : MemoryGraph) :=
  {| embedding_model := embedding_model self;
     embedding_dimension := embedding_dimension self;
     embedding_version := embedding_version self;
     chunk_size := chunk_size self; chunk_overlap := chunk_overlap self;
     rrf_k := rrf_k self;
     _conn := _conn self; _qdrant := _qdrant self;
     _embedding_engine := e;
     _qdrant_available := _qdrant_available self;
     _initialized := _initialized self |}.

(** [initialize]: [rows] is the table found in the database file,
    [qdrant] the outcome of [_init_qdrant] (the collection found, or
    the exception), [engine] the instance [get_embedding_engine]
    returns. *)
Definition initialize (rows : list Row) (qdrant : res (gmap string Point))
    (engine : EmbeddingEngine) (self : MemoryGraph) : MemoryGraph :=
  if _initialized self then self
  else
    {| embedding_model := embedding_model self;
       embedding_dimension := embedding_dimension self;
       embedding_version := embedding_version self;
       chunk_size := chunk_size self; chunk_overlap := chunk_overlap self;
       rrf_k := rrf_k self;
       _conn := Some (mkConn false rows);
       _qdrant := match qdrant with Ok q => q | Raise _ => ∅ end;
       _embedding_engine := Some engine;
       _qdrant_available := match qdrant with Ok _ => true | Raise _ => false end;
       _initialized := true |}.

(** [close]: the connection is closed, [_conn] still refers to it. *)
Definition close (self : MemoryGraph) : MemoryGraph :=
  match _conn self with
  | Some c => set_conn (Some (mkConn true (memories c))) self
  | None => self
  end.

(** [self._conn.execute(...)] on the table: [AttributeError] when
    [_conn] is [None], [sqlite3.ProgrammingError] on a closed
    connection. *)
Definition with_conn {A} (self : MemoryGraph) (f : list Row -> res A) : res A :=
  match _conn self with
  | None =>
      Raise (Exn AttributeError "'NoneType' object has no attribute 'execute'")
  | Some c =>
      if closed c
      then Raise (Exn ProgrammingError "Cannot operate on a closed database.")
      else f (memories c)
  end.

Definition set_rows (rows : list Row) (self : MemoryGraph) : MemoryGraph :=
  set_conn (Some (mkConn false rows)) self.

(** [_row_to_entry] *)
Definition _row_to_entry (row : Row) : MemoryEntry :=
  {| id := row_id row;
     content := row_content row;
     content_hash := row_content_hash row;
     metadata := row_metadata row;
     timestamp := row_timestamp row;
     memory_type := row_type row;
     Types.embedding_model := Some (row_embedding_model row) |}.

(** [SELECT * FROM memories WHERE content_hash = ?] then [fetchone()] *)
Definition select_by_hash (h : string) (rows : list Row) : option Row :=
  List.find (fun r => bool_decide (row_content_hash r = h)) rows.

(** [SELECT * FROM memories WHERE id = ?] then [fetchone()] *)
Definition select_by_id (i : string) (rows : list Row) : option Row :=
  List.find (fun r => bool_decide (row_id r = i)) rows.

(** [get_by_hash] *)
Definition get_by_hash (content_hash : string) (self : MemoryGraph)
    : res (option MemoryEntry) :=
  with_conn self (fun rows => Ok (_row_to_entry <$> select_by_hash content_hash rows)).

(** [get_by_id] *)
Definition get_by_id (memory_id : string) (self : MemoryGraph)
    : res (option MemoryEntry) :=
  with_conn self (fun rows => Ok (_row_to_entry <$> select_by_id memory_id rows)).

(** [UPDATE memories SET timestamp = CURRENT_TIMESTAMP WHERE content_hash = ?] *)
Definition touch (now : Z) (h : string) (rows : list Row) : list Row :=
  map (fun r =>
         if bool_decide (row_content_hash r = h) then
           mkRow (row_id r) (row_content r) (row_content_hash r) (row_metadata r)
                 now (row_type r) (row_embedding_model r) (row_embedding_version r)
         else r) rows.

(** [INSERT INTO memories ...]: [id] is the primary key and
    [content_hash] is [UNIQUE]. *)
Definition insert_row (r : Row) (rows : list Row) : res (list Row) :=
  if bool_decide (row_id r ∈ map row_id rows) then
    Raise (Exn IntegrityError "UNIQUE constraint failed: memories.id")
  else if bool_decide (row_content_hash r ∈ map row_content_hash rows) then
    Raise (Exn IntegrityError "UNIQUE constraint failed: memories.content_hash")
  else Ok (rows ++ [r]).

(** [DELETE FROM memories WHERE id = ?] *)
Definition delete_row (i : string) (rows : list Row) : list Row :=
  List.filter (fun r => negb (bool_decide (row_id r = i))) rows.

(** *** store *)

Record StoreEnv := mkStoreEnv {
(** [uuid.uuid4().hex[:12]] *)
uuid_hex : string;
(** [CURRENT_TIMESTAMP] *)
db_now : Z;
(** [datetime.utcnow()] when the entry object is built *)
utcnow : Z;
(** the Ollama endpoint while chunk [i] is embedded *)
store_http : nat -> string -> string -> http_outcome;
(** the outcome of [self._qdrant.upsert] for chunk [i] *)
qdrant_upsert : nat -> res unit;
(** the outcome of [event_bus.publish] *)
publish : res unit
  }.

(** Python truthiness of [metadata]: [None] and the empty dict are
    falsy. *)
Definition metadata_or_empty (metadata : option json_dict) : json_dict :=
  match metadata with Some d => d | None => [] end.

Definition truthy (metadata : option json_dict) : bool :=
  match metadata with Some (_ :: _) => true | _ => false end.

Section WithHash.

(** [hashlib.sha256(s.encode()).hexdigest()] *)
Variable sha256 : string -> string.

(** The [if self._qdrant_available and self._embedding_engine:] block
    for one chunk: embed it and, on success, upsert the point; neither
    a failed embedding nor a failed upsert raises. *)
Definition embed_chunk (env : StoreEnv) (i : nat) (chunk chunk_id memory_id : string)
    (memory_type : MemoryType) (self : MemoryGraph) : MemoryGraph :=
  match _qdrant_available self, _embedding_engine self with
  | true, Some engine =>
      let '(engine', embedding_result, _) := embed (store_http env i) chunk engine in
      let self' := set_engine (Some engine') self in
      match embedding_result with
      | Success vector =>
          match qdrant_upsert env i with
          | Ok _ =>
              set_qdrant
                (<[chunk_id := mkPoint vector chunk memory_id memory_type]>
                   (_qdrant self')) self'
          | Raise _ => self'
          end
      | Failure _ => self'
      end
  | _, _ => self
  end.

(** The [for i, chunk in enumerate(chunks)] loop from chunk [i] on.
    [metadata] is the caller's dict: [metadata or {}] is that same
    object when it is truthy, so the ["chunk"] key written for one
    chunk stays in it; otherwise every chunk starts from a new
    empty dict. Returns the graph, the caller's dict and whether
    the loop raised. *)
Fixpoint store_chunks (env : StoreEnv) (memory_id content_hash : string)
    (memory_type : MemoryType) (total i : nat) (chunks : list string)
    (metadata : option json_dict) (self : MemoryGraph)
    : MemoryGraph * option json_dict * res unit :=
  match chunks with
  | [] => (self, metadata, Ok tt)
  | chunk :: rest =>
      let chunk_id :=
        if (1 <? total)%nat then memory_id +:+ "_chunk" +:+ PyStr.of_nat i
        else memory_id in
      let chunk_metadata :=
        if (1 <? total)%nat
        then dict_set "chunk" (ChunkMetadata_dict memory_id i total)
               (metadata_or_empty metadata)
        else metadata_or_empty metadata in
      let metadata' := if truthy metadata then Some chunk_metadata else metadata in
      let row :=
        mkRow chunk_id chunk
              (if (i =? 0)%nat then content_hash else sha256 chunk)
              chunk_metadata (db_now env) memory_type
              (embedding_model self) (embedding_version self) in
      match with_conn self (insert_row row) with
      | Raise e => (self, metadata', Raise e)
      | Ok rows =>
          store_chunks env memory_id content_hash memory_type total (S i) rest
            metadata'
            (embed_chunk env i chunk chunk_id memory_id memory_type
               (set_rows rows self))
      end
  end.

(** [store]; [None] when the call does not terminate (the sliding
    window of [_chunk_content] with [chunk_size <= chunk_overlap]). *)
Definition store (env : StoreEnv) (content : string)
    (metadata : option json_dict) (memory_type : MemoryType)
    (self : MemoryGraph) : option (MemoryGraph * Result MemoryEntry) :=
  if negb (_initialized self) then
    Some (self, Failure "MemoryGraph not initialized")
  else
    let content_hash := sha256 content in
    let failed (g : MemoryGraph) (e : exn) : MemoryGraph * Result MemoryEntry :=
      match exn_kind_of e with
      | IntegrityError => (g, Failure ("Database integrity error: " +:+ exn_msg e))
      | _ => (g, Failure ("Failed to store memory: " +:+ exn_msg e))
      end in
    match get_by_hash content_hash self with
    | Raise e => Some (failed self e)
    | Ok (Some existing) =>
        match with_conn self (fun rows => Ok (touch (db_now env) content_hash rows)) with
        | Raise e => Some (failed self e)
        | Ok rows => Some (set_rows rows self, Success existing)
        end
    | Ok None =>
        let memory_id := "mem_" +:+ uuid_hex env in
        let chunks :=
          if (chunk_size self <? Z.of_nat (String.length content))%Z
          then Chunker._chunk_content (chunk_size self) (chunk_overlap self) content
          else Some [content] in
        match chunks with
        | None => None
        | Some chunks =>
            match store_chunks env memory_id content_hash memory_type
                    (List.length chunks) 0 chunks metadata self with
            | (g, _, Raise e) => Some (failed g e)
            | (g, metadata', Ok _) =>
                let entry :=
                  {| id := memory_id;
                     content := content;
                     content_hash := content_hash;
                     metadata := metadata_or_empty metadata';
                     timestamp := utcnow env;
                     memory_type := memory_type;
                     Types.embedding_model := Some (embedding_model g) |} in
                match publish env with
                | Raise e => Some (failed g e)
                | Ok _ => Some (g, Success entry)
                end
            end
        end
    end.

End WithHash.

(** *** recall *)

Record RecallEnv := mkRecallEnv {
(** The FTS5 query [... WHERE memories_fts MATCH ? {type_filter}
    ORDER BY rank LIMIT ?] on the table: the rows with their
    [rank], or the exception [execute] raises. *)
fts_match : list Row -> string -> option MemoryType -> Z -> res (list (Row * float));
(** the Ollama endpoint *)
recall_http : string -> string -> http_outcome;
(** [self._qdrant.search(...)]: the hits as (id, score) *)
qdrant_search : gmap string Point -> list float -> Z -> option MemoryType
                -> res (list (string * float))
  }.

(** [_fts_search] *)
Definition _fts_search (env : RecallEnv) (query : string) (limit : Z)
    (memory_type : option MemoryType) (self : MemoryGraph)
    : list (MemoryEntry * float) :=
  match with_conn self (fun rows => fts_match env rows query memory_type limit) with
  | Raise _ => []
  | Ok rows =>
      map (fun r : Row * float =>
             (_row_to_entry (fst r), (1 / (1 + PrimFloat.abs (snd r)))%float))
          rows
  end.

(** The [for hit in search_result] loop of [_semantic_search]. *)
Fixpoint fetch_hits (self : MemoryGraph) (hits : list (string * float))
    : res (list (MemoryEntry * float)) :=
  match hits with
  | [] => Ok []
  | (hit_id, hit_score) :: rest =>
      match with_conn self (fun rows => Ok (select_by_id hit_id rows)) with
      | Raise e => Raise e
      | Ok row =>
          match fetch_hits self rest with
          | Raise e => Raise e
          | Ok results =>
              match row with
              | Some r => Ok ((_row_to_entry r, hit_score) :: results)
              | None => Ok results
              end
          end
      end
  end.

(** [_semantic_search] *)
Definition _semantic_search (env : RecallEnv) (query : string) (limit : Z)
    (memory_type : option MemoryType) (self : MemoryGraph)
    : MemoryGraph * list (MemoryEntry * float) :=
  match _embedding_engine self with
  | None => (self, [])
  | Some engine =>
      let '(engine', embedding_result, _) := embed (recall_http env) query engine in
      let self' := set_engine (Some engine') self in
      match embedding_result with
      | Failure _ => (self', [])
      | Success vector =>
          match qdrant_search env (_qdrant self') vector limit memory_type with
          | Raise _ => (self', [])
          | Ok hits =>
              match fetch_hits self' hits with
              | Raise _ => (self', [])
              | Ok results => (self', results)
              end
          end
      end
  end.

(** The body of the [try] of [recall]. *)
Definition recall_body (env : RecallEnv) (query : string) (k : Z)
    (memory_type : option MemoryType) (self : MemoryGraph)
    : MemoryGraph * res (list RecallResult) :=
  let fts_results := _fts_search env query 20 memory_type self in
  let '(self', semantic_results) :=
    match _qdrant_available self, _embedding_engine self with
    | true, Some _ => _semantic_search env query 20 memory_type self
    | _, _ => (self, [])
    end in
  let combined :=
    match semantic_results with
    | _ :: _ => RRF._reciprocal_rank_fusion (rrf_k self') fts_results semantic_results
    | [] => Ok (map (fun r : MemoryEntry * float => (fst r, snd r, fts)) fts_results)
    end in
  match combined with
  | Raise e => (self', Raise e)
  | Ok combined =>
      let top_k := PyNum.list_upto k combined in
      (self',
       Ok (map (fun r : MemoryEntry * float * Source =>
                  mkRecall (fst (fst r)) (snd (fst r)) (snd r)) top_k))
  end.

(** [recall]: what the call gives back to its caller, [Ok] for a
    returned list and [Raise] for a propagated exception. *)
Definition recall (env : RecallEnv) (query : string) (k : Z)
    (memory_type : option MemoryType) (self : MemoryGraph)
    : MemoryGraph * res (list RecallResult) :=
  if negb (_initialized self) then (self, Ok [])
  else
    match recall_body env query k memory_type self with
    | (self', Ok results) => (self', Ok results)
    | (self', Raise _) => (self', Ok [])
    end.

(** *** delete *)

Record DeleteEnv := mkDeleteEnv {
(** the outcome of [self._qdrant.delete] *)
qdrant_delete : res unit;
(** an error of the database itself on [DELETE] or [commit], if any *)
sqlite_error : option exn
  }.

(** [delete] *)
Definition delete (env : DeleteEnv) (memory_id : string) (self : MemoryGraph)
    : MemoryGraph * Result bool :=
  let self1 :=
    if _qdrant_available self then
      match qdrant_delete env with
      | Ok _ => set_qdrant (base.delete memory_id (_qdrant self)) self
      | Raise _ => self
      end
    else self in
  match with_conn self1
          (fun rows =>
             match sqlite_error env with
             | Some e => Raise e
             | None => Ok (delete_row memory_id rows)
             end) with
  | Raise e => (self1, Failure ("Failed to delete memory: " +:+ exn_msg e))
  | Ok rows => (set_rows rows self1, Success true)
  end.

End Graph.

(** * Specification predicates and scenarios *)

Module EmbeddingsSpec.

Import Embeddings.

(** The two halves of the cache agree: [_cache_order] lists the keys
    of [_cache], each once. *)
Definition cache_wf (e : EmbeddingEngine) : Prop :=
  NoDup (_cache_order e) ∧ ∀ k, k ∈ _cache_order e ↔ is_Some (_cache e !! k).

(** [len(self._cache) <= self._cache_size] *)
Definition cache_bounded (e : EmbeddingEngine) : Prop :=
  (Z.of_nat (size (_cache e)) ≤ _cache_size e)%Z.

(** What a put evicted, given the cache before and after: nothing, or
    exactly one key of the cache with the new entry in it. *)
Definition evicted_none (key : string) (embedding : list float)
    (e e' : EmbeddingEngine) : Prop :=
  _cache e' = <[key := embedding]> (_cache e).

Definition evicted_one (key : string) (embedding : list float)
    (e e' : EmbeddingEngine) : Prop :=
  ∃ oldest, is_Some (<[key := embedding]> (_cache e) !! oldest)
            ∧ _cache e' = base.delete oldest (<[key := embedding]> (_cache e)).

(** A network whose primary and fallback models always answer. *)
Definition always_ok (m prompt : string) : http_outcome :=
  HttpResponse 200 (Ok [1%float]).

(** A network whose primary model is down and whose fallback answers. *)
Definition primary_down (m prompt : string) : http_outcome :=
  if decide (m = "mistral") then HttpResponse 200 (Ok [2%float])
  else HttpConnectError "connection refused".

(** Successive [embed] calls on one engine, each with the network
    as it is at that moment. *)
Definition embed_all (calls : list ((string -> string -> http_outcome) * string))
    (e : EmbeddingEngine) : EmbeddingEngine :=
  fold_left (fun e call => fst (fst (embed (fst call) (snd call) e))) calls e.

(** The cache key of a text. *)
Definition key_of (e : EmbeddingEngine) (text : string) : string :=
  model e +:+ ":" +:+ text.

(** An engine with room for two embeddings. *)
Definition engine2 : EmbeddingEngine :=
  init "mxbai-embed-large" "http://localhost:11434" 1 "embed_v1" 2.

(** An engine that already switched to degraded mode. *)
Definition degraded_engine : EmbeddingEngine := set_degraded true default.

(** The models an [embed] call posts to. *)
Definition calls_of (post : string -> string -> http_outcome) (text : string)
    (e : EmbeddingEngine) : list string :=
  snd (embed post text e).

Definition engine_after (post : string -> string -> http_outcome) (text : string)
    (e : EmbeddingEngine) : EmbeddingEngine :=
  fst (fst (embed post text e)).

(** The primary model fails the way the fallback is meant for: a
    connection error or a status other than 200. *)
Definition primary_fails (post : string -> string -> http_outcome)
    (text : string) (e : EmbeddingEngine) : Prop :=
  match post (model e) text with
  | HttpConnectError _ => True
  | HttpResponse status _ => status ≠ 200%Z
  | HttpOtherError _ => False
  end.

(** A call that gets past the empty-text check and misses the cache. *)
Definition cache_miss (text : string) (e : EmbeddingEngine) : Prop :=
  is_blank text = false ∧ _cache e !! (model e +:+ ":" +:+ text) = None.

(** The claim that a degraded engine goes straight to the fallback
    model. *)
Definition skips_primary_when_degraded : Prop :=
  ∀ post text e,
    _degraded_mode e = true → cache_miss text e →
    calls_of post text e = ["mistral"].

End EmbeddingsSpec.

Module RRFSpec.

Import RRF.

(** An entry as far as fusion looks at it: its id and its timestamp. *)
Definition entry_of (i : string) (ts : Z) : MemoryEntry :=
  {| id := i; content := i; content_hash := i; metadata := [];
     timestamp := ts; memory_type := NOTE; Types.embedding_model := None |}.

Definition A : MemoryEntry := entry_of "A" 100.
Definition B : MemoryEntry := entry_of "B" 200.
Definition C : MemoryEntry := entry_of "C" 300.

(** The lexical and semantic rankings of the specification's example;
    the raw scores play no part in the fusion. *)
Definition lexical_ABC : list (MemoryEntry * float) :=
  [(A, 1%float); (B, 0.5%float); (C, 0.25%float)].
Definition semantic_BCA : list (MemoryEntry * float) :=
  [(B, 1%float); (C, 0.5%float); (A, 0.25%float)].

(** [x] comes before [y] in [l]. *)
Definition before {T} (x y : T) (l : list T) : Prop :=
  ∃ i j, i < j ∧ l !! i = Some x ∧ l !! j = Some y.

(** The ids in the order the two loops first meet them: the keys of
    the [scores] dict. *)
Definition see (seen : list string) (x : string) : list string :=
  if bool_decide (x ∈ seen) then seen else seen ++ [x].

Definition first_seen (ids : list string) : list string :=
  fold_left see ids [].

(** The tie-break of the claim: of two results with equal scores the
    one with the later timestamp comes first. *)
Definition ties_by_recency (out : list (MemoryEntry * float * Source)) : Prop :=
  ∀ x y, before x y out → snd (fst x) = snd (fst y) →
         (timestamp (fst (fst y)) ≤ timestamp (fst (fst x)))%Z.

(** The ranks fit a float exactly and none is zero. *)
Definition ranks_ok (k : Z) (results1 results2 : list (MemoryEntry * float)) : Prop :=
  (0 < k)%Z
  ∧ (k + Z.of_nat (List.length results1) < 2 ^ 63)%Z
  ∧ (k + Z.of_nat (List.length results2) < 2 ^ 63)%Z.

End RRFSpec.

Module ChunkerSpec.

Import Chunker.

(** Two strings that differ in whitespace only. *)
Definition same_up_to_whitespace (a b : string) : Prop :=
  remove_spaces a = remove_spaces b.

(** The round trip of the claim, for one content: chunking returns, and
    the reconstruction is the content up to whitespace. *)
Definition round_trip (chunk_size chunk_overlap : Z) (content : string) : Prop :=
  ∃ chunks, _chunk_content chunk_size chunk_overlap content = Some chunks
            ∧ same_up_to_whitespace (reconstruct chunk_overlap chunks) content.

(** The round trip with the content reproduced exactly. *)
Definition exact_round_trip (chunk_size chunk_overlap : Z) (content : string)
    : Prop :=
  ∃ chunks, _chunk_content chunk_size chunk_overlap content = Some chunks
            ∧ reconstruct chunk_overlap chunks = content.

(** [len(prev) > chunk_overlap] for every chunk that is the [prev] of
    another one: all but the last. *)
Definition prevs_longer (chunk_overlap : Z) (chunks : list string) : Prop :=
  Forall (λ prev, (chunk_overlap < Z.of_nat (String.length prev))%Z)
         (removelast chunks).

(** A short paragraph followed by a long one: 604 characters. *)
Definition short_then_long : string :=
  "ab" +:+ blank_line +:+ repeat_char "x" 600.

(** Two paragraphs of 2499 characters: 5000 characters in all. *)
Definition two_paragraphs_5000 : string :=
  repeat_char "a" 2499 +:+ blank_line +:+ repeat_char "b" 2499.

End ChunkerSpec.

Module GraphSpec.

Import Graph.

(** The table as the connection sees it. *)
Definition rows_of (g : MemoryGraph) : list Row :=
  match _conn g with Some c => memories c | None => [] end.

(** *** Scenarios for [store] *)

(** A graph right after [initialize] on an empty database, with Qdrant
    unreachable. *)
Definition fresh_graph : MemoryGraph :=
  initialize [] (Raise (Exn OtherError "qdrant unreachable"))
             Embeddings.default Graph.default.

(** A quiet environment: the given uuid and clock, everything else
    answers. *)
Definition store_env (hex : string) (now : Z) : StoreEnv :=
  {| uuid_hex := hex; db_now := now; utcnow := now;
     store_http := λ _, EmbeddingsSpec.always_ok;
     qdrant_upsert := λ _, Ok tt;
     publish := Ok tt |}.

(** 600 characters without a blank line: two chunks at the default
    sizes. *)
Definition long_content : string := Chunker.repeat_char "a" 600.

(** A stand-in for SHA-256 without collisions: the identity. *)
Definition toy_hash (s : string) : string := s.

(** *** The parts of [recall] *)

(** The semantic result list [recall] works with. *)
Definition semantic_results (env : RecallEnv) (query : string)
    (memory_type : option MemoryType) (g : MemoryGraph)
    : list (MemoryEntry * float) :=
  match _qdrant_available g, _embedding_engine g with
  | true, Some _ => snd (_semantic_search env query 20 memory_type g)
  | _, _ => []
  end.

(** A fused triple as a [RecallResult]. *)
Definition as_result (r : MemoryEntry * float * Source) : RecallResult :=
  mkRecall (fst (fst r)) (snd (fst r)) (snd r).

(** The lexical result list as results tagged [fts]. *)
Definition lexical_results (env : RecallEnv) (query : string)
    (memory_type : option MemoryType) (g : MemoryGraph) : list RecallResult :=
  map (λ r : MemoryEntry * float, mkRecall (fst r) (snd r) fts)
      (_fts_search env query 20 memory_type g).

(** What [recall] returns. *)
Definition recalled (env : RecallEnv) (query : string) (k : Z)
    (memory_type : option MemoryType) (g : MemoryGraph)
    : res (list RecallResult) :=
  snd (recall env query k memory_type g).

(** The claim that an empty semantic list makes [recall] return the
    whole lexical list. *)
Definition lexical_passes_through : Prop :=
  ∀ env query k memory_type g,
    _initialized g = true →
    semantic_results env query memory_type g = [] →
    recalled env query k memory_type g
    = Ok (lexical_results env query memory_type g).

(** The lexical query raises: no connection, a closed one, or an error
    of the MATCH query. *)
Definition lexical_search_fails (env : RecallEnv) (query : string)
    (memory_type : option MemoryType) (g : MemoryGraph) : Prop :=
  ∃ e, with_conn g (λ rows, fts_match env rows query memory_type 20) = Raise e.

(** The query cannot be embedded. *)
Definition query_embedding_fails (env : RecallEnv) (query : string)
    (g : MemoryGraph) : Prop :=
  ∀ engine, _embedding_engine g = Some engine →
    is_failure (snd (fst (Embeddings.embed (recall_http env) query engine))) = true.

(** The vector search raises whatever it is asked. *)
Definition semantic_search_fails (env : RecallEnv)
    (memory_type : option MemoryType) : Prop :=
  ∀ points vector, ∃ e, qdrant_search env points vector 20 memory_type = Raise e.

(** A table with two notes and a lexical index that returns both. *)
Definition note (i text : string) : Row :=
  mkRow i text i [] 0 NOTE "mxbai-embed-large" "embed_v1".

Definition two_notes : MemoryGraph :=
  initialize [note "mem_1" "Neura is a cognitive OS";
              note "mem_2" "a cognitive system"]
             (Raise (Exn OtherError "qdrant unreachable"))
             Embeddings.default Graph.default.

Definition match_all : RecallEnv :=
  {| fts_match := λ rows _ _ _, Ok (map (λ r, (r, (-1)%float)) rows);
     recall_http := EmbeddingsSpec.always_ok;
     qdrant_search := λ _ _ _ _, Ok [] |}.

(** An environment in which both indexes fail. *)
Definition all_down : RecallEnv :=
  {| fts_match := λ _ _ _ _, Raise (Exn OtherError "fts5: syntax error");
     recall_http := λ _ _, HttpOtherError "timeout";
     qdrant_search := λ _ _ _ _, Raise (Exn OtherError "qdrant unreachable") |}.

(** *** delete *)

(** The [DELETE] statement of [delete] on the connection of [g]. *)
Definition sqlite_delete (env : DeleteEnv) (memory_id : string) (g : MemoryGraph)
    : res (list Row) :=
  with_conn g (λ rows,
    match sqlite_error env with
    | Some e => Raise e
    | None => Ok (delete_row memory_id rows)
    end).

(** Qdrant is down and the database works. *)
Definition qdrant_down : DeleteEnv :=
  {| qdrant_delete := Raise (Exn OtherError "qdrant unreachable");
     sqlite_error := None |}.

End GraphSpec.

(** ** neura/memory/embeddings.py: batch_embed *)

Module EmbeddingsBatch.

Import Embeddings.

(** The [for i, text in enumerate(texts)] loop of [batch_embed], from
    text [i] on: the engine, the [embeddings] list ([None] for a text
    whose [embed] failed) and the models posted to. [post i] is the
    Ollama endpoint while text [i] is embedded. *)
Fixpoint batch_loop (post : nat -> string -> string -> http_outcome) (i : nat)
    (texts : list string) (self : EmbeddingEngine)
    : EmbeddingEngine * list (option (list float)) * list string :=
  match texts with
  | [] => (self, [], [])
  | text :: rest =>
      match embed (post i) text self with
      | (self1, result, calls) =>
          match batch_loop post (S i) rest self1 with
          | (self2, embeddings, calls') =>
              (self2,
               match result with
               | Success data => Some data
               | Failure _ => None
               end :: embeddings,
               calls ++ calls')
          end
      end
  end.

(** [sum(1 for e in embeddings if e is not None)] *)
Definition success_count (embeddings : list (option (list float))) : nat :=
  List.length (List.filter (fun e => match e with Some _ => true | None => false end)
                 embeddings).

(** [batch_embed] *)
Definition batch_embed (post : nat -> string -> string -> http_outcome)
    (texts : list string) (self : EmbeddingEngine)
    : EmbeddingEngine * Result (list (option (list float))) :=
  match texts with
  | [] => (self, Failure "Cannot embed empty list")
  | _ :: _ =>
      match batch_loop post 0 texts self with
      | (self', embeddings, _) =>
          if (success_count embeddings =? 0)%nat
          then (self', Failure "All embeddings failed")
          else (self', Success embeddings)
      end
  end.

End EmbeddingsBatch.

Module EmbeddingsMoreSpec.

Import Embeddings EmbeddingsSpec.

(** Every character of the text is whitespace ([c.isspace()]). *)
Fixpoint all_space (text : string) : bool :=
  match text with
  | EmptyString => true
  | String c text' => PyStr.is_space c && all_space text'
  end.

(** The calls of a sequence that get past the empty-text check. *)
Definition counted (calls : list ((string -> string -> http_outcome) * string))
    : nat :=
  List.length (List.filter (fun call => negb (is_blank (snd call))) calls).

(** The keys of the eviction order with [key] taken out and put last:
    [key] becomes the most recent one. *)
Definition refreshed (key : string) (order : list string) : list string :=
  List.filter (fun k => negb (String.eqb k key)) order ++ [key].

(** The slot of a text in the list [batch_embed] returns:
    [result.data], or [None] for a failure. *)
Definition slot (result : Result (list float)) : option (list float) :=
  match result with Success data => Some data | Failure _ => None end.

(** The engine as the first [j] texts of a batch leave it. *)
Definition engine_before (post : nat -> string -> string -> http_outcome)
    (texts : list string) (j : nat) (e : EmbeddingEngine) : EmbeddingEngine :=
  fst (fst (EmbeddingsBatch.batch_loop post 0 (take j texts) e)).

End EmbeddingsMoreSpec.

Module ChunkerMoreSpec.

Import Chunker.

(** Chunk [j] of the sliding window: [chunk_size] characters, or what
    is left, from index [j * (chunk_size - chunk_overlap)] on. *)
Definition window_chunk (chunk_size chunk_overlap : Z) (content : string)
    (j : nat) : string :=
  PyStr.take (Z.to_nat chunk_size)
    (PyStr.drop (j * Z.to_nat (chunk_size - chunk_overlap)) content).

(** Paragraphs as the paragraph loop joins them: each followed by a
    blank line. *)
Definition join_paragraphs (group : list string) : string :=
  fold_right (fun para acc => para +:+ blank_line +:+ acc) "" group.

End ChunkerMoreSpec.

Module RRFMoreSpec.

Import RRF.

(** The id of a fused result. *)
Definition out_id (r : MemoryEntry * float * Source) : string :=
  id (fst (fst r)).

(** No element of the list is directly followed by one with a
    strictly greater key. *)
Fixpoint descending {A} (key : A -> float) (l : list A) : Prop :=
  match l with
  | a :: (b :: _) as l' => PrimFloat.ltb (key a) (key b) = false ∧ descending key l'
  | _ => True
  end.

End RRFMoreSpec.

Module GraphMoreSpec.

Import Graph GraphSpec.

(** [f"{memory_id}_chunk{i}" if len(chunks) > 1 else memory_id] *)
Definition chunk_id_of (memory_id : string) (total i : nat) : string :=
  if (1 <? total)%nat then memory_id +:+ "_chunk" +:+ PyStr.of_nat i
  else memory_id.

(** The dict dumped into the row of chunk [i], given the caller's
    [metadata] at any moment of the loop. *)
Definition chunk_metadata_of (metadata : option json_dict) (memory_id : string)
    (total i : nat) : json_dict :=
  if (1 <? total)%nat
  then dict_set "chunk" (ChunkMetadata_dict memory_id i total)
         (metadata_or_empty metadata)
  else metadata_or_empty metadata.

(** The row [store] inserts for chunk [i]. *)
Definition chunk_row (sha256 : string -> string) (env : StoreEnv)
    (memory_id content_hash : string) (memory_type : MemoryType) (total : nat)
    (metadata : option json_dict) (g : MemoryGraph) (i : nat) (chunk : string)
    : Row :=
  mkRow (chunk_id_of memory_id total i) chunk
        (if (i =? 0)%nat then content_hash else sha256 chunk)
        (chunk_metadata_of metadata memory_id total i)
        (db_now env) memory_type (embedding_model g) (embedding_version g).

(** The rows of the chunks from chunk [i] on. *)
Fixpoint chunk_rows (sha256 : string -> string) (env : StoreEnv)
    (memory_id content_hash : string) (memory_type : MemoryType) (total : nat)
    (metadata : option json_dict) (g : MemoryGraph) (i : nat)
    (chunks : list string) : list Row :=
  match chunks with
  | [] => []
  | chunk :: rest =>
      chunk_row sha256 env memory_id content_hash memory_type total metadata g
                i chunk
      :: chunk_rows sha256 env memory_id content_hash memory_type total
           metadata g (S i) rest
  end.

(** The chunks [store] cuts a content into. *)
Definition chunks_of (g : MemoryGraph) (content : string) : option (list string) :=
  if (chunk_size g <? Z.of_nat (String.length content))%Z
  then Chunker._chunk_content (chunk_size g) (chunk_overlap g) content
  else Some [content].

(** The rows [store] inserts for a content that is new. *)
Definition rows_for (sha256 : string -> string) (env : StoreEnv)
    (content : string) (metadata : option json_dict) (memory_type : MemoryType)
    (g : MemoryGraph) (chunks : list string) : list Row :=
  chunk_rows sha256 env ("mem_" +:+ uuid_hex env) (sha256 content) memory_type
    (List.length chunks) metadata g 0 chunks.

(** Two graphs with the same configuration and flags. *)
Definition same_config (g g' : MemoryGraph) : Prop :=
  embedding_model g' = embedding_model g
  ∧ embedding_dimension g' = embedding_dimension g
  ∧ embedding_version g' = embedding_version g
  ∧ chunk_size g' = chunk_size g
  ∧ chunk_overlap g' = chunk_overlap g
  ∧ rrf_k g' = rrf_k g
  ∧ _qdrant_available g' = _qdrant_available g
  ∧ _initialized g' = _initialized g.

(** What the loop leaves in the caller's dict after chunk [i]. *)
Definition metadata_after (metadata : option json_dict) (memory_id : string)
    (total i : nat) : option json_dict :=
  if truthy metadata
  then Some (chunk_metadata_of metadata memory_id total i)
  else metadata.

(** The message of the failure [store] answers for an exception. *)
Definition store_failure (e : exn) : string :=
  match exn_kind_of e with
  | IntegrityError => "Database integrity error: " +:+ exn_msg e
  | _ => "Failed to store memory: " +:+ exn_msg e
  end.

(** The entry object [store] builds for a content that is new. *)
Definition new_entry (sha256 : string -> string) (env : StoreEnv)
    (content : string) (metadata : option json_dict) (memory_type : MemoryType)
    (g : MemoryGraph) (chunks : list string) : MemoryEntry :=
  {| id := "mem_" +:+ uuid_hex env;
     content := content;
     content_hash := sha256 content;
     metadata :=
       metadata_or_empty
         match chunks with
         | [] => metadata
         | _ :: _ =>
             metadata_after metadata ("mem_" +:+ uuid_hex env)
               (List.length chunks) (List.length chunks - 1)
         end;
     timestamp := utcnow env;
     memory_type := memory_type;
     Types.embedding_model := Some (embedding_model g) |}.

(** An entry with another timestamp. *)
Definition with_timestamp (t : Z) (e : MemoryEntry) : MemoryEntry :=
  {| id := id e; content := content e; content_hash := content_hash e;
     metadata := metadata e; timestamp := t; memory_type := memory_type e;
     Types.embedding_model := Types.embedding_model e |}.

(** A row with another timestamp. *)
Definition row_with_timestamp (t : Z) (r : Row) : Row :=
  mkRow (row_id r) (row_content r) (row_content_hash r) (row_metadata r) t
        (row_type r) (row_embedding_model r) (row_embedding_version r).

(** What the loop of [_semantic_search] makes of a hit: the entry of
    the row with the id of the hit and the score of the hit, or
    nothing when the table has no such row. *)
Definition hit_entry (rows : list Row) (hit : string * float)
    : option (MemoryEntry * float) :=
  (fun r => (_row_to_entry r, snd hit)) <$> select_by_id (fst hit) rows.

(** A table with two notes and a vector index that answers. *)
Definition indexed_notes : MemoryGraph :=
  initialize [note "mem_1" "Neura is a cognitive OS";
              note "mem_2" "a cognitive system"]
             (Ok ∅) Embeddings.default Graph.default.

(** A vector index that still returns a point whose row is gone. *)
Definition stale_hit : RecallEnv :=
  {| fts_match := fun _ _ _ _ => Ok [];
     recall_http := EmbeddingsSpec.always_ok;
     qdrant_search := fun _ _ _ _ => Ok [("mem_gone", 0.5%float);
                                         ("mem_2", 0.25%float)] |}.

End GraphMoreSpec.

(** * Facts about the embedding engine *)

Module EmbeddingsFacts.

Import Embeddings EmbeddingsSpec.

Lemma list_remove_spec (x : string) (l : list string) :
  x ∈ l → NoDup l →
  ∃ l', list_remove x l = Ok l' ∧ NoDup l' ∧ (x ∉ l')
        ∧ (∀ k, k ≠ x → (k ∈ l' ↔ k ∈ l)).
Proof.
  induction l as [|y l IH]; intros Hin Hnd.
  - by apply elem_of_nil in Hin.
  - apply NoDup_cons in Hnd as [Hy Hnd]. simpl.
    destruct (decide (x = y)) as [->|Hne].
    + exists l. repeat split; auto.
      * intros Hk. apply elem_of_cons. by right.
      * intros Hk. apply elem_of_cons in Hk as [?|?]; [congruence|done].
    + apply elem_of_cons in Hin as [?|Hin]; [congruence|].
      destruct (IH Hin Hnd) as (l' & -> & Hnd' & Hx & Hmem).
      exists (y :: l'). repeat split.
      * apply NoDup_cons. split; [|done].
        intros Hy'. apply Hy. apply Hmem; [congruence|done].
      * intros Hx'. apply elem_of_cons in Hx' as [?|?]; [congruence|done].
      * intros Hk. apply elem_of_cons in Hk as [->|Hk];
          apply elem_of_cons; [by left|right; by apply Hmem].
      * intros Hk. apply elem_of_cons in Hk as [->|Hk];
          apply elem_of_cons; [by left|right; by apply Hmem].
Qed.

Lemma wf_size (m : gmap string (list float)) (l : list string) :
  NoDup l → (∀ k, k ∈ l ↔ is_Some (m !! k)) → size m = List.length l.
Proof.
  intros Hnd Hmem.
  rewrite <- size_dom, <- (size_list_to_set (C := gset string) l) by done.
  f_equal. apply set_eq. intros k.
  rewrite elem_of_dom, elem_of_list_to_set. symmetry. apply Hmem.
Qed.

Lemma cache_wf_size (e : EmbeddingEngine) :
  cache_wf e → size (_cache e) = List.length (_cache_order e).
Proof. intros [Hnd Hmem]. by apply wf_size. Qed.

(** The engine [__init__] builds has a well-formed, bounded cache. *)
Lemma init_cache_wf m h d v n : cache_wf (init m h d v n).
Proof.
  split; simpl.
  - constructor.
  - intros k. rewrite lookup_empty. split.
    + intros H. by apply elem_of_nil in H.
    + intros [? ?]. done.
Qed.

Lemma init_cache_bounded m h d v n : (0 ≤ n)%Z → cache_bounded (init m h d v n).
Proof. intros Hn. unfold cache_bounded. simpl. rewrite map_size_empty. lia. Qed.

Ltac simpl_engine :=
  unfold set_cache, set_cache_order, set_degraded, incr_hits, incr_misses;
  cbn [model ollama_host dimension version _degraded_mode _cache _cache_order
       _cache_size _cache_hits _cache_misses fst snd].

Lemma add_to_cache_step (key : string) (embedding : list float)
    (e : EmbeddingEngine) :
  cache_wf e → cache_bounded e →
  ∃ e', _add_to_cache key embedding e = (e', Ok tt)
        ∧ cache_wf e' ∧ cache_bounded e'
        ∧ _cache_size e' = _cache_size e
        ∧ _degraded_mode e' = _degraded_mode e
        ∧ ((key ∈ _cache_order e ∨ (Z.of_nat (size (_cache e)) < _cache_size e)%Z)
             → evicted_none key embedding e e')
        ∧ (key ∉ _cache_order e → Z.of_nat (size (_cache e)) = _cache_size e
             → evicted_one key embedding e e').
Proof.
  intros Hwf Hb. pose proof (cache_wf_size e Hwf) as Hsz.
  destruct Hwf as [Hnd Hmem]. unfold cache_bounded in Hb.
  unfold _add_to_cache, cache_wf, cache_bounded, evicted_none, evicted_one.
  destruct (_cache e !! key) as [old|] eqn:Hkey.
  - (* the key is cached: its place in the order is refreshed *)
    assert (Hin : key ∈ _cache_order e) by (apply Hmem; eauto).
    destruct (list_remove_spec key _ Hin Hnd) as (o & -> & Hndo & Hko & Hmo).
    simpl_engine.
    assert (Hsize : size (<[key:=embedding]> (_cache e)) = size (_cache e)).
    { apply map_size_insert_Some. eauto. }
    rewrite Hsize.
    destruct (Z.ltb_spec (_cache_size e) (Z.of_nat (size (_cache e)))); [lia|].
    eexists. split; [reflexivity|]. simpl_engine.
    split; [split|].
    + apply NoDup_app. repeat split; [done| |apply NoDup_singleton].
      intros k Hk Hk'. apply list_elem_of_singleton in Hk'. by subst.
    + intros k. rewrite elem_of_app, list_elem_of_singleton.
      destruct (decide (k = key)) as [->|Hne].
      * rewrite lookup_insert_eq. split; eauto.
      * rewrite lookup_insert_ne by done. rewrite Hmo by done. rewrite Hmem.
        split; [|by left]. intros [?|?]; [done|congruence].
    + repeat split; try done. lia.
  - (* a new key *)
    assert (Hnin : key ∉ _cache_order e).
    { intros Hin. apply Hmem in Hin as [? ?]. congruence. }
    simpl_engine.
    assert (Hsize : size (<[key:=embedding]> (_cache e)) = S (size (_cache e))).
    { by apply map_size_insert_None. }
    rewrite Hsize.
    assert (Hnd3 : NoDup (_cache_order e ++ [key])).
    { apply NoDup_app. repeat split; [done| |apply NoDup_singleton].
      intros k Hk Hk'. apply list_elem_of_singleton in Hk'. by subst. }
    assert (Hmem3 : ∀ k, k ∈ _cache_order e ++ [key]
                         ↔ is_Some (<[key:=embedding]> (_cache e) !! k)).
    { intros k. rewrite elem_of_app, list_elem_of_singleton.
      destruct (decide (k = key)) as [->|Hne].
      - rewrite lookup_insert_eq. split; eauto.
      - rewrite lookup_insert_ne by done. rewrite Hmem. split; [|by left].
        intros [?|?]; [done|congruence]. }
    destruct (Z.ltb_spec (_cache_size e) (Z.of_nat (S (size (_cache e)))))
      as [Hfull|Hroom].
    + (* the cache is full: the head of the order is evicted *)
      destruct (_cache_order e ++ [key]) as [|oldest rest] eqn:Horder.
      { by destruct (_cache_order e). }
      simpl_engine.
      assert (Hold : is_Some (<[key:=embedding]> (_cache e) !! oldest)).
      { apply Hmem3. by left. }
      destruct Hold as [v Hv]. rewrite Hv.
      eexists. split; [reflexivity|]. simpl_engine.
      apply NoDup_cons in Hnd3 as [Hhd Hrest].
      split; [split|].
      * done.
      * intros k. destruct (decide (k = oldest)) as [->|Hne].
        -- rewrite lookup_delete_eq. split; [done|]. by intros [? ?].
        -- rewrite lookup_delete_ne by done. rewrite <- Hmem3.
           rewrite elem_of_cons. split; [by right|]. intros [?|?]; [congruence|done].
      * repeat split; try done.
        -- rewrite map_size_delete_Some by eauto. rewrite Hsize. simpl. lia.
        -- intros [Hin|Hlt]; [done|lia].
        -- intros _ _. exists oldest. split; [eauto|done].
    + eexists. split; [reflexivity|]. simpl_engine.
      split; [split|]; [done|apply Hmem3|].
      repeat split; try done.
      * rewrite Hsize. lia.
      * intros _ Heq. lia.
Qed.

Lemma add_to_cache_degraded (key : string) (embedding : list float)
    (e : EmbeddingEngine) :
  _degraded_mode (fst (_add_to_cache key embedding e)) = _degraded_mode e.
Proof.
  unfold _add_to_cache.
  repeat (case_match; simplify_eq; simpl_engine; try done).
Qed.

(** The fallback call: one post to ["mistral"], and the engine is
    degraded afterwards whatever the outcome. *)
Lemma fallback_embed_spec post text (e : EmbeddingEngine) :
  ∃ r, _fallback_embed post text e = (set_degraded true e, r, ["mistral"]).
Proof.
  unfold _fallback_embed. repeat case_match; eauto.
Qed.

(** [embed] keeps the cache well formed and within its bound. *)
Lemma embed_cache_inv post text (e : EmbeddingEngine) :
  cache_wf e → cache_bounded e →
  cache_wf (engine_after post text e) ∧ cache_bounded (engine_after post text e).
Proof.
  intros Hwf Hb. unfold engine_after, embed.
  assert (Hm : cache_wf (incr_misses e) ∧ cache_bounded (incr_misses e)) by done.
  destruct Hm as [Hwfm Hbm].
  destruct (fallback_embed_spec post text (incr_misses e)) as [r ->].
  repeat (case_match; simplify_eq; simpl_engine; try done).
  all: match goal with
       | H : _add_to_cache ?k ?v ?e0 = _ |- _ =>
           destruct (add_to_cache_step k v e0 Hwfm Hbm) as (e' & He' & ? & ? & _);
           rewrite He' in H; by simplify_eq
       end.
Qed.

Lemma embed_all_cache_inv calls (e : EmbeddingEngine) :
  cache_wf e → cache_bounded e →
  cache_wf (embed_all calls e) ∧ cache_bounded (embed_all calls e).
Proof.
  revert e. induction calls as [|[post text] calls IH]; intros e Hwf Hb; [done|].
  simpl. destruct (embed_cache_inv post text e Hwf Hb) as [? ?].
  by apply IH.
Qed.

(** A cache hit counts the hit and leaves the eviction order as it was. *)
Lemma embed_hit post text (e : EmbeddingEngine) v :
  is_blank text = false → _cache e !! key_of e text = Some v →
  embed post text e = (incr_hits e, Success v, [])
  ∧ _cache_order (engine_after post text e) = _cache_order e
  ∧ _cache_hits (engine_after post text e) = S (_cache_hits e).
Proof.
  intros Hb Hv. unfold engine_after, embed, key_of in *. by rewrite Hb, Hv.
Qed.

(** C9. A put into a well-formed cache within its bound does not
    raise and leaves the cache well formed and within the bound
    ([len(self._cache) <= self._cache_size]); it evicts nothing when
    the cache with the new entry still fits, and exactly one entry
    when it would exceed the bound. *)
Theorem cache_put_bounded (key : string) (embedding : list float)
    (e : EmbeddingEngine) :
  cache_wf e → cache_bounded e →
  ∃ e', _add_to_cache key embedding e = (e', Ok tt)
        ∧ cache_wf e' ∧ cache_bounded e'
        ∧ ((Z.of_nat (size (<[key := embedding]> (_cache e))) ≤ _cache_size e)%Z
             → evicted_none key embedding e e')
        ∧ ((_cache_size e < Z.of_nat (size (<[key := embedding]> (_cache e))))%Z
             → evicted_one key embedding e e'
               ∧ size (_cache e') = size (_cache e)).
Proof.
  intros Hwf Hb.
  destruct (add_to_cache_step key embedding e Hwf Hb)
    as (e' & He' & Hwf' & Hb' & _ & _ & Hnone & Hone).
  exists e'. do 3 (split; [done|]). split.
  - intros Hfit. apply Hnone.
    destruct (_cache e !! key) as [v|] eqn:Hkey.
    + left. apply Hwf. eauto.
    + right. rewrite map_size_insert_None in Hfit by done. lia.
  - intros H. unfold cache_bounded in Hb.
    destruct (_cache e !! key) as [v|] eqn:Hkey.
    + rewrite map_size_insert_Some in H by eauto. lia.
    + rewrite map_size_insert_None in H by done.
      assert (Hnin : key ∉ _cache_order e).
      { intros Hin. apply Hwf in Hin as [? ?]. congruence. }
      assert (Hfull : Z.of_nat (size (_cache e)) = _cache_size e) by lia.
      split; [by apply Hone|].
      destruct (Hone Hnin Hfull) as (oldest & [w Hw] & ->).
      rewrite map_size_delete_Some by eauto.
      by rewrite map_size_insert_None.
Qed.

Lemma cache_put_bounded_witness :
  ∃ e', _add_to_cache "k" [1%float] (init "m" "h" 1 "v" 0) = (e', Ok tt)
        ∧ cache_bounded e' ∧ size (_cache e') = 0.
Proof.
  destruct (cache_put_bounded "k" [1%float] (init "m" "h" 1 "v" 0))
    as (e' & He' & _ & Hb & _ & Hone).
  - apply init_cache_wf.
  - apply init_cache_bounded. lia.
  - exists e'. repeat split; [done|done|].
    destruct Hone as [_ ->]; [|done].
    simpl. rewrite map_size_insert_None by done. rewrite map_size_empty. lia.
Defined.

(** C4. With room for two embeddings, after the calls for X, Y, X (a
    cache hit) and Z, the hit was counted but the cache has lost X
    and kept Y: the hit did not refresh the place of X in the
    eviction order. *)
Theorem cache_hit_does_not_refresh_recency :
  let e := embed_all [(always_ok, "X"); (always_ok, "Y");
                      (always_ok, "X"); (always_ok, "Z")] engine2 in
  _cache_hits e = 1
  ∧ _cache e !! key_of e "X" = None
  ∧ _cache e !! key_of e "Y" = Some [1%float]
  ∧ _cache e !! key_of e "Z" = Some [1%float]
  ∧ _cache_order e = [key_of e "Y"; key_of e "Z"].
Proof. vm_compute. done. Qed.

(** C5, as the claim has it: refuted. A degraded engine that misses
    the cache still posts to the primary model, not to the fallback. *)
Lemma degraded_engine_calls_primary : ¬ skips_primary_when_degraded.
Proof.
  intros H.
  assert (Hmiss : cache_miss "hello" degraded_engine).
  { vm_compute. split; reflexivity. }
  specialize (H always_ok "hello" degraded_engine eq_refl Hmiss).
  vm_compute in H. discriminate.
Qed.

(** C5, amended. [_degraded_mode] never goes back to false. On a
    cache miss, an engine that is not degraded and whose primary
    model fails (connection error or status other than 200) posts to
    the primary model and then exactly once to the fallback, and is
    degraded afterwards whatever the fallback answers; an engine that
    is degraded posts to the primary model only. *)
Theorem fallback_is_one_way post text (e : EmbeddingEngine) :
  (_degraded_mode e = true → _degraded_mode (engine_after post text e) = true)
  ∧ (cache_miss text e → _degraded_mode e = false → primary_fails post text e →
       calls_of post text e = [model e; "mistral"]
       ∧ _degraded_mode (engine_after post text e) = true)
  ∧ (cache_miss text e → _degraded_mode e = true →
       calls_of post text e = [model e]).
Proof.
  unfold cache_miss, primary_fails, calls_of, engine_after, embed.
  destruct (fallback_embed_spec post text (incr_misses e)) as [r ->].
  repeat split.
  - intros Hd.
    repeat (case_match; simplify_eq; simpl_engine; try done).
    all: match goal with
         | H : _add_to_cache ?k ?v ?e0 = _ |- _ =>
             pose proof (add_to_cache_degraded k v e0) as Hk; rewrite H in Hk
         end.
    all: simpl in Hk; by rewrite Hk.
  - destruct H as [-> ->]. simpl_engine. rewrite H0.
    repeat (case_match; simpl_engine; simplify_eq; try done).
    all: match goal with
         | Hs : negb (_ =? 200)%Z = false |- _ =>
             apply negb_false_iff, Z.eqb_eq in Hs; congruence
         end.
  - destruct H as [-> ->]. simpl_engine. rewrite H0.
    repeat (case_match; simpl_engine; simplify_eq; try done).
    all: match goal with
         | Hs : negb (_ =? 200)%Z = false |- _ =>
             apply negb_false_iff, Z.eqb_eq in Hs; congruence
         end.
  - intros [-> ->] Hd. simpl_engine. rewrite Hd.
    repeat (case_match; simpl_engine; simplify_eq; try done).
Qed.

Lemma fallback_is_one_way_witness :
  calls_of primary_down "hello" default = ["mxbai-embed-large"; "mistral"]
  ∧ _degraded_mode (engine_after primary_down "hello" default) = true
  ∧ calls_of primary_down "hello" (engine_after primary_down "hello" default)
    = ["mxbai-embed-large"]
  ∧ _degraded_mode
      (engine_after primary_down "again"
         (engine_after primary_down "hello" default)) = true.
Proof.
  destruct (fallback_is_one_way primary_down "hello" default) as (_ & H2 & _).
  destruct (fallback_is_one_way primary_down "hello"
              (engine_after primary_down "hello" default)) as (_ & _ & H3).
  destruct (fallback_is_one_way primary_down "again"
              (engine_after primary_down "hello" default)) as (H1 & _ & _).
  destruct H2 as [Hc Hd].
  { vm_compute. split; reflexivity. }
  { reflexivity. }
  { vm_compute. exact I. }
  split; [exact Hc|]. split; [exact Hd|]. split.
  - apply H3; [vm_compute; split; reflexivity|exact Hd].
  - apply H1. exact Hd.
Defined.

End EmbeddingsFacts.

(** * Facts about rank fusion *)

Module RRFFacts.

Import RRF RRFSpec.

(** ** Insertion-ordered dicts *)

Lemma dict_get_set_eq {V} (k : string) (v : V) d :
  dict_get k (dict_set k v d) = Some v.
Proof.
  induction d as [|[k0 w] d IH]; simpl.
  - by rewrite decide_True.
  - destruct (decide (k0 = k)) as [->|Hne]; simpl.
    + by rewrite decide_True.
    + by rewrite decide_False.
Qed.

Lemma dict_get_set_ne {V} (k k' : string) (v : V) d :
  k ≠ k' → dict_get k' (dict_set k v d) = dict_get k' d.
Proof.
  intros Hne. induction d as [|[k0 w] d IH]; simpl.
  - by rewrite decide_False.
  - destruct (decide (k0 = k)) as [->|Hne0]; simpl.
    + by rewrite !decide_False.
    + destruct (decide (k0 = k')); [done|apply IH].
Qed.

Lemma dict_keys_set {V} (k : string) (v : V) d :
  map fst (dict_set k v d) = see (map fst d) k.
Proof.
  unfold see. induction d as [|[k0 w] d IH]; simpl.
  - done.
  - destruct (decide (k0 = k)) as [->|Hne]; simpl.
    + rewrite bool_decide_eq_true_2; [done|]. by left.
    + rewrite IH. destruct (bool_decide (k ∈ map fst d)) eqn:Hin.
      * apply bool_decide_eq_true in Hin.
        rewrite bool_decide_eq_true_2; [done|]. by right.
      * apply bool_decide_eq_false in Hin.
        rewrite bool_decide_eq_false_2; [done|].
        intros Hk. apply elem_of_cons in Hk as [?|?]; [congruence|done].
Qed.

Lemma dict_get_None {V} (k : string) (d : list (string * V)) :
  dict_get k d = None ↔ k ∉ map fst d.
Proof.
  induction d as [|[k0 w] d IH]; simpl.
  - split; [intros _; apply not_elem_of_nil|done].
  - destruct (decide (k0 = k)) as [->|Hne].
    + split; [done|]. intros Hk. exfalso. apply Hk. by left.
    + rewrite IH. split.
      * intros Hk Hk'. apply elem_of_cons in Hk' as [?|?]; [congruence|done].
      * intros Hk Hk'. apply Hk. by right.
Qed.

Lemma dict_get_elem {V} (k : string) (v : V) d :
  NoDup (map fst d) → (k, v) ∈ d → dict_get k d = Some v.
Proof.
  induction d as [|[k0 w] d IH]; simpl; intros Hnd Hin.
  - by apply elem_of_nil in Hin.
  - apply NoDup_cons in Hnd as [Hk0 Hnd].
    apply elem_of_cons in Hin as [Heq|Hin].
    + simplify_eq. by rewrite decide_True.
    + destruct (decide (k0 = k)) as [->|Hne]; [|by apply IH].
      exfalso. apply Hk0. apply (list_elem_of_fmap_2 fst) in Hin. done.
Qed.

Lemma elem_of_map_fst {V} (p : string * V) (d : list (string * V)) :
  p ∈ d → fst p ∈ map fst d.
Proof. intros Hp. by apply (list_elem_of_fmap_2 fst). Qed.

Lemma elem_of_map_fst_inv {V} (i : string) (d : list (string * V)) :
  i ∈ map fst d → ∃ p, p ∈ d ∧ fst p = i.
Proof.
  intros Hi. apply (list_elem_of_fmap fst) in Hi as (p & -> & Hp). eauto.
Qed.

Lemma see_NoDup seen x : NoDup seen → NoDup (see seen x).
Proof.
  intros Hnd. unfold see. destruct (bool_decide (x ∈ seen)) eqn:Hin; [done|].
  apply bool_decide_eq_false in Hin.
  apply NoDup_app. repeat split; [done| |apply NoDup_singleton].
  intros y Hy Hy'. apply list_elem_of_singleton in Hy'. by subst.
Qed.

Lemma fold_see_NoDup ids seen : NoDup seen → NoDup (fold_left see ids seen).
Proof.
  revert seen. induction ids as [|x ids IH]; intros seen Hnd; [done|].
  simpl. apply IH. by apply see_NoDup.
Qed.

Lemma see_elem seen x y : y ∈ see seen x ↔ y ∈ seen ∨ y = x.
Proof.
  unfold see. destruct (bool_decide (x ∈ seen)) eqn:Hin.
  - apply bool_decide_eq_true in Hin. split; [by left|].
    intros [?| ->]; done.
  - rewrite elem_of_app, list_elem_of_singleton. done.
Qed.

Lemma fold_see_elem ids seen y :
  y ∈ fold_left see ids seen ↔ y ∈ seen ∨ y ∈ ids.
Proof.
  revert seen. induction ids as [|x ids IH]; intros seen; simpl.
  - split; [by left|]. intros [?|H]; [done|]. by apply elem_of_nil in H.
  - rewrite IH, see_elem, elem_of_cons. tauto.
Qed.

(** ** The stable descending sort *)

Lemma insert_desc_split {T} (key : T → float) (x : T) (l : list T) :
  ∃ l1 l2, l = l1 ++ l2 ∧ insert_desc key x l = l1 ++ x :: l2
           ∧ Forall (λ y, PrimFloat.ltb (key x) (key y) = true) l1.
Proof.
  induction l as [|y l IH]; simpl.
  - exists [], []. split; [done|]. split; [done|]. constructor.
  - destruct (PrimFloat.ltb (key x) (key y)) eqn:Hlt.
    + destruct IH as (l1 & l2 & -> & -> & Hall).
      exists (y :: l1), l2. split; [done|]. split; [done|]. by constructor.
    + exists [], (y :: l). split; [done|]. split; [done|]. constructor.
Qed.

Lemma sorted_desc_perm {T} (key : T → float) (l : list T) :
  sorted_desc key l ≡ₚ l.
Proof.
  induction l as [|x l IH]; [done|]. simpl.
  destruct (insert_desc_split key x (sorted_desc key l)) as (l1 & l2 & Hl & -> & _).
  rewrite <- IH, Hl. by rewrite Permutation_middle.
Qed.

Lemma singleton_sublist {T} (x : T) (l : list T) : x ∈ l → [x] `sublist_of` l.
Proof.
  intros (l1 & l2 & ->)%list_elem_of_split.
  apply sublist_inserts_l. apply sublist_skip. apply sublist_nil_l.
Qed.

(** An element stays before the elements that followed it unless its
    key is strictly smaller than theirs. *)
Lemma sorted_desc_stable {T} (key : T → float) (l : list T) (a b : T) :
  [a; b] `sublist_of` l →
  [a; b] `sublist_of` sorted_desc key l ∨ PrimFloat.ltb (key a) (key b) = true.
Proof.
  induction l as [|x l IH]; intros Hab.
  - apply sublist_nil_r in Hab. discriminate.
  - simpl.
    destruct (insert_desc_split key x (sorted_desc key l))
      as (l1 & l2 & Hl & -> & Hall).
    apply sublist_cons_r in Hab as [Hab|(l' & Heq & Hb)].
    + destruct (IH Hab) as [Hs|Hlt]; [left|by right].
      rewrite Hl in Hs. etrans; [exact Hs|].
      apply sublist_app; [done|]. by apply sublist_cons.
    + simplify_eq.
      assert (Hbl : b ∈ l1 ++ l2).
      { rewrite <- Hl, sorted_desc_perm.
        eapply elem_of_submseteq; [|apply sublist_submseteq; exact Hb]. by left. }
      apply elem_of_app in Hbl as [Hb1|Hb2].
      * right. rewrite Forall_forall in Hall. by apply Hall.
      * left. apply sublist_inserts_l. apply sublist_skip.
        by apply singleton_sublist.
Qed.

Lemma lookup_pair_sublist {T} (l : list T) i j x y :
  i < j → l !! i = Some x → l !! j = Some y → [x; y] `sublist_of` l.
Proof.
  intros Hij Hi Hj. rewrite <- (take_drop_middle l i x Hi).
  apply sublist_inserts_l. apply sublist_skip. apply singleton_sublist.
  apply list_elem_of_lookup. exists (j - S i).
  rewrite lookup_drop. rewrite <- Hj. f_equal. lia.
Qed.

Lemma sublist_pair_before {T} (l : list T) x y :
  [x; y] `sublist_of` l → before x y l.
Proof.
  induction l as [|z l IH]; intros Hs.
  - apply sublist_nil_r in Hs. discriminate.
  - apply sublist_cons_r in Hs as [Hs|(l' & Heq & Hy)].
    + destruct (IH Hs) as (i & j & Hij & Hi & Hj).
      exists (S i), (S j). split; [lia|]. by split.
    + simplify_eq.
      assert (Hyl : y ∈ l).
      { eapply elem_of_submseteq; [|apply sublist_submseteq; exact Hy]. by left. }
      apply list_elem_of_lookup in Hyl as [j Hj].
      exists 0, (S j). split; [lia|]. by split.
Qed.

Lemma before_sublist_pair {T} (l : list T) x y :
  before x y l → [x; y] `sublist_of` l.
Proof. intros (i & j & Hij & Hi & Hj). by eapply lookup_pair_sublist. Qed.

Lemma before_antisym {T} (l : list T) x y :
  NoDup l → before x y l → before y x l → False.
Proof.
  intros Hnd (i & j & Hij & Hi & Hj) (i' & j' & Hij' & Hi' & Hj').
  assert (i = j') by (by eapply NoDup_lookup).
  assert (j = i') by (by eapply NoDup_lookup).
  lia.
Qed.

Lemma before_total {T} (l : list T) x y :
  x ∈ l → y ∈ l → x ≠ y → before x y l ∨ before y x l.
Proof.
  intros [i Hi]%list_elem_of_lookup [j Hj]%list_elem_of_lookup Hne.
  destruct (Nat.lt_trichotomy i j) as [?|[->|?]].
  - left. by exists i, j.
  - congruence.
  - right. by exists j, i.
Qed.

(** [<] on floats is irreflexive. *)
Lemma float_ltb_irrefl (x : float) : PrimFloat.ltb x x = false.
Proof.
  rewrite ltb_spec. unfold SFltb.
  destruct (Prim2SF x) as [[]|[]| |[] m e]; simpl; try done.
  - rewrite Z.compare_refl. by rewrite Pos.compare_cont_refl.
  - rewrite Z.compare_refl. by rewrite Pos.compare_cont_refl.
Qed.

(** ** The two passes *)

Lemma one_over_int_ok (n : Z) :
  (0 < n < 2 ^ 63)%Z → ∃ c, PyNum.one_over_int n = Ok c.
Proof.
  intros Hn. unfold PyNum.one_over_int, PyNum.float_of_int.
  destruct (Z.eqb_spec n 0); [lia|].
  destruct (Z.ltb_spec (Z.abs n) (2 ^ 63)); [|lia].
  eauto.
Qed.

Lemma rrf_pass_ok k l : ∀ rank scores entries,
  (0 < k)%Z → (k + Z.of_nat rank + Z.of_nat (List.length l) < 2 ^ 63)%Z →
  ∃ s' e', rrf_pass k rank l scores entries = Ok (s', e').
Proof.
  induction l as [|[e r] l IH]; intros rank scores entries Hk Hlen; simpl.
  - eauto.
  - destruct (one_over_int_ok (Z.of_nat rank + k)) as [c ->]; [lia|].
    apply IH; [done|]. simpl in Hlen. lia.
Qed.

Lemma rrf_pass_keys k l : ∀ rank scores entries s' e',
  rrf_pass k rank l scores entries = Ok (s', e') →
  map fst s' = fold_left see (ids_of l) (map fst scores)
  ∧ map fst e' = fold_left see (ids_of l) (map fst entries).
Proof.
  induction l as [|[e r] l IH]; intros rank scores entries s' e' H; simpl in *.
  - by simplify_eq.
  - destruct (PyNum.one_over_int (Z.of_nat rank + k)) as [c|]; [|done].
    apply IH in H. by rewrite !dict_keys_set in H.
Qed.

Lemma rrf_pass_entries k l : ∀ rank scores entries s' e',
  rrf_pass k rank l scores entries = Ok (s', e') →
  (∀ i x, dict_get i entries = Some x → id x = i) →
  ∀ i x, dict_get i e' = Some x → id x = i.
Proof.
  induction l as [|[e r] l IH]; intros rank scores entries s' e' H Hid; simpl in *.
  - by simplify_eq.
  - destruct (PyNum.one_over_int (Z.of_nat rank + k)) as [c|]; [|done].
    eapply IH; [exact H|]. intros i x Hx.
    destruct (decide (id e = i)) as [<-|Hne].
    + rewrite dict_get_set_eq in Hx. by simplify_eq.
    + rewrite dict_get_set_ne in Hx by done. by apply Hid.
Qed.

Lemma rank_from_None (i : string) (l : list string) rank :
  i ∉ l → rank_from rank i l = None.
Proof.
  revert rank. induction l as [|x l IH]; intros rank Hi; simpl; [done|].
  apply not_elem_of_cons in Hi as [Hne Hi].
  rewrite decide_False by done. by apply IH.
Qed.

(** After a pass over a list with distinct ids, the score of an id is
    what it was plus the contribution of the list. *)
Lemma rrf_pass_score k l : ∀ rank scores entries s' e' i s,
  NoDup (ids_of l) →
  rrf_pass k rank l scores entries = Ok (s', e') →
  dict_get i s' = Some s →
  add_contribution_from k rank l i (default 0%float (dict_get i scores)) = Ok s.
Proof.
  unfold add_contribution_from.
  induction l as [|[e r] l IH]; intros rank scores entries s' e' i s Hnd H Hs;
    simpl in *.
  - simplify_eq. by rewrite Hs.
  - apply NoDup_cons in Hnd as [He Hnd].
    destruct (PyNum.one_over_int (Z.of_nat rank + k)) as [c|] eqn:Hc; [|done].
    specialize (IH _ _ _ _ _ i s Hnd H Hs).
    destruct (decide (id e = i)) as [<-|Hne].
    + rewrite Hc. rewrite rank_from_None in IH by done.
      rewrite dict_get_set_eq in IH. done.
    + by rewrite dict_get_set_ne in IH by done.
Qed.

(** ** The final loop *)

Lemma collect_Forall2 l1 l2 entries sorted : ∀ out,
  collect l1 l2 entries sorted = Ok out →
  Forall2 (λ p o, dict_get (fst p) entries = Some (fst (fst o))
                  ∧ snd (fst o) = snd p
                  ∧ snd o = source_of l1 l2 (fst p)) sorted out.
Proof.
  induction sorted as [|[i sc] sorted IH]; intros out H; simpl in *.
  - simplify_eq. constructor.
  - destruct (dict_get i entries) as [e|] eqn:He; [|done].
    destruct (collect l1 l2 entries sorted) as [out'|]; [|done].
    simplify_eq. constructor; [done|]. by apply IH.
Qed.

Lemma collect_ok l1 l2 entries sorted :
  (∀ p, p ∈ sorted → is_Some (dict_get (fst p) entries)) →
  ∃ out, collect l1 l2 entries sorted = Ok out.
Proof.
  induction sorted as [|[i sc] sorted IH]; intros Hall; simpl.
  - eauto.
  - destruct (Hall (i, sc)) as [e He]; [by left|]. simpl in He. rewrite He.
    destruct IH as [out ->]; [|eauto].
    intros p Hp. apply Hall. by right.
Qed.

Lemma fusion_structure k l1 l2 out :
  _reciprocal_rank_fusion k l1 l2 = Ok out →
  ∃ scores1 entries1 scores entries,
    rrf_pass k 0 l1 [] [] = Ok (scores1, entries1)
    ∧ rrf_pass k 0 l2 scores1 entries1 = Ok (scores, entries)
    ∧ collect l1 l2 entries (sorted_desc snd scores) = Ok out.
Proof.
  unfold _reciprocal_rank_fusion. intros H.
  destruct (rrf_pass k 0 l1 [] []) as [[scores1 entries1]|]; [|done].
  destruct (rrf_pass k 0 l2 scores1 entries1) as [[scores entries]|] eqn:H2;
    [|done].
  by exists scores1, entries1, scores, entries.
Qed.

Lemma fusion_keys k l1 l2 scores1 entries1 scores entries :
  rrf_pass k 0 l1 [] [] = Ok (scores1, entries1) →
  rrf_pass k 0 l2 scores1 entries1 = Ok (scores, entries) →
  map fst scores = first_seen (ids_of l1 ++ ids_of l2)
  ∧ map fst entries = map fst scores.
Proof.
  intros H1 H2.
  apply rrf_pass_keys in H1 as [Hs1 He1]. apply rrf_pass_keys in H2 as [Hs2 He2].
  unfold first_seen. rewrite fold_left_app.
  rewrite Hs2, He2, Hs1, He1. done.
Qed.

(** Fusion returns whenever no rank plus [k] is zero or too large. *)
Lemma fusion_returns k l1 l2 :
  ranks_ok k l1 l2 → ∃ out, _reciprocal_rank_fusion k l1 l2 = Ok out.
Proof.
  intros (Hk & Hl1 & Hl2). unfold _reciprocal_rank_fusion.
  destruct (rrf_pass_ok k l1 0 [] []) as (scores1 & entries1 & H1); [done|lia|].
  destruct (rrf_pass_ok k l2 0 scores1 entries1) as (scores & entries & H2);
    [done|lia|].
  rewrite H1, H2.
  destruct (fusion_keys _ _ _ _ _ _ _ H1 H2) as [_ Hkeys].
  apply collect_ok. intros p Hp.
  destruct (dict_get (fst p) entries) eqn:Hget; [eauto|].
  apply dict_get_None in Hget. exfalso. apply Hget. rewrite Hkeys.
  apply elem_of_map_fst. by rewrite <- (sorted_desc_perm snd scores).
Qed.

Lemma fusion_scores k l1 l2 scores1 entries1 scores entries i s :
  NoDup (ids_of l1) → NoDup (ids_of l2) →
  rrf_pass k 0 l1 [] [] = Ok (scores1, entries1) →
  rrf_pass k 0 l2 scores1 entries1 = Ok (scores, entries) →
  dict_get i scores = Some s → spec_score k l1 l2 i = Ok s.
Proof.
  intros Hnd1 Hnd2 H1 H2 Hs. unfold spec_score, add_contribution.
  pose proof (rrf_pass_score _ _ _ _ _ _ _ i s Hnd2 H2 Hs) as Hc2.
  destruct (dict_get i scores1) as [s1|] eqn:Hs1.
  - pose proof (rrf_pass_score _ _ _ _ _ _ _ i s1 Hnd1 H1 Hs1) as Hc1.
    simpl in Hc1. rewrite Hc1. exact Hc2.
  - assert (Hi : i ∉ ids_of l1).
    { apply rrf_pass_keys in H1 as [Hk _]. simpl in Hk.
      intros Hin. apply dict_get_None in Hs1. apply Hs1. rewrite Hk.
      apply fold_see_elem. by right. }
    unfold add_contribution_from at 1. rewrite rank_from_None by done.
    exact Hc2.
Qed.

Lemma fusion_entries_keyed k l1 l2 scores1 entries1 scores entries :
  rrf_pass k 0 l1 [] [] = Ok (scores1, entries1) →
  rrf_pass k 0 l2 scores1 entries1 = Ok (scores, entries) →
  ∀ i x, dict_get i entries = Some x → id x = i.
Proof.
  intros H1 H2. eapply rrf_pass_entries; [exact H2|].
  eapply rrf_pass_entries; [exact H1|]. intros i x Hx. done.
Qed.

(** C2. When no rank plus [k] is zero or beyond the floats and each
    list has distinct ids, fusion returns; its results are the entries
    of the two lists, and the score of each is the sum, over the lists
    that contain it, of [1/(rank + k)] with ranks from 0. With lexical
    ranks A, B, C, semantic ranks B, C, A and [k = 60] the output is
    B, A, C with scores [1/61 + 1/60], [1/60 + 1/62], [1/62 + 1/61]. *)
Theorem rrf_score_is_sum_of_reciprocal_ranks :
  (∀ k l1 l2,
     ranks_ok k l1 l2 → NoDup (ids_of l1) → NoDup (ids_of l2) →
     ∃ out, _reciprocal_rank_fusion k l1 l2 = Ok out
       ∧ (∀ i, i ∈ ids_of l1 ++ ids_of l2
               ↔ ∃ r, r ∈ out ∧ id (fst (fst r)) = i)
       ∧ (∀ r, r ∈ out →
               spec_score k l1 l2 (id (fst (fst r))) = Ok (snd (fst r))))
  ∧ _reciprocal_rank_fusion 60 lexical_ABC semantic_BCA
    = Ok [(B, (1 / 61 + 1 / 60)%float, hybrid);
          (A, (1 / 60 + 1 / 62)%float, hybrid);
          (C, (1 / 62 + 1 / 61)%float, hybrid)].
Proof.
  split; [|vm_compute; reflexivity].
  intros k l1 l2 Hr Hnd1 Hnd2.
  destruct (fusion_returns k l1 l2 Hr) as [out Hout]. exists out.
  split; [done|].
  destruct (fusion_structure _ _ _ _ Hout)
    as (scores1 & entries1 & scores & entries & H1 & H2 & Hc).
  destruct (fusion_keys _ _ _ _ _ _ _ H1 H2) as [Hkeys Hek].
  pose proof (fusion_entries_keyed _ _ _ _ _ _ _ H1 H2) as Hid.
  pose proof (collect_Forall2 _ _ _ _ _ Hc) as HF.
  assert (Hnd : NoDup (map fst scores)).
  { rewrite Hkeys. apply fold_see_NoDup, NoDup_nil_2. }
  split.
  - intros i. split.
    + intros Hi.
      assert (Hik : i ∈ map fst scores).
      { rewrite Hkeys. apply fold_see_elem. by right. }
      apply elem_of_map_fst_inv in Hik as (p & Hp & <-).
      rewrite <- (sorted_desc_perm snd) in Hp.
      apply list_elem_of_lookup in Hp as [n Hn].
      destruct (Forall2_lookup_l _ _ _ _ _ HF Hn) as (r & Hr' & He & _).
      exists r. split; [by eapply list_elem_of_lookup_2|]. by apply Hid.
    + intros (r & Hr' & <-).
      apply list_elem_of_lookup in Hr' as [n Hn].
      destruct (Forall2_lookup_r _ _ _ _ _ HF Hn) as (p & Hp & He & _).
      apply Hid in He. rewrite He.
      apply list_elem_of_lookup_2 in Hp. rewrite sorted_desc_perm in Hp.
      apply elem_of_map_fst in Hp. rewrite Hkeys in Hp.
      apply fold_see_elem in Hp as [Hp|Hp]; [by apply elem_of_nil in Hp|done].
  - intros r Hr'.
    apply list_elem_of_lookup in Hr' as [n Hn].
    destruct (Forall2_lookup_r _ _ _ _ _ HF Hn) as ([i sc] & Hp & He & Hsc & _).
    simpl in *. apply Hid in He. rewrite He, Hsc.
    apply list_elem_of_lookup_2 in Hp. rewrite sorted_desc_perm in Hp.
    eapply fusion_scores; try done. by apply dict_get_elem.
Qed.

Lemma rrf_score_is_sum_of_reciprocal_ranks_witness :
  ∃ out, _reciprocal_rank_fusion 60 lexical_ABC semantic_BCA = Ok out
    ∧ (∀ r, r ∈ out →
            spec_score 60 lexical_ABC semantic_BCA (id (fst (fst r)))
            = Ok (snd (fst r))).
Proof.
  destruct rrf_score_is_sum_of_reciprocal_ranks as [H _].
  destruct (H 60%Z lexical_ABC semantic_BCA) as (out & Hout & _ & Hscore).
  - unfold ranks_ok. simpl. lia.
  - apply (bool_decide_unpack _). vm_compute. exact I.
  - apply (bool_decide_unpack _). vm_compute. exact I.
  - exists out. split; [exact Hout|exact Hscore].
Defined.

(** C7, as the claim has it: refuted. A, only in the lexical list, and
    B, only in the semantic list, get the same score; B has the later
    timestamp and still comes second. *)
Lemma fusion_ties_ignore_timestamps :
  ∃ out, _reciprocal_rank_fusion 60 [(A, 1%float)] [(B, 1%float)] = Ok out
         ∧ ¬ ties_by_recency out.
Proof.
  exists [(A, (0 + 1 / 60)%float, fts); (B, (0 + 1 / 60)%float, semantic)].
  split; [vm_compute; reflexivity|].
  intros H.
  specialize (H (A, (0 + 1 / 60)%float, fts) (B, (0 + 1 / 60)%float, semantic)).
  simpl in H. assert (Hle : (200 ≤ 100)%Z); [|lia].
  apply H; [|reflexivity].
  exists 0, 1. split; [lia|]. split; reflexivity.
Qed.

(** C7, amended. Fusion is a function of its two lists, and results
    with equal scores keep the order in which the two loops first met
    their ids: the lexical list in its order, then the ids only the
    semantic list has, in its order. *)
Theorem fusion_ties_keep_first_seen_order k l1 l2 :
  ranks_ok k l1 l2 →
  ∃ out, _reciprocal_rank_fusion k l1 l2 = Ok out
    ∧ ∀ x y, before x y out → snd (fst x) = snd (fst y) →
             before (id (fst (fst x))) (id (fst (fst y)))
                    (first_seen (ids_of l1 ++ ids_of l2)).
Proof.
  intros Hr.
  destruct (fusion_returns k l1 l2 Hr) as [out Hout]. exists out.
  split; [done|].
  destruct (fusion_structure _ _ _ _ Hout)
    as (scores1 & entries1 & scores & entries & H1 & H2 & Hc).
  destruct (fusion_keys _ _ _ _ _ _ _ H1 H2) as [Hkeys Hek].
  pose proof (fusion_entries_keyed _ _ _ _ _ _ _ H1 H2) as Hid.
  pose proof (collect_Forall2 _ _ _ _ _ Hc) as HF.
  assert (Hndk : NoDup (map fst scores)).
  { rewrite Hkeys. apply fold_see_NoDup, NoDup_nil_2. }
  assert (Hnd : NoDup scores) by (by eapply NoDup_fmap_1).
  assert (Hnds : NoDup (sorted_desc snd scores)) by (by rewrite sorted_desc_perm).
  intros x y (i & j & Hij & Hi & Hj) Htie.
  destruct (Forall2_lookup_r _ _ _ _ _ HF Hi) as (p & Hp & Hpe & Hps & _).
  destruct (Forall2_lookup_r _ _ _ _ _ HF Hj) as (q & Hq & Hqe & Hqs & _).
  apply Hid in Hpe, Hqe. rewrite Hpe, Hqe, <- Hkeys.
  apply sublist_pair_before.
  apply (fmap_sublist fst [p; q]).
  assert (Hpq : p ≠ q).
  { intros ->. assert (i = j) by (by eapply NoDup_lookup). lia. }
  assert (Hpin : p ∈ scores).
  { rewrite <- (sorted_desc_perm snd). by eapply list_elem_of_lookup_2. }
  assert (Hqin : q ∈ scores).
  { rewrite <- (sorted_desc_perm snd). by eapply list_elem_of_lookup_2. }
  destruct (before_total scores p q Hpin Hqin Hpq) as [Hb|Hb];
    [by apply before_sublist_pair|].
  exfalso.
  destruct (sorted_desc_stable snd scores q p (before_sublist_pair _ _ _ Hb))
    as [Hs|Hlt].
  - apply sublist_pair_before in Hs.
    eapply (before_antisym (sorted_desc snd scores) p q); [done| |done].
    by exists i, j.
  - rewrite <- Hps, <- Hqs, Htie, float_ltb_irrefl in Hlt. done.
Qed.

Lemma fusion_ties_keep_first_seen_order_witness :
  ∃ out, _reciprocal_rank_fusion 60 [(A, 1%float)] [(B, 1%float)] = Ok out
    ∧ ∀ x y, before x y out → snd (fst x) = snd (fst y) →
             before (id (fst (fst x))) (id (fst (fst y)))
                    (first_seen (ids_of [(A, 1%float)] ++ ids_of [(B, 1%float)])).
Proof.
  apply (fusion_ties_keep_first_seen_order 60 [(A, 1%float)] [(B, 1%float)]).
  unfold ranks_ok. simpl. lia.
Defined.

End RRFFacts.

(** * Facts about the chunker *)

Module ChunkerFacts.

Import Chunker ChunkerSpec.

(** ** Strings *)

Local Arguments String.append !_ _ / : simpl nomatch.

Lemma append_nil_r (s : string) : s +:+ "" = s.
Proof. induction s as [|c s IH]; simpl; [done|by rewrite IH]. Qed.

Lemma append_assoc (a b c : string) : (a +:+ b) +:+ c = a +:+ (b +:+ c).
Proof. induction a as [|x a IH]; simpl; [done|by rewrite IH]. Qed.

Lemma length_append (a b : string) :
  String.length (a +:+ b) = String.length a + String.length b.
Proof. induction a as [|x a IH]; simpl; [done|by rewrite IH]. Qed.

Lemma take_drop (n : nat) (s : string) : PyStr.take n s +:+ PyStr.drop n s = s.
Proof.
  revert s. induction n as [|n IH]; intros [|c s]; simpl; try done.
  by rewrite IH.
Qed.

Lemma drop_nil (n : nat) : PyStr.drop n "" = "".
Proof. by destruct n. Qed.

Lemma drop_drop (a b : nat) (s : string) :
  PyStr.drop a (PyStr.drop b s) = PyStr.drop (b + a) s.
Proof.
  revert s. induction b as [|b IH]; intros s; simpl; [done|].
  destruct s as [|c s]; [by rewrite drop_nil|apply IH].
Qed.

Lemma length_drop (n : nat) (s : string) :
  String.length (PyStr.drop n s) = String.length s - n.
Proof.
  revert s. induction n as [|n IH]; intros [|c s]; simpl; try done.
Qed.

Lemma length_take (n : nat) (s : string) :
  String.length (PyStr.take n s) = Nat.min n (String.length s).
Proof.
  revert s. induction n as [|n IH]; intros [|c s]; simpl; try done.
  by rewrite IH.
Qed.

Lemma drop_take (k n : nat) (s : string) :
  PyStr.drop k (PyStr.take n s) = PyStr.take (n - k) (PyStr.drop k s).
Proof.
  revert n s. induction k as [|k IH]; intros n s; simpl.
  - by rewrite Nat.sub_0_r.
  - destruct n as [|n]; destruct s as [|c s]; simpl; try done.
    by destruct (n - k).
Qed.

Lemma drop_append_length (a b : string) :
  PyStr.drop (String.length a) (a +:+ b) = b.
Proof. induction a as [|c a IH]; simpl; [done|apply IH]. Qed.

(** Adjacent slices join. *)
Lemma slice_drop (a b : nat) (s : string) :
  (a ≤ b)%nat → PyStr.slice a b s +:+ PyStr.drop b s = PyStr.drop a s.
Proof.
  intros Hab. unfold PyStr.slice.
  replace (PyStr.drop b s) with (PyStr.drop (b - a) (PyStr.drop a s)).
  - apply take_drop.
  - rewrite drop_drop. f_equal. lia.
Qed.

Lemma remove_spaces_append (a b : string) :
  remove_spaces (a +:+ b) = remove_spaces a +:+ remove_spaces b.
Proof.
  induction a as [|c a IH]; simpl; [done|].
  destruct (PyStr.is_space c); simpl; by rewrite IH.
Qed.

Lemma remove_spaces_lstrip (s : string) :
  remove_spaces (PyStr.lstrip s) = remove_spaces s.
Proof.
  induction s as [|c s IH]; simpl; [done|].
  destruct (PyStr.is_space c) eqn:Hc; [done|]. simpl. by rewrite Hc.
Qed.

Lemma remove_spaces_rstrip (s : string) :
  remove_spaces (PyStr.rstrip s) = remove_spaces s.
Proof.
  induction s as [|c s IH]; simpl; [done|].
  destruct (PyStr.rstrip s) as [|c' r] eqn:Hr.
  - simpl in IH. rewrite <- IH.
    destruct (PyStr.is_space c) eqn:Hc; simpl; by rewrite ?Hc.
  - simpl (remove_spaces (String c (String c' r))).
    simpl in IH. rewrite IH. done.
Qed.

Lemma remove_spaces_strip (s : string) :
  remove_spaces (PyStr.strip s) = remove_spaces s.
Proof.
  unfold PyStr.strip. by rewrite remove_spaces_rstrip, remove_spaces_lstrip.
Qed.

Lemma drop_all (n : nat) (s : string) :
  (String.length s ≤ n)%nat → PyStr.drop n s = "".
Proof.
  revert s. induction n as [|n IH]; intros [|c s] Hn; simpl in *; try done.
  - lia.
  - apply IH. lia.
Qed.

Lemma slice_index_nonneg (len : nat) (i : Z) :
  (0 ≤ i)%Z → PyNum.slice_index len i = Z.to_nat (Z.min (Z.of_nat len) i).
Proof.
  intros Hi. unfold PyNum.slice_index. by destruct (Z.ltb_spec i 0); [lia|].
Qed.

(** ** The sliding window *)

(** From index [i] on, the chunks without their first [chunk_overlap]
    characters make up the text from [i + chunk_overlap] on. *)
Lemma window_loop_spec (cs ov : Z) (text : string) :
  (0 ≤ ov < cs)%Z →
  ∀ fuel i,
    (0 ≤ i)%Z → (Z.of_nat (String.length text) - i ≤ Z.of_nat fuel)%Z →
    ∃ chunks, window_loop cs ov fuel text i = Some chunks
      ∧ fold_right String.append "" (map (PyNum.str_from ov) chunks)
        = PyStr.drop (Z.to_nat (Z.min (i + ov) (Z.of_nat (String.length text))))
                     text.
Proof.
  intros Hov. induction fuel as [|fuel IH]; intros i Hi Hfuel.
  - simpl. destruct (Z.ltb_spec i (Z.of_nat (String.length text))); [lia|].
    exists []. split; [done|]. simpl. symmetry. apply drop_all. lia.
  - simpl. destruct (Z.ltb_spec i (Z.of_nat (String.length text))) as [Hlt|Hge].
    + destruct (IH (i + (cs - ov))%Z) as (chunks & -> & Hc); [lia|lia|].
      eexists. split; [done|]. simpl. rewrite Hc.
      unfold PyNum.str_from, PyNum.str_slice.
      rewrite !slice_index_nonneg by lia.
      set (n := String.length text) in *.
      set (a := Z.to_nat (Z.min (Z.of_nat n) i)).
      set (e := Z.to_nat (Z.min (Z.of_nat n) (Z.min (i + cs) (Z.of_nat n)))).
      unfold PyStr.slice. rewrite length_take, length_drop.
      fold n.
      set (m := Z.to_nat (Z.min (Z.of_nat (Nat.min (e - a) (n - a))) ov)).
      rewrite drop_take, drop_drop.
      replace (Z.to_nat (Z.min (i + (cs - ov) + ov) (Z.of_nat n))) with e by lia.
      replace (Z.to_nat (Z.min (i + ov) (Z.of_nat n))) with (a + m)%nat by lia.
      replace (e - a - m)%nat with (e - (a + m))%nat by lia.
      apply (slice_drop (a + m) e text). lia.
    + exists []. split; [done|]. simpl. symmetry. apply drop_all. lia.
Qed.

(** ** Paragraphs *)

Lemma split_paragraphs_nonempty (s : string) : split_paragraphs s ≠ [].
Proof.
  destruct s as [|c s]; simpl; [done|].
  destruct (split_paragraphs s) eqn:Hs;
    destruct (Ascii.eqb c nl); try done;
    destruct s as [|c2 s2]; try done;
    destruct (Ascii.eqb c2 nl); done.
Qed.

Lemma concat_cons (sep x : string) (l : list string) :
  l ≠ [] → String.concat sep (x :: l) = x +:+ sep +:+ String.concat sep l.
Proof. by destruct l. Qed.

Lemma concat_same_piece (c : ascii) (s : string) :
  String.concat blank_line (split_paragraphs s) = s →
  String.concat blank_line
    match split_paragraphs s with
    | p :: ps => String c p :: ps
    | [] => [String c ""]
    end = String c s.
Proof.
  intros Hs. destruct (split_paragraphs s) as [|p ps] eqn:Hsplit.
  - by apply split_paragraphs_nonempty in Hsplit.
  - destruct ps as [|q ps]; simpl in *; by rewrite Hs.
Qed.

(** Joining the paragraphs with blank lines gives the content back. *)
Lemma join_split_paragraphs (s : string) :
  String.concat blank_line (split_paragraphs s) = s.
Proof.
  remember (String.length s) as n eqn:Hn.
  revert s Hn. induction n as [n IH] using lt_wf_ind. intros s Hn.
  destruct s as [|c s]; [done|].
  assert (Hs : String.concat blank_line (split_paragraphs s) = s).
  { apply (IH (String.length s)); [simpl in Hn; lia|done]. }
  cbn [split_paragraphs].
  destruct (Ascii.eqb c nl) eqn:Hc; [|by apply concat_same_piece].
  destruct s as [|c2 s2]; [by apply concat_same_piece|].
  destruct (Ascii.eqb c2 nl) eqn:Hc2; [|by apply concat_same_piece].
  apply Ascii.eqb_eq in Hc, Hc2. subst.
  rewrite concat_cons by apply split_paragraphs_nonempty.
  rewrite (IH (String.length s2)); [done|simpl; lia|done].
Qed.

Lemma split_paragraphs_single (s t : string) :
  split_paragraphs s = [t] → t = s.
Proof.
  intros Hs. pose proof (join_split_paragraphs s) as Hj. by rewrite Hs in Hj.
Qed.

Lemma remove_spaces_blank_line : remove_spaces blank_line = "".
Proof. reflexivity. Qed.

Lemma join_app (l1 l2 : list string) :
  fold_right String.append "" (l1 ++ l2)
  = fold_right String.append "" l1 +:+ fold_right String.append "" l2.
Proof.
  induction l1 as [|x l1 IH]; simpl; [done|]. by rewrite IH, append_assoc.
Qed.

Lemma remove_spaces_join (l : list string) :
  remove_spaces (String.concat blank_line l)
  = fold_right String.append "" (map remove_spaces l).
Proof.
  induction l as [|x l IH]; [done|].
  destruct l as [|y l].
  - simpl. by rewrite append_nil_r.
  - rewrite concat_cons by done.
    rewrite !remove_spaces_append, remove_spaces_blank_line, IH. done.
Qed.

(** Packing paragraphs into chunks loses whitespace only. *)
Lemma pack_paragraphs_spaces (cs : Z) (paragraphs : list string) :
  ∀ current,
    fold_right String.append ""
      (map remove_spaces (pack_paragraphs cs paragraphs current))
    = remove_spaces current
      +:+ fold_right String.append "" (map remove_spaces paragraphs).
Proof.
  induction paragraphs as [|para rest IH]; intros current; simpl.
  - destruct current as [|c current]; [done|].
    simpl (map _ _). simpl (fold_right _ _ _).
    by rewrite remove_spaces_strip.
  - destruct (_ <? cs)%Z.
    + rewrite IH, !remove_spaces_append, remove_spaces_blank_line.
      by rewrite append_nil_r, append_assoc.
    + rewrite map_app, join_app, IH, !remove_spaces_append,
        remove_spaces_blank_line, append_nil_r.
      destruct current as [|c current]; [done|].
      simpl (map _ [_]). simpl (fold_right _ _ [_]).
      by rewrite remove_spaces_strip, append_nil_r.
Qed.

(** A chunk whose predecessor is longer than the overlap gets exactly
    [chunk_overlap] characters and one space in front. *)
Lemma overlap_prefix_dropped (ov : Z) (prev chunk : string) :
  (0 < ov)%Z → (ov < Z.of_nat (String.length prev))%Z →
  PyNum.str_from ov (overlap_of ov prev +:+ " " +:+ chunk) = " " +:+ chunk.
Proof.
  intros Hov Hlen. unfold overlap_of.
  destruct (Z.ltb_spec ov (Z.of_nat (String.length prev))); [|lia].
  set (o := PyNum.str_from (- ov) prev).
  assert (Ho : String.length o = Z.to_nat ov).
  { unfold o, PyNum.str_from, PyNum.slice_index. rewrite length_drop.
    destruct (Z.ltb_spec (- ov) 0); lia. }
  unfold PyNum.str_from at 1. rewrite slice_index_nonneg by lia.
  rewrite length_append.
  replace (Z.to_nat _) with (String.length o) by lia.
  apply drop_append_length.
Qed.

Lemma add_overlap_dropped (ov : Z) (rest : list string) :
  (0 < ov)%Z →
  ∀ prev, prevs_longer ov (prev :: rest) →
    map (PyNum.str_from ov) (add_overlap ov prev rest)
    = map (String.append " ") rest.
Proof.
  intros Hov. induction rest as [|chunk rest IH]; intros prev Hp; [done|].
  unfold prevs_longer in *. simpl in Hp. apply Forall_cons in Hp as [Hprev Hp].
  cbn [add_overlap map]. rewrite overlap_prefix_dropped by done.
  f_equal. by apply IH.
Qed.

Lemma join_spaced (l : list string) :
  remove_spaces (fold_right String.append "" (map (String.append " ") l))
  = fold_right String.append "" (map remove_spaces l).
Proof.
  induction l as [|x l IH]; simpl; [done|].
  rewrite remove_spaces_append, IH. done.
Qed.

(** C3, as the claim has it: refuted. A two-character paragraph
    followed by one of 600 characters: the second chunk gets a
    three-character prefix, and dropping 50 characters from it loses 47
    characters of the content. And two paragraphs of 2499 characters,
    5000 characters in all, come back with one space for the blank
    line, not as the original. *)
Lemma paragraph_round_trip_fails :
  (500 < Z.of_nat (String.length short_then_long))%Z
  ∧ ¬ round_trip 500 50 short_then_long
  ∧ String.length two_paragraphs_5000 = 5000
  ∧ ¬ exact_round_trip 500 50 two_paragraphs_5000.
Proof.
  split; [by vm_compute|]. split; [|split; [by vm_compute|]].
  - intros (chunks & Hc & Hw). vm_compute in Hc. injection Hc as <-.
    unfold same_up_to_whitespace in Hw.
    apply (f_equal String.length) in Hw. vm_compute in Hw. discriminate.
  - intros (chunks & Hc & Hw). vm_compute in Hc. injection Hc as <-.
    apply (f_equal String.length) in Hw. vm_compute in Hw. discriminate.
Qed.

(** C3, amended. For content longer than [chunk_size]: without a blank
    line (the sliding window) and with [0 <= chunk_overlap <
    chunk_size], chunking returns and the reconstruction is the content
    itself, in particular for 5000 characters with sizes 500 and 50;
    with blank lines (the paragraph path), [0 < chunk_overlap], and
    every chunk but the last longer than [chunk_overlap] before the
    prefixes are added, the reconstruction is the content up to
    whitespace. *)
Theorem chunk_round_trip :
  (∀ cs ov content,
     (0 ≤ ov < cs)%Z → (cs < Z.of_nat (String.length content))%Z →
     List.length (split_paragraphs content) = 1 →
     exact_round_trip cs ov content)
  ∧ (∀ content,
       String.length content = 5000 →
       List.length (split_paragraphs content) = 1 →
       exact_round_trip 500 50 content)
  ∧ (∀ cs ov content,
       (0 < ov)%Z → (cs < Z.of_nat (String.length content))%Z →
       List.length (split_paragraphs content) ≠ 1 →
       prevs_longer ov (pack_paragraphs cs (split_paragraphs content) "") →
       round_trip cs ov content).
Proof.
  assert (Hwindow : ∀ cs ov content,
     (0 ≤ ov < cs)%Z → (cs < Z.of_nat (String.length content))%Z →
     List.length (split_paragraphs content) = 1 →
     exact_round_trip cs ov content).
  { intros cs ov content Hov Hlen Hone. unfold exact_round_trip, _chunk_content.
    destruct (Z.leb_spec (Z.of_nat (String.length content)) cs); [lia|].
    destruct (split_paragraphs content) as [|text [|? ?]] eqn:Hsplit; try done.
    apply split_paragraphs_single in Hsplit. subst text.
    destruct (Z.ltb_spec cs (Z.of_nat (String.length content))); [|lia].
    cbn [window_loop].
    destruct (Z.ltb_spec 0 (Z.of_nat (String.length content))); [|lia].
    destruct (window_loop_spec cs ov content Hov (String.length content)
                (0 + (cs - ov))%Z) as (chunks & -> & Hc); [lia|lia|].
    eexists. split; [done|].
    unfold reconstruct, drop_overlaps. simpl. rewrite Hc.
    unfold PyNum.str_slice. rewrite !slice_index_nonneg by lia.
    replace (Z.to_nat (Z.min (0 + (cs - ov) + ov) _))
      with (Z.to_nat (Z.min (Z.of_nat (String.length content))
                        (Z.min (0 + cs) (Z.of_nat (String.length content)))))
      by lia.
    replace (Z.to_nat (Z.min (Z.of_nat (String.length content)) 0)) with 0 by lia.
    apply (slice_drop 0 _ content). lia. }
  split; [exact Hwindow|]. split.
  - intros content Hlen Hone. apply Hwindow; [lia|lia|done].
  - intros cs ov content Hov Hlen Hmany Hprevs.
    unfold round_trip, _chunk_content, same_up_to_whitespace.
    destruct (Z.leb_spec (Z.of_nat (String.length content)) cs); [lia|].
    pose proof (pack_paragraphs_spaces cs (split_paragraphs content) "") as Hpack.
    rewrite <- (remove_spaces_join (split_paragraphs content)) in Hpack.
    rewrite join_split_paragraphs in Hpack.
    simpl in Hpack.
    remember (pack_paragraphs cs (split_paragraphs content) "") as chunks
      eqn:Hchunks.
    assert (Hgoal : ∃ out,
      match chunks with
      | first :: (_ :: _) as rest => Some (first :: add_overlap ov first rest)
      | _ => Some chunks
      end = Some out
      ∧ remove_spaces (reconstruct ov out) = remove_spaces content).
    { clear Hchunks. destruct chunks as [|first [|second rest]].
      - exists []. split; [done|]. by rewrite <- Hpack.
      - exists [first]. split; [done|]. rewrite <- Hpack.
        unfold reconstruct, drop_overlaps. cbn [map fold_right].
        by rewrite remove_spaces_append.
      - eexists. split; [done|].
        unfold reconstruct, drop_overlaps.
        rewrite add_overlap_dropped by done.
        cbn [fold_right]. rewrite remove_spaces_append, join_spaced.
        by rewrite <- Hpack. }
    destruct (split_paragraphs content) as [|text [|? ?]] eqn:Hsplit; try done.
Qed.

Lemma chunk_round_trip_witness :
  exact_round_trip 500 50 (repeat_char "a" 5000)
  ∧ round_trip 500 50 (repeat_char "a" 400 +:+ blank_line +:+ repeat_char "b" 400).
Proof.
  destruct chunk_round_trip as (_ & H5000 & Hpara).
  split.
  - apply H5000; by vm_compute.
  - apply Hpara.
    + lia.
    + by vm_compute.
    + by vm_compute.
    + unfold prevs_longer. vm_compute. repeat constructor.
Defined.

End ChunkerFacts.

(** * Facts about the memory graph *)

Module GraphFacts.

Import Graph GraphSpec.

(** ** delete *)

(** C10. [delete] answers [Result.success(True)] whenever the
    [DELETE] on the connection does not raise, whether or not a row
    has the id and whether or not the Qdrant delete raised; it answers
    a failure exactly when the [DELETE] raises (no connection, a closed
    one, or an error of the database). *)
Theorem delete_reports_only_store_errors (env : DeleteEnv) (memory_id : string)
    (g : MemoryGraph) :
  (∀ rows, sqlite_delete env memory_id g = Ok rows →
           snd (delete env memory_id g) = Success true)
  ∧ (∀ e, sqlite_delete env memory_id g = Raise e →
          snd (delete env memory_id g)
          = Failure ("Failed to delete memory: " +:+ exn_msg e))
  ∧ (∀ rows, _conn g = Some (mkConn false rows) → sqlite_error env = None →
             snd (delete env memory_id g) = Success true).
Proof.
  assert (Hconn : ∀ q f, with_conn (A := list Row) (set_qdrant q g) f = with_conn g f)
    by done.
  unfold sqlite_delete, delete.
  split; [|split].
  - intros rows Hrows.
    destruct (_qdrant_available g); [destruct (qdrant_delete env)|];
      rewrite ?Hconn, Hrows; done.
  - intros e He.
    destruct (_qdrant_available g); [destruct (qdrant_delete env)|];
      rewrite ?Hconn, He; done.
  - intros rows Hrows Hok.
    destruct (_qdrant_available g); [destruct (qdrant_delete env)|];
      rewrite ?Hconn; unfold with_conn; rewrite Hrows, Hok; done.
Qed.

Lemma delete_reports_only_store_errors_witness :
  select_by_id "mem_404" (rows_of two_notes) = None
  ∧ qdrant_delete qdrant_down = Raise (Exn OtherError "qdrant unreachable")
  ∧ snd (delete qdrant_down "mem_404" two_notes) = Success true
  ∧ snd (delete qdrant_down "mem_1" (close two_notes))
    = Failure "Failed to delete memory: Cannot operate on a closed database.".
Proof.
  destruct (delete_reports_only_store_errors qdrant_down "mem_404" two_notes)
    as (_ & _ & Hok).
  destruct (delete_reports_only_store_errors qdrant_down "mem_1" (close two_notes))
    as (_ & Hfail & _).
  split; [reflexivity|]. split; [reflexivity|]. split.
  - eapply Hok; reflexivity.
  - apply (Hfail (Exn ProgrammingError "Cannot operate on a closed database.")).
    reflexivity.
Defined.

(** ** recall *)

Lemma list_upto_map {T U} (f : T → U) (k : Z) (l : list T) :
  PyNum.list_upto k (map f l) = map f (PyNum.list_upto k l).
Proof.
  unfold PyNum.list_upto. rewrite length_map. apply firstn_map.
Qed.

Lemma list_upto_nil {T} (k : Z) : PyNum.list_upto k (@nil T) = [].
Proof. unfold PyNum.list_upto. apply firstn_nil. Qed.

Lemma list_upto_all {T} (k : Z) (l : list T) :
  (Z.of_nat (List.length l) ≤ k)%Z → PyNum.list_upto k l = l.
Proof.
  intros Hk. unfold PyNum.list_upto, PyNum.slice_index.
  destruct (Z.ltb_spec k 0); [lia|].
  replace (Z.to_nat _) with (List.length l) by lia. apply firstn_all.
Qed.

Lemma semantic_search_config env query limit memory_type (g : MemoryGraph) :
  rrf_k (fst (_semantic_search env query limit memory_type g)) = rrf_k g.
Proof.
  unfold _semantic_search.
  destruct (_embedding_engine g) as [engine|]; [|done].
  destruct (Embeddings.embed (recall_http env) query engine) as [[engine' r] c].
  destruct r as [vector|]; [|done].
  destruct (qdrant_search env _ vector limit memory_type); [|done].
  by destruct (fetch_hits _ _).
Qed.

(** What [recall] returns when the semantic list is empty. *)
Lemma recalled_lexical_only env query k memory_type (g : MemoryGraph) :
  semantic_results env query memory_type g = [] →
  recalled env query k memory_type g
  = Ok (if _initialized g
        then PyNum.list_upto k (lexical_results env query memory_type g)
        else []).
Proof.
  intros Hsem. unfold recalled, recall.
  destruct (_initialized g); [|done]. cbn [negb].
  unfold recall_body, lexical_results.
  assert (Hs : snd (match _qdrant_available g, _embedding_engine g with
                    | true, Some _ => _semantic_search env query 20 memory_type g
                    | _, _ => (g, [])
                    end) = []).
  { unfold semantic_results in Hsem.
    by destruct (_qdrant_available g), (_embedding_engine g). }
  match type of Hs with
  | snd ?X = _ => destruct X as [g' sem]
  end.
  simpl in Hs. subst sem. simpl. f_equal.
  rewrite list_upto_map, map_map. by rewrite list_upto_map.
Qed.

(** C6, as the claim has it: refuted. With two lexical results, no
    vector index and [k = 1], [recall] returns the first result only. *)
Lemma recall_truncates_lexical_results : ¬ lexical_passes_through.
Proof.
  intros H.
  specialize (H match_all "cognitive" 1%Z None two_notes eq_refl eq_refl).
  vm_compute in H. discriminate.
Qed.

(** C6, amended. When the semantic list is empty, [recall] skips the
    fusion and returns the first [k] lexical results ([combined[:k]]),
    entries, order and scores unchanged and every source [fts]; it
    returns the whole lexical list when that has at most [k] results. *)
Theorem recall_lexical_only env query k memory_type (g : MemoryGraph) :
  _initialized g = true →
  semantic_results env query memory_type g = [] →
  recalled env query k memory_type g
  = Ok (PyNum.list_upto k (lexical_results env query memory_type g))
  ∧ Forall (λ r, source r = fts) (lexical_results env query memory_type g)
  ∧ ((Z.of_nat (List.length (lexical_results env query memory_type g)) ≤ k)%Z →
     recalled env query k memory_type g
     = Ok (lexical_results env query memory_type g)).
Proof.
  intros Hinit Hsem.
  pose proof (recalled_lexical_only env query k memory_type g Hsem) as Hr.
  rewrite Hinit in Hr. split; [done|]. split.
  - unfold lexical_results. apply Forall_forall. intros r Hr'.
    apply list_elem_of_fmap in Hr' as (x & -> & _). done.
  - intros Hk. by rewrite Hr, list_upto_all.
Qed.

Lemma recall_lexical_only_witness :
  recalled match_all "cognitive" 5 None two_notes
  = Ok (lexical_results match_all "cognitive" None two_notes)
  ∧ List.length (lexical_results match_all "cognitive" None two_notes) = 2.
Proof.
  destruct (recall_lexical_only match_all "cognitive" 5%Z None two_notes)
    as (_ & _ & Hall); [reflexivity|reflexivity|].
  split; [|reflexivity].
  apply Hall. vm_compute. discriminate.
Defined.

Lemma fts_search_fails env query memory_type (g : MemoryGraph) :
  lexical_search_fails env query memory_type g →
  _fts_search env query 20 memory_type g = [].
Proof. intros [e He]. unfold _fts_search. by rewrite He. Qed.

Lemma semantic_results_fail env query memory_type (g : MemoryGraph) :
  query_embedding_fails env query g ∨ semantic_search_fails env memory_type →
  semantic_results env query memory_type g = [].
Proof.
  intros H. unfold semantic_results, _semantic_search.
  destruct (_qdrant_available g); [|done].
  destruct (_embedding_engine g) as [engine|] eqn:He; [|done].
  destruct (Embeddings.embed (recall_http env) query engine)
    as [[engine' r] c] eqn:Hemb.
  destruct r as [vector|]; [|done].
  destruct H as [H|H].
  - specialize (H engine He). rewrite Hemb in H. done.
  - destruct (H (_qdrant (set_engine (Some engine') g)) vector) as [e ->]. done.
Qed.

(** What [recall] returns when the lexical search failed: the fusion
    of an empty lexical list with the semantic results, or nothing if
    the fusion raises. *)
Lemma recalled_semantic_only env query k memory_type (g : MemoryGraph) :
  lexical_search_fails env query memory_type g →
  _initialized g = true →
  recalled env query k memory_type g
  = Ok match RRF._reciprocal_rank_fusion (rrf_k g) []
               (semantic_results env query memory_type g) with
       | Ok out => map as_result (PyNum.list_upto k out)
       | Raise _ => []
       end.
Proof.
  intros Hfts Hinit. unfold recalled, recall. rewrite Hinit. cbn [negb].
  unfold recall_body. rewrite (fts_search_fails _ _ _ _ Hfts).
  assert (Hs : ∃ p,
    p = match _qdrant_available g, _embedding_engine g with
        | true, Some _ => _semantic_search env query 20 memory_type g
        | _, _ => (g, [])
        end
    ∧ rrf_k (fst p) = rrf_k g
    ∧ snd p = semantic_results env query memory_type g).
  { eexists. split; [reflexivity|]. unfold semantic_results.
    destruct (_qdrant_available g), (_embedding_engine g);
      try done. split; [apply semantic_search_config|done]. }
  destruct Hs as ([g' sem] & <- & Hk & <-). simpl in Hk. simpl.
  destruct sem as [|r sem]; [cbn; by rewrite !list_upto_nil|]. rewrite Hk.
  by destruct (RRF._reciprocal_rank_fusion (rrf_k g) [] (r :: sem)).
Qed.

(** C8. [recall] always returns a list to its caller, never an
    exception. A failed lexical search counts as an empty lexical list,
    a failed query embedding or vector search as an empty semantic
    list; [recall] then returns what the other list gives, and the
    empty list when both failed. *)
Theorem recall_never_raises env query k memory_type (g : MemoryGraph) :
  (∃ g' results, recall env query k memory_type g = (g', Ok results))
  ∧ (lexical_search_fails env query memory_type g →
     _fts_search env query 20 memory_type g = [])
  ∧ (query_embedding_fails env query g ∨ semantic_search_fails env memory_type →
     semantic_results env query memory_type g = []
     ∧ recalled env query k memory_type g
       = Ok (if _initialized g
             then PyNum.list_upto k (lexical_results env query memory_type g)
             else []))
  ∧ (lexical_search_fails env query memory_type g → _initialized g = true →
     recalled env query k memory_type g
     = Ok match RRF._reciprocal_rank_fusion (rrf_k g) []
                  (semantic_results env query memory_type g) with
          | Ok out => map as_result (PyNum.list_upto k out)
          | Raise _ => []
          end)
  ∧ (lexical_search_fails env query memory_type g →
     query_embedding_fails env query g ∨ semantic_search_fails env memory_type →
     recalled env query k memory_type g = Ok []).
Proof.
  split; [|split; [|split; [|split]]].
  - unfold recall. destruct (_initialized g); simpl; [|eauto].
    destruct (recall_body env query k memory_type g) as [g' [results|e]]; eauto.
  - apply fts_search_fails.
  - intros Hsem. apply semantic_results_fail in Hsem.
    split; [done|]. by apply recalled_lexical_only.
  - apply recalled_semantic_only.
  - intros Hfts Hsem. apply semantic_results_fail in Hsem.
    rewrite (recalled_lexical_only _ _ _ _ _ Hsem).
    unfold lexical_results. rewrite (fts_search_fails _ _ _ _ Hfts).
    simpl. rewrite list_upto_nil. by destruct (_initialized g).
Qed.

Lemma recall_never_raises_witness :
  recalled all_down "cognitive" 5 None two_notes = Ok [].
Proof.
  destruct (recall_never_raises all_down "cognitive" 5%Z None two_notes)
    as (_ & _ & _ & _ & Hboth).
  apply Hboth.
  - eexists. reflexivity.
  - right. intros points vector. eexists. reflexivity.
Defined.

(** ** store *)

Lemma select_by_hash_app h rows rows' r :
  select_by_hash h rows = Some r → select_by_hash h (rows ++ rows') = Some r.
Proof.
  unfold select_by_hash. induction rows as [|x rows IH]; simpl; [done|].
  destruct (bool_decide (row_content_hash x = h)); [done|apply IH].
Qed.

Lemma select_by_hash_snoc h rows r :
  select_by_hash h rows = None → row_content_hash r = h →
  select_by_hash h (rows ++ [r]) = Some r.
Proof.
  unfold select_by_hash. intros Hnone Hr.
  induction rows as [|x rows IH]; simpl in *.
  - by rewrite bool_decide_eq_true_2.
  - destruct (bool_decide (row_content_hash x = h)); [done|by apply IH].
Qed.

Lemma insert_row_Ok r rows rows' :
  insert_row r rows = Ok rows' → rows' = rows ++ [r].
Proof.
  unfold insert_row. repeat case_match; intros; by simplify_eq.
Qed.

Lemma embed_chunk_conn env i chunk chunk_id memory_id memory_type
    (g : MemoryGraph) :
  _conn (embed_chunk env i chunk chunk_id memory_id memory_type g) = _conn g
  ∧ _initialized (embed_chunk env i chunk chunk_id memory_id memory_type g)
    = _initialized g.
Proof.
  unfold embed_chunk.
  destruct (_qdrant_available g); [|done].
  destruct (_embedding_engine g) as [engine|]; [|done].
  destruct (Embeddings.embed (store_http env i) chunk engine) as [[engine' r] c].
  destruct r; [|done]. by destruct (qdrant_upsert env i).
Qed.

(** A successful chunk loop only appends rows. *)
Lemma store_chunks_appends sha env memory_id h memory_type total :
  ∀ chunks i md (g g' : MemoryGraph) md' rows,
    _conn g = Some (mkConn false rows) →
    store_chunks sha env memory_id h memory_type total i chunks md g
    = (g', md', Ok tt) →
    ∃ rows', _conn g' = Some (mkConn false (rows ++ rows'))
             ∧ _initialized g' = _initialized g.
Proof.
  induction chunks as [|chunk rest IH]; intros i md g g' md' rows Hconn Hs.
  - simpl in Hs. simplify_eq. exists []. by rewrite app_nil_r.
  - simpl in Hs. unfold with_conn in Hs. rewrite Hconn in Hs. simpl in Hs.
    destruct (insert_row _ rows) as [rows1|e] eqn:Hins; [|done].
    apply insert_row_Ok in Hins.
    match type of Hs with
    | store_chunks _ _ _ _ _ _ _ _ _ (embed_chunk ?e ?i ?c ?ci ?m ?t ?g0) = _ =>
        destruct (embed_chunk_conn e i c ci m t g0) as [Hc Hi]
    end.
    eapply IH in Hs as (rows' & Hconn' & Hinit'); [|by rewrite Hc].
    eexists. rewrite Hconn', Hinit', Hi, Hins, <- app_assoc. done.
Qed.

(** After a successful loop on content that was not stored yet, the
    row found by the content hash is the row of the first chunk. *)
Lemma store_chunks_first_row sha env memory_id h memory_type total chunk rest md
    (g g' : MemoryGraph) md' rows :
  _conn g = Some (mkConn false rows) →
  select_by_hash h rows = None →
  store_chunks sha env memory_id h memory_type total 0 (chunk :: rest) md g
  = (g', md', Ok tt) →
  ∃ r0 rows1,
    _conn g' = Some (mkConn false rows1)
    ∧ select_by_hash h rows1 = Some r0
    ∧ _initialized g' = _initialized g
    ∧ row_content r0 = chunk
    ∧ row_id r0 = (if (1 <? total)%nat
                   then memory_id +:+ "_chunk" +:+ PyStr.of_nat 0
                   else memory_id).
Proof.
  intros Hconn Hnone Hs.
  simpl in Hs. unfold with_conn in Hs. rewrite Hconn in Hs. simpl in Hs.
  destruct (insert_row _ rows) as [rows1|e] eqn:Hins; [|done].
  apply insert_row_Ok in Hins.
  match type of Hs with
  | store_chunks _ _ _ _ _ _ _ _ _ (embed_chunk ?e ?i ?c ?ci ?m ?t ?g0) = _ =>
      destruct (embed_chunk_conn e i c ci m t g0) as [Hc Hi]
  end.
  eapply store_chunks_appends in Hs as (rows' & Hconn' & Hinit'); [|by rewrite Hc].
  eexists _, _. split; [exact Hconn'|]. split; [|split; [|split]].
  - apply select_by_hash_app. rewrite Hins. by apply select_by_hash_snoc.
  - by rewrite Hinit', Hi.
  - done.
  - done.
Qed.

Lemma get_by_hash_None_inv h (g : MemoryGraph) :
  get_by_hash h g = Ok None →
  ∃ rows, _conn g = Some (mkConn false rows) ∧ select_by_hash h rows = None.
Proof.
  unfold get_by_hash, with_conn.
  destruct (_conn g) as [[[] rows]|]; try done.
  intros H. exists rows. split; [done|]. simpl in H.
  by destruct (select_by_hash h rows).
Qed.

Lemma failed_is_failure (g g1 : MemoryGraph) (e : exn) (x : MemoryEntry) :
  match exn_kind_of e with
  | IntegrityError => (g, Failure ("Database integrity error: " +:+ exn_msg e))
  | _ => (g, Failure ("Failed to store memory: " +:+ exn_msg e))
  end ≠ (g1, Success x).
Proof. by destruct (exn_kind_of e). Qed.

(** What a successful [store] of new content did. *)
Lemma store_new_inv sha env text md memory_type (g g1 : MemoryGraph) e1 :
  get_by_hash (sha text) g = Ok None →
  store sha env text md memory_type g = Some (g1, Success e1) →
  _initialized g = true
  ∧ id e1 = "mem_" +:+ uuid_hex env
  ∧ content e1 = text
  ∧ ∃ chunks md',
      (if (chunk_size g <? Z.of_nat (String.length text))%Z
       then Chunker._chunk_content (chunk_size g) (chunk_overlap g) text
       else Some [text]) = Some chunks
      ∧ store_chunks sha env ("mem_" +:+ uuid_hex env) (sha text) memory_type
          (List.length chunks) 0 chunks md g = (g1, md', Ok tt).
Proof.
  intros Hnone Hstore. unfold store in Hstore.
  destruct (_initialized g); simpl in Hstore; [|done].
  rewrite Hnone in Hstore.
  destruct (if (chunk_size g <? _)%Z then _ else _) as [chunks|]; [|done].
  destruct (store_chunks _ _ _ _ _ _ _ _ _ _) as [[g' md'] [[]|e]] eqn:Hsc.
  - destruct (publish env) as [[]|e].
    + simplify_eq. simpl. repeat split; eauto.
    + injection Hstore as Hstore. by apply failed_is_failure in Hstore.
  - injection Hstore as Hstore. by apply failed_is_failure in Hstore.
Qed.

(** The deduplication path: content whose hash is in the table is not
    stored again; the timestamp of its row is refreshed and the entry
    of that row, as it was before the refresh, is returned. *)
Lemma store_existing sha env text md memory_type (g : MemoryGraph) rows r :
  _initialized g = true →
  _conn g = Some (mkConn false rows) →
  select_by_hash (sha text) rows = Some r →
  store sha env text md memory_type g
  = Some (set_rows (touch (db_now env) (sha text) rows) g,
          Success (_row_to_entry r)).
Proof.
  intros Hinit Hconn Hsel. unfold store, get_by_hash, with_conn.
  rewrite Hinit, Hconn. simpl. by rewrite Hsel.
Qed.

Lemma append_ne (s t : string) : t ≠ "" → s +:+ t ≠ s.
Proof.
  intros Ht Heq. apply (f_equal String.length) in Heq.
  rewrite ChunkerFacts.length_append in Heq.
  destruct t; [done|]. simpl in Heq. lia.
Qed.

(** Storing the same content twice, when it fits one chunk: the second
    call returns the id of the first and adds no row. *)
Lemma store_twice_short sha env1 env2 text md1 md2 mt1 mt2
    (g g1 : MemoryGraph) e1 :
  get_by_hash (sha text) g = Ok None →
  (Z.of_nat (String.length text) ≤ chunk_size g)%Z →
  store sha env1 text md1 mt1 g = Some (g1, Success e1) →
  ∃ g2 e2,
    store sha env2 text md2 mt2 g1 = Some (g2, Success e2)
    ∧ id e2 = id e1 ∧ content e2 = text
    ∧ List.length (rows_of g2) = List.length (rows_of g1).
Proof.
  intros Hnone Hlen Hstore.
  destruct (store_new_inv _ _ _ _ _ _ _ _ Hnone Hstore)
    as (Hinit & Hid & Hcontent & chunks & md' & Hchunks & Hsc).
  destruct (Z.ltb_spec (chunk_size g) (Z.of_nat (String.length text))); [lia|].
  simplify_eq.
  destruct (get_by_hash_None_inv _ _ Hnone) as (rows & Hconn & Hsel).
  destruct (store_chunks_first_row _ _ _ _ _ _ _ _ _ _ _ _ _ Hconn Hsel Hsc)
    as (r0 & rows1 & Hconn1 & Hsel1 & Hinit1 & Hc0 & Hid0).
  eexists _, _. split.
  - apply store_existing; [by rewrite Hinit1| exact Hconn1 | exact Hsel1].
  - simpl. rewrite Hid0, Hid, Hc0. split; [done|]. split; [done|].
    unfold rows_of, touch. rewrite Hconn1. simpl. by rewrite length_map.
Qed.

(** C1, where the code departs from the claim. Content that was not
    stored yet and is cut into more than one chunk: the first [store]
    returns the entry with the new id and the whole content, the
    second [store] finds the row of the first chunk under the content
    hash and returns that row as the existing entry, with the id of the
    chunk and the text of the chunk. *)
Theorem store_twice_chunked_returns_chunk sha env1 env2 text md1 md2 mt1 mt2
    (g g1 : MemoryGraph) e1 chunks :
  get_by_hash (sha text) g = Ok None →
  (chunk_size g < Z.of_nat (String.length text))%Z →
  Chunker._chunk_content (chunk_size g) (chunk_overlap g) text = Some chunks →
  1 < List.length chunks →
  store sha env1 text md1 mt1 g = Some (g1, Success e1) →
  ∃ g2 e2,
    store sha env2 text md2 mt2 g1 = Some (g2, Success e2)
    ∧ id e1 = "mem_" +:+ uuid_hex env1
    ∧ id e2 = id e1 +:+ "_chunk0"
    ∧ id e2 ≠ id e1
    ∧ content e1 = text
    ∧ head chunks = Some (content e2)
    ∧ content_hash e2 = sha text
    ∧ List.length (rows_of g2) = List.length (rows_of g1).
Proof.
  intros Hnone Hlen Hchunks Hmany Hstore.
  destruct (store_new_inv _ _ _ _ _ _ _ _ Hnone Hstore)
    as (Hinit & Hid & Hcontent & chunks' & md' & Hchunks' & Hsc).
  destruct (Z.ltb_spec (chunk_size g) (Z.of_nat (String.length text))); [|lia].
  rewrite Hchunks in Hchunks'. injection Hchunks' as <-.
  destruct (get_by_hash_None_inv _ _ Hnone) as (rows & Hconn & Hsel).
  destruct chunks as [|chunk rest]; [simpl in Hmany; lia|].
  destruct (store_chunks_first_row _ _ _ _ _ _ _ _ _ _ _ _ _ Hconn Hsel Hsc)
    as (r0 & rows1 & Hconn1 & Hsel1 & Hinit1 & Hc0 & Hid0).
  assert (Hsel0 : row_content_hash r0 = sha text).
  { unfold select_by_hash in Hsel1. apply find_some in Hsel1 as [_ Hh].
    by apply bool_decide_eq_true in Hh. }
  destruct (Nat.ltb_spec 1 (List.length (chunk :: rest))); [|lia].
  eexists _, _. split.
  - apply store_existing; [by rewrite Hinit1| exact Hconn1 | exact Hsel1].
  - simpl. rewrite Hid0, Hid, Hc0, Hsel0. repeat split; try done.
    + by apply append_ne.
    + unfold rows_of, touch. rewrite Hconn1. simpl. by rewrite length_map.
Qed.

Lemma store_twice_chunked_returns_chunk_witness :
  ∃ g1 e1 g2 e2,
    store toy_hash (store_env "0123456789ab" 1) long_content None NOTE fresh_graph
    = Some (g1, Success e1)
    ∧ store toy_hash (store_env "ba9876543210" 2) long_content None NOTE g1
      = Some (g2, Success e2)
    ∧ id e1 = "mem_0123456789ab"
    ∧ id e2 = "mem_0123456789ab_chunk0"
    ∧ content e1 = long_content
    ∧ content e2 = Chunker.repeat_char "a" 500.
Proof.
  assert (H1 : ∃ g1 e1,
    store toy_hash (store_env "0123456789ab" 1) long_content None NOTE fresh_graph
    = Some (g1, Success e1)).
  { vm_compute. eexists _, _. reflexivity. }
  destruct H1 as (g1 & e1 & H1).
  assert (Hchunks : Chunker._chunk_content (chunk_size fresh_graph)
                      (chunk_overlap fresh_graph) long_content
                    = Some [Chunker.repeat_char "a" 500;
                            Chunker.repeat_char "a" 150]).
  { vm_compute. reflexivity. }
  destruct (store_twice_chunked_returns_chunk toy_hash
              (store_env "0123456789ab" 1) (store_env "ba9876543210" 2)
              long_content None None NOTE NOTE fresh_graph g1 e1 _
              eq_refl ltac:(vm_compute; reflexivity) Hchunks
              ltac:(simpl; lia) H1)
    as (g2 & e2 & H2 & Hid1 & Hid2 & _ & Hc1 & Hc2 & _).
  exists g1, e1, g2, e2.
  split; [exact H1|]. split; [exact H2|]. split; [exact Hid1|].
  split; [by rewrite Hid2, Hid1|]. split; [exact Hc1|].
  simpl in Hc2. by injection Hc2.
Defined.

End GraphFacts.

(** * More facts about the embedding engine *)

Module EmbeddingsMore.

Import Embeddings EmbeddingsSpec EmbeddingsBatch EmbeddingsMoreSpec.
Import EmbeddingsFacts.

Lemma lstrip_all_space (text : string) :
  all_space text = true → PyStr.lstrip text = "".
Proof.
  induction text as [|c text IH]; simpl; [done|].
  intros [Hc Ht]%andb_true_iff. rewrite Hc. by apply IH.
Qed.

Lemma is_blank_all_space (text : string) :
  all_space text = true → is_blank text = true.
Proof.
  intros H. unfold is_blank, PyStr.strip. rewrite (lstrip_all_space _ H).
  by destruct text.
Qed.

Lemma lstrip_not_all_space (text : string) :
  all_space text = false → ∃ c rest, PyStr.lstrip text = String c rest
                                      ∧ PyStr.is_space c = false.
Proof.
  induction text as [|c text IH]; simpl; [done|].
  destruct (PyStr.is_space c) eqn:Hc; simpl; [apply IH|]. eauto.
Qed.

Lemma rstrip_keeps_head (c : ascii) (rest : string) :
  PyStr.is_space c = false → PyStr.rstrip (String c rest) ≠ "".
Proof.
  intros Hc. simpl. destruct (PyStr.rstrip rest); [by rewrite Hc|done].
Qed.

Lemma is_blank_iff (text : string) : is_blank text = all_space text.
Proof.
  destruct (all_space text) eqn:H; [by apply is_blank_all_space|].
  destruct (lstrip_not_all_space _ H) as (c & rest & Hl & Hc).
  unfold is_blank, PyStr.strip. rewrite Hl.
  pose proof (rstrip_keeps_head c rest Hc) as Hr.
  destruct text; [done|]. by destruct (PyStr.rstrip (String c rest)).
Qed.

(** X1. A text made of whitespace only (the empty text too) is not
    embedded: [embed] answers the failure, posts to no model and
    leaves the engine, its counters and its cache, as it was. *)
Theorem embed_blank_text post text (e : EmbeddingEngine) :
  all_space text = true →
  embed post text e = (e, Failure "Cannot embed empty text", []).
Proof.
  intros H. unfold embed. by rewrite is_blank_iff, H.
Qed.

Lemma embed_blank_text_witness :
  embed always_ok "  " default = (default, Failure "Cannot embed empty text", []).
Proof. apply embed_blank_text. reflexivity. Defined.

Lemma add_to_cache_counters (key : string) (embedding : list float)
    (e : EmbeddingEngine) :
  _cache_hits (fst (_add_to_cache key embedding e)) = _cache_hits e
  ∧ _cache_misses (fst (_add_to_cache key embedding e)) = _cache_misses e
  ∧ model (fst (_add_to_cache key embedding e)) = model e
  ∧ _cache_size (fst (_add_to_cache key embedding e)) = _cache_size e.
Proof.
  unfold _add_to_cache.
  repeat (case_match; simplify_eq; simpl_engine; try done).
Qed.

(** One call: a text that is not blank is counted once, as a hit or
    as a miss, never both. *)
Lemma embed_counts post text (e : EmbeddingEngine) :
  _cache_hits (engine_after post text e) + _cache_misses (engine_after post text e)
  = _cache_hits e + _cache_misses e + (if is_blank text then 0 else 1).
Proof.
  unfold engine_after, embed.
  destruct (is_blank text); [simpl; lia|].
  destruct (fallback_embed_spec post text (incr_misses e)) as [r ->].
  repeat (case_match; simplify_eq; simpl_engine; try lia).
  all: match goal with
       | Hk : _add_to_cache ?k ?v ?e0 = _ |- _ =>
           destruct (add_to_cache_counters k v e0) as (Hh & Hm & _);
           rewrite Hk in Hh, Hm; simpl in Hh, Hm; rewrite Hh, Hm;
           simpl_engine; lia
       end.
Qed.

(** X2. The two counters of the cache add up to the number of calls
    that got past the empty-text check: over any sequence of [embed]
    calls, each text that is not blank is counted exactly once, as a
    hit or as a miss, whatever the network answers. *)
Theorem embed_counts_every_call calls (e : EmbeddingEngine) :
  _cache_hits (embed_all calls e) + _cache_misses (embed_all calls e)
  = _cache_hits e + _cache_misses e + counted calls.
Proof.
  revert e. induction calls as [|[post text] calls IH]; intros e.
  - unfold counted. simpl. lia.
  - change (embed_all ((post, text) :: calls) e)
      with (embed_all calls (engine_after post text e)).
    rewrite IH, embed_counts. unfold counted. simpl.
    destruct (is_blank text); simpl; lia.
Qed.

(** X3. From the engine [__init__] builds, with a cache size that is
    not negative, every sequence of [embed] calls leaves the dict and
    the order list of the cache in step (the order lists the cached
    keys, each once) and the cache within its size. *)
Theorem embed_keeps_cache_invariant calls m h d v n :
  (0 ≤ n)%Z →
  cache_wf (embed_all calls (init m h d v n))
  ∧ cache_bounded (embed_all calls (init m h d v n)).
Proof.
  intros Hn. apply embed_all_cache_inv;
    [apply init_cache_wf|by apply init_cache_bounded].
Qed.

Lemma embed_keeps_cache_invariant_witness :
  cache_wf (embed_all [(always_ok, "X"); (primary_down, "Y")] engine2)
  ∧ cache_bounded (embed_all [(always_ok, "X"); (primary_down, "Y")] engine2).
Proof.
  apply (embed_keeps_cache_invariant
           [(always_ok, "X"); (primary_down, "Y")]
           "mxbai-embed-large" "http://localhost:11434" 1 "embed_v1" 2).
  lia.
Defined.

(** ** The eviction order *)

Lemma filter_other_notin (key : string) (l : list string) :
  key ∉ l → List.filter (fun k => negb (String.eqb k key)) l = l.
Proof.
  induction l as [|y l IH]; intros Hn; simpl; [done|].
  apply not_elem_of_cons in Hn as [Hne Hn].
  destruct (String.eqb_spec y key) as [->|_]; [done|]. simpl. by rewrite IH.
Qed.

Lemma list_remove_filter (key : string) (l : list string) :
  key ∈ l → NoDup l →
  list_remove key l = Ok (List.filter (fun k => negb (String.eqb k key)) l).
Proof.
  induction l as [|y l IH]; intros Hin Hnd.
  - by apply elem_of_nil in Hin.
  - apply NoDup_cons in Hnd as [Hy Hnd]. simpl.
    destruct (decide (key = y)) as [->|Hne].
    + rewrite String.eqb_refl. simpl. by rewrite filter_other_notin.
    + apply elem_of_cons in Hin as [?|Hin]; [done|].
      rewrite IH by done.
      destruct (String.eqb_spec y key) as [->|_]; done.
Qed.

(** What [_add_to_cache] does to a well-formed cache, field by field:
    the key is put last in the order and the embedding in the dict;
    then, if the dict is larger than the cache size, the head of the
    order is popped and deleted from the dict. *)
Lemma add_to_cache_exact (key : string) (embedding : list float)
    (e : EmbeddingEngine) :
  cache_wf e →
  ∃ e', _add_to_cache key embedding e = (e', Ok tt)
    ∧ model e' = model e
    ∧ _cache_size e' = _cache_size e
    ∧ if (_cache_size e <? Z.of_nat (size (<[key := embedding]> (_cache e))))%Z
      then ∃ oldest rest,
             refreshed key (_cache_order e) = oldest :: rest
             ∧ _cache e' = base.delete oldest (<[key := embedding]> (_cache e))
             ∧ _cache_order e' = rest
      else _cache e' = <[key := embedding]> (_cache e)
           ∧ _cache_order e' = refreshed key (_cache_order e).
Proof.
  intros [Hnd Hmem]. unfold _add_to_cache, refreshed.
  assert (Hstep : ∀ e1 : EmbeddingEngine,
    _cache e1 = _cache e → _cache_size e1 = _cache_size e → model e1 = model e →
    _cache_order e1 = List.filter (fun k => negb (String.eqb k key)) (_cache_order e) →
    ∃ e',
      (let self2 := set_cache (<[key := embedding]> (_cache e1)) e1 in
       let self3 := set_cache_order (_cache_order self2 ++ [key]) self2 in
       if (_cache_size self3 <? Z.of_nat (size (_cache self3)))%Z then
         match _cache_order self3 with
         | [] => (self3, Raise (Exn IndexError "pop from empty list"))
         | oldest_key :: rest =>
             let self4 := set_cache_order rest self3 in
             match _cache self4 !! oldest_key with
             | None => (self4, Raise (Exn KeyError oldest_key))
             | Some _ =>
                 (set_cache (base.delete oldest_key (_cache self4)) self4, Ok tt)
             end
         end
       else (self3, Ok tt)) = (e', Ok tt)
      ∧ model e' = model e
      ∧ _cache_size e' = _cache_size e
      ∧ if (_cache_size e <? Z.of_nat (size (<[key := embedding]> (_cache e))))%Z
        then ∃ oldest rest,
               List.filter (fun k => negb (String.eqb k key)) (_cache_order e) ++ [key]
               = oldest :: rest
               ∧ _cache e' = base.delete oldest (<[key := embedding]> (_cache e))
               ∧ _cache_order e' = rest
        else _cache e' = <[key := embedding]> (_cache e)
             ∧ _cache_order e'
               = List.filter (fun k => negb (String.eqb k key)) (_cache_order e)
                 ++ [key]).
  { intros e1 Hc Hs Hm Ho. simpl_engine. rewrite Hc, Hs, Ho.
    destruct (_ <? _)%Z.
    - destruct (List.filter _ (_cache_order e) ++ [key]) as [|oldest rest] eqn:Hl.
      { by destruct (List.filter _ (_cache_order e)). }
      assert (Hin : oldest ∈ List.filter (fun k => negb (String.eqb k key))
                                 (_cache_order e) ++ [key]).
      { rewrite Hl. by left. }
      assert (Hsome : is_Some (<[key := embedding]> (_cache e) !! oldest)).
      { apply elem_of_app in Hin as [Hin|Hin].
        - apply list_elem_of_In, filter_In in Hin as [Hin Hne].
          apply list_elem_of_In, Hmem in Hin.
          destruct (String.eqb_spec oldest key) as [|Hne']; [done|].
          by rewrite lookup_insert_ne.
        - apply list_elem_of_singleton in Hin as ->.
          rewrite lookup_insert_eq. eauto. }
      destruct Hsome as [w Hw]. rewrite Hw.
      eexists. split; [reflexivity|]. simpl_engine. eauto 10.
    - eexists. split; [reflexivity|]. simpl_engine. eauto. }
  destruct (_cache e !! key) as [old|] eqn:Hkey.
  - assert (Hin : key ∈ _cache_order e) by (apply Hmem; eauto).
    rewrite (list_remove_filter key _ Hin Hnd).
    apply Hstep; done.
  - assert (Hnin : key ∉ _cache_order e).
    { intros Hin. apply Hmem in Hin as [? ?]. congruence. }
    apply Hstep; try done. by rewrite filter_other_notin.
Qed.

(** X4. A put on a key that is cached replaces its embedding and
    makes it the most recent key of the eviction order; nothing is
    evicted and the cache keeps its size. *)
Theorem cache_put_existing_refreshes (key : string) (embedding old : list float)
    (e : EmbeddingEngine) :
  cache_wf e → cache_bounded e → _cache e !! key = Some old →
  ∃ e', _add_to_cache key embedding e = (e', Ok tt)
    ∧ _cache e' = <[key := embedding]> (_cache e)
    ∧ _cache_order e' = refreshed key (_cache_order e)
    ∧ last (_cache_order e') = Some key
    ∧ size (_cache e') = size (_cache e).
Proof.
  intros Hwf Hb Hold.
  destruct (add_to_cache_exact key embedding e Hwf) as (e' & He' & _ & _ & H).
  assert (Hsize : size (<[key := embedding]> (_cache e)) = size (_cache e)).
  { apply map_size_insert_Some. eauto. }
  rewrite Hsize in H. unfold cache_bounded in Hb.
  destruct (Z.ltb_spec (_cache_size e) (Z.of_nat (size (_cache e)))); [lia|].
  destruct H as [Hc Ho]. exists e'. rewrite Hc, Ho.
  repeat split; try done. unfold refreshed. apply last_snoc.
Qed.

Lemma cache_put_existing_refreshes_witness :
  ∃ e', _add_to_cache "m:X" [2%float]
          (embed_all [(always_ok, "X"); (always_ok, "Y")]
             (init "m" "h" 1 "v" 2)) = (e', Ok tt)
        ∧ _cache_order e' = ["m:Y"; "m:X"]
        ∧ size (_cache e') = 2.
Proof.
  destruct (cache_put_existing_refreshes "m:X" [2%float] [1%float]
              (embed_all [(always_ok, "X"); (always_ok, "Y")]
                 (init "m" "h" 1 "v" 2)))
    as (e' & He' & _ & Ho & _ & Hs).
  - apply embed_all_cache_inv; [apply init_cache_wf|apply init_cache_bounded; lia].
  - apply embed_all_cache_inv; [apply init_cache_wf|apply init_cache_bounded; lia].
  - vm_compute. reflexivity.
  - exists e'. split; [exact He'|]. split; [exact Ho|].
    rewrite Hs. vm_compute. reflexivity.
Defined.

(** X5. When a put of a new key makes the dict larger than the cache
    size, exactly the head of the eviction order goes: the key that
    was put or refreshed longest ago (the new key itself when the
    order was empty). The other keys keep their order, with the new
    key last. *)
Theorem cache_eviction_removes_oldest (key : string) (embedding : list float)
    (e : EmbeddingEngine) (oldest : string) (rest : list string) :
  cache_wf e → _cache e !! key = None →
  (_cache_size e < Z.of_nat (S (size (_cache e))))%Z →
  _cache_order e ++ [key] = oldest :: rest →
  ∃ e', _add_to_cache key embedding e = (e', Ok tt)
    ∧ _cache e' = base.delete oldest (<[key := embedding]> (_cache e))
    ∧ _cache_order e' = rest
    ∧ _cache e' !! oldest = None
    ∧ (∀ k, k ≠ oldest → _cache e' !! k = <[key := embedding]> (_cache e) !! k).
Proof.
  intros Hwf Hnew Hfull Horder.
  destruct (add_to_cache_exact key embedding e Hwf) as (e' & He' & _ & _ & H).
  rewrite map_size_insert_None in H by done.
  destruct (Z.ltb_spec (_cache_size e) (Z.of_nat (S (size (_cache e))))); [|lia].
  destruct H as (oldest' & rest' & Hr & Hc & Ho).
  assert (Hnin : key ∉ _cache_order e).
  { intros Hin. apply Hwf in Hin as [? ?]. congruence. }
  unfold refreshed in Hr. rewrite filter_other_notin, Horder in Hr by done.
  simplify_eq. exists e'. rewrite Hc.
  repeat split; try done.
  - apply lookup_delete_eq.
  - intros k Hk. by rewrite lookup_delete_ne.
Qed.

Lemma cache_eviction_removes_oldest_witness :
  ∃ e', _add_to_cache "m:Z" [3%float]
          (embed_all [(always_ok, "X"); (always_ok, "Y")]
             (init "m" "h" 1 "v" 2)) = (e', Ok tt)
        ∧ _cache_order e' = ["m:Y"; "m:Z"]
        ∧ _cache e' !! "m:X" = None.
Proof.
  destruct (cache_eviction_removes_oldest "m:Z" [3%float]
              (embed_all [(always_ok, "X"); (always_ok, "Y")]
                 (init "m" "h" 1 "v" 2)) "m:X" ["m:Y"; "m:Z"])
    as (e' & He' & _ & Ho & Hx & _).
  - apply embed_all_cache_inv; [apply init_cache_wf|apply init_cache_bounded; lia].
  - vm_compute. reflexivity.
  - vm_compute. reflexivity.
  - vm_compute. reflexivity.
  - exists e'. split; [exact He'|]. split; [exact Ho|exact Hx].
Defined.

(** ** Calls that repeat, fail or fall back *)

(** X6. With room for at least one embedding, a text that [embed]
    answered from the cache or from the primary model is answered
    from the cache the next time: the same vector, no request, one
    more hit, whatever the network does then. *)
Theorem embed_again_hits post post' text (e e1 : EmbeddingEngine)
    (v : list float) (calls : list string) :
  cache_wf e → cache_bounded e → (1 ≤ _cache_size e)%Z →
  embed post text e = (e1, Success v, calls) → (List.length calls ≤ 1)%nat →
  embed post' text e1 = (incr_hits e1, Success v, []).
Proof.
  intros Hwf Hb Hsize Hemb Hcalls. unfold embed in *.
  destruct (is_blank text); [done|].
  destruct (_cache e !! (model e +:+ ":" +:+ text)) as [w|] eqn:Hkey.
  { simplify_eq. simpl_engine. by rewrite Hkey. }
  assert (Hwfm : cache_wf (incr_misses e)) by done.
  destruct (add_to_cache_exact (model e +:+ ":" +:+ text) v (incr_misses e) Hwfm)
    as (e' & He' & Hm & _ & Hc).
  assert (Hhit : ∀ e2 : EmbeddingEngine,
            _add_to_cache (model e +:+ ":" +:+ text) v (incr_misses e) = (e2, Ok tt) →
            model e2 = model e
            ∧ _cache e2 !! (model e +:+ ":" +:+ text) = Some v).
  { intros e2 He2. rewrite He' in He2. simplify_eq. split; [done|].
    revert Hc. simpl_engine. rewrite map_size_insert_None by done.
    destruct (_ <? _)%Z eqn:Hfull.
    - intros (oldest & rest & Hr & -> & _).
      apply Z.ltb_lt in Hfull. unfold refreshed in Hr.
      assert (Hlen : size (_cache e) = List.length (_cache_order e))
        by (by apply cache_wf_size).
      assert (Hnin : (model e +:+ ":" +:+ text) ∉ _cache_order e).
      { intros Hin. apply Hwf in Hin as [? ?]. congruence. }
      destruct (decide (oldest = model e +:+ ":" +:+ text)) as [->|Hne].
      + rewrite filter_other_notin in Hr by done.
        destruct (_cache_order e) as [|k o] eqn:Ho; simpl in *; [lia|].
        simplify_eq. exfalso. apply Hnin. by left.
      + rewrite lookup_delete_ne by done. apply lookup_insert_eq.
    - intros [-> _]. apply lookup_insert_eq. }
  assert (Hadd : _add_to_cache (model e +:+ ":" +:+ text) v (incr_misses e)
                 = (e1, Ok tt)).
  { destruct (fallback_embed_spec post text (incr_misses e)) as [r Hfb].
    rewrite Hfb in Hemb. revert Hemb Hcalls. clear.
    repeat case_match; intros; simplify_eq; simpl in *; try lia.
    all: match goal with
         | H : _add_to_cache _ _ _ = (_, Ok ?u) |- _ => by destruct u
         end. }
  destruct (Hhit e1 Hadd) as [-> ->]. done.
Qed.

Lemma embed_again_hits_witness :
  embed primary_down "hello" (engine_after always_ok "hello" default)
  = (incr_hits (engine_after always_ok "hello" default), Success [1%float], []).
Proof.
  apply (embed_again_hits always_ok primary_down "hello" default
           (engine_after always_ok "hello" default) [1%float]
           ["mxbai-embed-large"]).
  - apply init_cache_wf.
  - apply init_cache_bounded. lia.
  - simpl. lia.
  - vm_compute. reflexivity.
  - simpl. lia.
Defined.

(** X7. Only an embedding of the primary model is cached. When
    [embed] answers a failure, or when it went on to the fallback
    model (two requests), the cache is as it was before the call: an
    embedding of the fallback model is never cached, so the same
    text is requested again the next time. *)
Theorem embed_caches_primary_only post text (e e' : EmbeddingEngine)
    (r : Result (list float)) (calls : list string) :
  cache_wf e →
  embed post text e = (e', r, calls) →
  is_failure r = true ∨ List.length calls = 2%nat →
  _cache e' = _cache e ∧ _cache_order e' = _cache_order e.
Proof.
  intros Hwf Hemb Hr. unfold embed in Hemb.
  assert (Hwfm : cache_wf (incr_misses e)) by done.
  destruct (fallback_embed_spec post text (incr_misses e)) as [r' Hfb].
  rewrite Hfb in Hemb.
  assert (Hadd : ∀ v, ∃ e2,
            _add_to_cache (model e +:+ ":" +:+ text) v (incr_misses e)
            = (e2, Ok tt)).
  { intros v.
    destruct (add_to_cache_exact (model e +:+ ":" +:+ text) v (incr_misses e) Hwfm)
      as (e2 & He2 & _). eauto. }
  revert Hemb Hr Hadd. clear.
  repeat case_match; intros; simplify_eq; simpl in *; try done.
  all: try (destruct Hr as [?|?]; done).
  all: match goal with
       | Hadd : ∀ v, ∃ e2, _add_to_cache ?k v ?e0 = _,
         H : _add_to_cache ?k ?v0 _ = (_, Raise _) |- _ =>
           destruct (Hadd v0) as [e2 He2]; simpl in He2; congruence
       end.
Qed.

Lemma embed_caches_primary_only_witness :
  _cache (engine_after primary_down "hello" default) = _cache default
  ∧ _cache_order (engine_after primary_down "hello" default) = _cache_order default.
Proof.
  apply (embed_caches_primary_only primary_down "hello" default
           (engine_after primary_down "hello" default)
           (Success [2%float]) ["mxbai-embed-large"; "mistral"]).
  - apply init_cache_wf.
  - vm_compute. reflexivity.
  - right. reflexivity.
Defined.

(** ** batch_embed *)

Lemma batch_loop_length post (texts : list string) :
  ∀ i (e : EmbeddingEngine),
    List.length (snd (fst (batch_loop post i texts e))) = List.length texts.
Proof.
  induction texts as [|text rest IH]; intros i e; simpl; [done|].
  destruct (embed (post i) text e) as [[e1 r] c].
  specialize (IH (S i) e1).
  destruct (batch_loop post (S i) rest e1) as [[e2 embs] c']. simpl in *.
  by rewrite IH.
Qed.

(** Slot [j] of the loop is the answer of [embed] for text [j] on the
    engine the texts before it left. *)
Lemma batch_loop_slot post (texts : list string) :
  ∀ i (e : EmbeddingEngine) j text,
    texts !! j = Some text →
    snd (fst (batch_loop post i texts e)) !! j
    = Some (slot (snd (fst (embed (post (i + j)) text
                              (fst (fst (batch_loop post i (take j texts) e))))))).
Proof.
  induction texts as [|t rest IH]; intros i e j text Hj; [done|].
  destruct j as [|j]; simpl in Hj.
  - simplify_eq. simpl. rewrite Nat.add_0_r.
    destruct (embed (post i) text e) as [[e1 r] c].
    destruct (batch_loop post (S i) rest e1) as [[e2 embs] c']. done.
  - specialize (IH (S i)). simpl.
    destruct (embed (post i) t e) as [[e1 r] c].
    specialize (IH e1 j text Hj).
    destruct (batch_loop post (S i) rest e1) as [[e2 embs] c'].
    destruct (batch_loop post (S i) (take j rest) e1) as [[e3 embs3] c3].
    simpl in *. rewrite IH. by rewrite Nat.add_succ_r.
Qed.

Lemma success_count_0 (embeddings : list (option (list float))) :
  success_count embeddings = 0 → Forall (λ x, x = None) embeddings.
Proof.
  unfold success_count. induction embeddings as [|[v|] l IH]; simpl; intros H.
  - constructor.
  - done.
  - constructor; [done|by apply IH].
Qed.

Lemma success_count_pos (embeddings : list (option (list float))) :
  success_count embeddings ≠ 0 → ∃ j v, embeddings !! j = Some (Some v).
Proof.
  unfold success_count. induction embeddings as [|[v|] l IH]; simpl; intros H.
  - done.
  - by exists 0, v.
  - destruct (IH H) as (j & v & Hj). by exists (S j), v.
Qed.

(** X8. [batch_embed] keeps the positions of its texts. It fails for
    the empty list, without touching the engine, and when every text
    failed; otherwise it returns one slot for each text, in order,
    at least one of them an embedding: slot [j] holds what [embed]
    answers for text [j] after the texts before it, [None] where
    that is a failure. *)
Theorem batch_embed_keeps_positions post (texts : list string)
    (e : EmbeddingEngine) :
  match snd (batch_embed post texts e) with
  | Success embeddings =>
      List.length embeddings = List.length texts
      ∧ (∃ j v, embeddings !! j = Some (Some v))
      ∧ (∀ j text, texts !! j = Some text →
           embeddings !! j
           = Some (slot (snd (fst (embed (post j) text
                                     (engine_before post texts j e))))))
  | Failure error =>
      (texts = [] ∧ error = "Cannot embed empty list"
       ∧ fst (batch_embed post texts e) = e)
      ∨ (texts ≠ [] ∧ error = "All embeddings failed"
         ∧ ∀ j text, texts !! j = Some text →
             is_failure (snd (fst (embed (post j) text
                                     (engine_before post texts j e)))) = true)
  end.
Proof.
  unfold batch_embed. destruct texts as [|t rest]; [by left|].
  pose proof (batch_loop_length post (t :: rest) 0 e) as Hlen.
  pose proof (batch_loop_slot post (t :: rest) 0 e) as Hslot.
  destruct (batch_loop post 0 (t :: rest) e) as [[e' embs] c].
  cbn [fst snd] in Hlen, Hslot.
  destruct (Nat.eqb_spec (success_count embs) 0) as [H0|Hpos]; cbn [snd].
  - right. split; [done|]. split; [done|].
    intros j text Hj. specialize (Hslot j text Hj).
    apply success_count_0 in H0. rewrite Forall_forall in H0.
    apply list_elem_of_lookup_2, H0 in Hslot. unfold engine_before.
    by destruct (snd (fst (embed _ text _))).
  - split; [done|]. split; [by apply success_count_pos|].
    intros j text Hj. by apply Hslot.
Qed.

End EmbeddingsMore.

(** * More facts about the chunker *)

Module ChunkerMore.

Import Chunker ChunkerSpec ChunkerMoreSpec.
Import ChunkerFacts.

Local Arguments String.append !_ _ / : simpl nomatch.

(** ** When the chunker returns *)

Lemma window_loop_returns (cs ov : Z) (text : string) :
  (ov < cs)%Z →
  ∀ fuel i,
    (Z.of_nat (String.length text) - i ≤ Z.of_nat fuel)%Z →
    is_Some (window_loop cs ov fuel text i).
Proof.
  intros Hstep. induction fuel as [|fuel IH]; intros i Hfuel; simpl.
  - destruct (Z.ltb_spec i (Z.of_nat (String.length text))); [lia|eauto].
  - destruct (Z.ltb_spec i (Z.of_nat (String.length text))); [|eauto].
    destruct (IH (i + (cs - ov))%Z) as [chunks ->]; [lia|eauto].
Qed.

Lemma window_loop_spins (cs ov : Z) (text : string) :
  (cs ≤ ov)%Z →
  ∀ fuel i,
    (i < Z.of_nat (String.length text))%Z →
    window_loop cs ov fuel text i = None.
Proof.
  intros Hstep. induction fuel as [|fuel IH]; intros i Hi; simpl.
  - destruct (Z.ltb_spec i (Z.of_nat (String.length text))); [done|lia].
  - destruct (Z.ltb_spec i (Z.of_nat (String.length text))); [|lia].
    rewrite IH by lia. done.
Qed.

(** When the chunker does not return. *)
Lemma chunk_content_None (cs ov : Z) (content : string) :
  _chunk_content cs ov content = None
  ↔ List.length (split_paragraphs content) = 1
    ∧ (cs < Z.of_nat (String.length content))%Z
    ∧ content ≠ ""
    ∧ (cs ≤ ov)%Z.
Proof.
  unfold _chunk_content.
  destruct (Z.leb_spec (Z.of_nat (String.length content)) cs) as [Hle|Hgt].
  { split; [done|]. intros (_ & H & _). lia. }
  destruct (split_paragraphs content) as [|text [|p ps]] eqn:Hsplit.
  - split; [done|]. by intros [? _].
  - apply split_paragraphs_single in Hsplit. subst text.
    destruct (Z.ltb_spec cs (Z.of_nat (String.length content))); [|lia].
    destruct (Z.le_gt_cases cs ov) as [Hspin|Hstep].
    + destruct content as [|c content].
      * split; [done|]. by intros (_ & _ & ? & _).
      * rewrite window_loop_spins by (simpl; lia). done.
    + destruct (window_loop_returns cs ov content ltac:(lia)
                  (S (String.length content)) 0%Z ltac:(lia)) as [chunks ->].
      split; [done|]. intros (_ & _ & _ & ?). lia.
  - split; [|by intros [? _]].
    by destruct (pack_paragraphs cs (text :: p :: ps) "") as [|? [|? ?]].
Qed.

(** X9. [_chunk_content] returns for every content but one kind: a
    content longer than [chunk_size], not empty and without a blank
    line, chunked with [chunk_overlap >= chunk_size]. There the
    sliding window never moves forward and the call does not
    terminate. *)
Theorem chunk_content_returns (cs ov : Z) (content : string) :
  (is_Some (_chunk_content cs ov content)
   ↔ ¬ (List.length (split_paragraphs content) = 1
        ∧ (cs < Z.of_nat (String.length content))%Z
        ∧ content ≠ ""
        ∧ (cs ≤ ov)%Z))
  ∧ ((0 ≤ ov < cs)%Z → is_Some (_chunk_content cs ov content)).
Proof.
  pose proof (chunk_content_None cs ov content) as H.
  assert (Hiff : is_Some (_chunk_content cs ov content)
                 ↔ ¬ (List.length (split_paragraphs content) = 1
                      ∧ (cs < Z.of_nat (String.length content))%Z
                      ∧ content ≠ ""
                      ∧ (cs ≤ ov)%Z)).
  { rewrite <- H. destruct (_chunk_content cs ov content) as [chunks|]; split.
    - by intros _ ?.
    - by eauto.
    - by intros [? ?].
    - intros Hn. by destruct Hn. }
  split; [exact Hiff|].
  intros Hov. apply Hiff. intros (_ & _ & _ & ?). lia.
Qed.

(** ** The sliding window, chunk by chunk *)

Lemma take_min_length (n : nat) (s : string) :
  PyStr.take (Nat.min n (String.length s)) s = PyStr.take n s.
Proof.
  revert s. induction n as [|n IH]; intros [|c s]; simpl; try done.
  by rewrite IH.
Qed.

Lemma take_take (a b : nat) (s : string) :
  PyStr.take a (PyStr.take b s) = PyStr.take (Nat.min a b) s.
Proof.
  revert b s. induction a as [|a IH]; intros [|b] [|c s]; simpl; try done.
  by rewrite IH.
Qed.

Lemma str_slice_take_drop (cs i : Z) (text : string) :
  (0 ≤ i < Z.of_nat (String.length text))%Z → (0 < cs)%Z →
  PyNum.str_slice i (Z.min (i + cs) (Z.of_nat (String.length text))) text
  = PyStr.take (Z.to_nat cs) (PyStr.drop (Z.to_nat i) text).
Proof.
  intros Hi Hcs. unfold PyNum.str_slice, PyStr.slice.
  rewrite !slice_index_nonneg by lia.
  replace (Z.to_nat (Z.min (Z.of_nat (String.length text)) i))
    with (Z.to_nat i) by lia.
  rewrite <- (take_min_length (Z.to_nat cs)). rewrite length_drop.
  f_equal. lia.
Qed.

Lemma window_loop_chunks (cs ov : Z) (text : string) :
  (0 ≤ ov < cs)%Z →
  ∀ fuel i chunks,
    (0 ≤ i)%Z →
    window_loop cs ov fuel text i = Some chunks →
    (∀ j chunk, chunks !! j = Some chunk →
       chunk = PyStr.take (Z.to_nat cs)
                 (PyStr.drop (Z.to_nat (i + Z.of_nat j * (cs - ov))) text)
       ∧ (i + Z.of_nat j * (cs - ov) < Z.of_nat (String.length text))%Z)
    ∧ (Z.of_nat (String.length text) - i
       ≤ Z.of_nat (List.length chunks) * (cs - ov))%Z
    ∧ ((i < Z.of_nat (String.length text))%Z →
       ((Z.of_nat (List.length chunks) - 1) * (cs - ov)
        < Z.of_nat (String.length text) - i)%Z).
Proof.
  intros Hov. induction fuel as [|fuel IH]; intros i chunks Hi Hw; simpl in Hw.
  - destruct (Z.ltb_spec i (Z.of_nat (String.length text))); [done|].
    simplify_eq. simpl. split; [done|]. split; lia.
  - destruct (Z.ltb_spec i (Z.of_nat (String.length text))) as [Hlt|Hge].
    + destruct (window_loop cs ov fuel text (i + (cs - ov))) as [rest|] eqn:Hrest;
        [|done].
      simplify_eq.
      assert (Hi' : (0 ≤ i + (cs - ov))%Z) by lia.
      destruct (IH _ _ Hi' Hrest) as (Hj & Hlen & Hmin).
      split; [|split].
      * intros [|j] chunk Hc; simpl in Hc.
        -- simplify_eq. rewrite str_slice_take_drop by lia.
           split; [do 2 f_equal; lia|lia].
        -- destruct (Hj j chunk Hc) as [-> Hlt'].
           split; [do 2 f_equal; lia|lia].
      * simpl List.length. nia.
      * intros _. simpl List.length.
        destruct (Z.lt_ge_cases (i + (cs - ov)) (Z.of_nat (String.length text)))
          as [Hmore|Hlast].
        -- specialize (Hmin Hmore). nia.
        -- assert (rest = []) as ->.
           { destruct fuel; simpl in Hrest;
               destruct (Z.ltb_spec (i + (cs - ov))
                           (Z.of_nat (String.length text))); try lia;
               by simplify_eq. }
           simpl. lia.
    + simplify_eq. simpl. split; [done|]. split; lia.
Qed.

(** X10. The sliding window in closed form. For content longer than
    [chunk_size] without a blank line and [0 <= chunk_overlap <
    chunk_size]: chunk [j] is the [chunk_size] characters (or what is
    left) from index [j * (chunk_size - chunk_overlap)] on, it is not
    empty and has at most [chunk_size] characters; there are as many
    chunks as steps of [chunk_size - chunk_overlap] are needed to
    cover the content; and what follows the first [chunk_size -
    chunk_overlap] characters of a chunk is the beginning of the next
    chunk. *)
Theorem window_chunks_closed_form (cs ov : Z) (content : string) :
  (0 ≤ ov < cs)%Z → (cs < Z.of_nat (String.length content))%Z →
  List.length (split_paragraphs content) = 1 →
  ∃ chunks, _chunk_content cs ov content = Some chunks
    ∧ ((Z.of_nat (List.length chunks) - 1) * (cs - ov)
       < Z.of_nat (String.length content)
       ≤ Z.of_nat (List.length chunks) * (cs - ov))%Z
    ∧ (∀ j chunk, chunks !! j = Some chunk →
         chunk = window_chunk cs ov content j
         ∧ (1 ≤ String.length chunk ≤ Z.to_nat cs)%nat)
    ∧ (∀ j a b, chunks !! j = Some a → chunks !! (S j) = Some b →
         PyStr.drop (Z.to_nat (cs - ov)) a = PyStr.take (Z.to_nat ov) b).
Proof.
  intros Hov Hlen Hone. unfold _chunk_content.
  destruct (Z.leb_spec (Z.of_nat (String.length content)) cs); [lia|].
  destruct (split_paragraphs content) as [|text [|? ?]] eqn:Hsplit; try done.
  apply split_paragraphs_single in Hsplit. subst text.
  destruct (Z.ltb_spec cs (Z.of_nat (String.length content))); [|lia].
  destruct (window_loop_returns cs ov content ltac:(lia)
              (S (String.length content)) 0%Z ltac:(lia)) as [chunks Hw].
  rewrite Hw. exists chunks. split; [done|].
  destruct (window_loop_chunks cs ov content Hov _ _ _ (Z.le_refl 0) Hw)
    as (Hj & Hcover & Hmin).
  assert (Hchunk : ∀ j chunk, chunks !! j = Some chunk →
            chunk = window_chunk cs ov content j
            ∧ (j * Z.to_nat (cs - ov) < String.length content)%nat).
  { intros j chunk Hc. destruct (Hj j chunk Hc) as [-> Hlt].
    unfold window_chunk. split; [do 2 f_equal; nia|nia]. }
  split; [|split].
  - split; [|lia]. specialize (Hmin ltac:(lia)). lia.
  - intros j chunk Hc. destruct (Hchunk j chunk Hc) as [-> Hlt].
    split; [done|]. unfold window_chunk. rewrite length_take, length_drop. lia.
  - intros j a b Ha Hb.
    destruct (Hchunk _ _ Ha) as [-> _]. destruct (Hchunk _ _ Hb) as [-> _].
    unfold window_chunk. rewrite drop_take, drop_drop, take_take.
    f_equal; [lia|f_equal; lia].
Qed.

Lemma window_chunks_closed_form_witness :
  ∃ chunks, _chunk_content 500 50 (repeat_char "a" 5000) = Some chunks
    ∧ List.length chunks = 12
    ∧ chunks !! 11 = Some (repeat_char "a" 50).
Proof.
  destruct (window_chunks_closed_form 500 50 (repeat_char "a" 5000))
    as (chunks & Hc & Hcount & Hj & _).
  - lia.
  - by vm_compute.
  - by vm_compute.
  - exists chunks. split; [exact Hc|].
    assert (Hlen : List.length chunks = 12).
    { replace (Z.of_nat (String.length (repeat_char "a" 5000))) with 5000%Z
        in Hcount by (by vm_compute).
      lia. }
    split; [exact Hlen|].
    destruct (lookup_lt_is_Some_2 chunks 11 ltac:(lia)) as [chunk Hchunk].
    rewrite Hchunk. f_equal.
    destruct (Hj _ _ Hchunk) as [-> _]. by vm_compute.
Defined.

(** ** The paragraph path *)

Lemma join_paragraphs_cons (para : string) (group : list string) :
  ∃ c s, join_paragraphs (para :: group) = String c s.
Proof.
  unfold join_paragraphs. simpl. destruct para; simpl; eauto.
Qed.

Lemma join_paragraphs_snoc (group : list string) (para : string) :
  join_paragraphs group +:+ para +:+ blank_line = join_paragraphs (group ++ [para]).
Proof.
  unfold join_paragraphs.
  induction group as [|p group IH]; cbn [fold_right app].
  - by rewrite (append_nil_r blank_line).
  - rewrite <- IH. by rewrite !append_assoc.
Qed.

(** The paragraph loop only joins consecutive paragraphs: its chunks
    are the stripped joins of the groups of a partition of the
    paragraphs, the first group continuing [current_chunk]. *)
Lemma pack_paragraphs_groups (cs : Z) (paragraphs : list string) :
  ∀ acc, ∃ groups,
    Forall (λ g : list string, g ≠ []) groups
    ∧ List.concat groups = acc ++ paragraphs
    ∧ pack_paragraphs cs paragraphs (join_paragraphs acc)
      = map (λ g, PyStr.strip (join_paragraphs g)) groups.
Proof.
  induction paragraphs as [|para rest IH]; intros acc.
  - destruct acc as [|p acc].
    + exists []. by repeat split.
    + exists [p :: acc]. split; [by repeat constructor|].
      split; [simpl; by rewrite !app_nil_r|].
      destruct (join_paragraphs_cons p acc) as (c & s & Hj).
      cbn [pack_paragraphs map]. by rewrite Hj.
  - cbn [pack_paragraphs]. destruct (_ <? _)%Z.
    + rewrite join_paragraphs_snoc.
      destruct (IH (acc ++ [para])) as (groups & Hne & Hcat & Hpack).
      exists groups. rewrite Hpack, Hcat, <- app_assoc. done.
    + destruct (IH [para]) as (groups & Hne & Hcat & Hpack).
      assert (Hone : para +:+ blank_line = join_paragraphs [para]).
      { unfold join_paragraphs. cbn [fold_right].
        by rewrite (append_nil_r blank_line). }
      rewrite Hone, Hpack.
      destruct acc as [|p acc].
      * exists groups. done.
      * exists ((p :: acc) :: groups). split; [by constructor|].
        split; [simpl; by rewrite Hcat|].
        destruct (join_paragraphs_cons p acc) as (c & s & Hj).
        cbn [map]. by rewrite Hj.
Qed.

Lemma add_overlap_lookup (ov : Z) (rest : list string) :
  ∀ prev j chunk,
    rest !! j = Some chunk →
    ∃ prefix, add_overlap ov prev rest !! j = Some (prefix +:+ chunk).
Proof.
  induction rest as [|c rest IH]; intros prev j chunk Hj; [done|].
  destruct j as [|j]; simpl in Hj.
  - simplify_eq. exists (overlap_of ov prev +:+ " ").
    cbn [add_overlap lookup list_lookup]. by rewrite append_assoc.
  - cbn [add_overlap]. by apply IH.
Qed.

Lemma add_overlap_length (ov : Z) (rest : list string) :
  ∀ prev, List.length (add_overlap ov prev rest) = List.length rest.
Proof.
  induction rest as [|c rest IH]; intros prev; simpl; [done|by rewrite IH].
Qed.

Lemma groups_length (groups : list (list string)) :
  Forall (λ g : list string, g ≠ []) groups →
  (List.length groups ≤ List.length (List.concat groups))%nat.
Proof.
  induction 1 as [|g groups Hg _ IH]; simpl; [done|].
  rewrite length_app. destruct g; [done|]. simpl. lia.
Qed.

(** X11. When the content has a blank line, the chunker joins
    paragraphs and cuts none: there is a partition of the paragraphs
    into groups of consecutive paragraphs, one for each chunk, and
    chunk [j] is the stripped join of group [j], after a prefix that
    is empty for the first chunk. So there is at least one chunk and
    at most one for each paragraph, whatever [chunk_size] is. *)
Theorem paragraph_chunks_join_paragraphs (cs ov : Z) (content : string) :
  (cs < Z.of_nat (String.length content))%Z →
  List.length (split_paragraphs content) ≠ 1 →
  ∃ groups chunks,
    _chunk_content cs ov content = Some chunks
    ∧ List.concat groups = split_paragraphs content
    ∧ Forall (λ g : list string, g ≠ []) groups
    ∧ List.length chunks = List.length groups
    ∧ (1 ≤ List.length chunks ≤ List.length (split_paragraphs content))%nat
    ∧ ∀ j g, groups !! j = Some g →
        ∃ prefix,
          chunks !! j = Some (prefix +:+ PyStr.strip (join_paragraphs g))
          ∧ (j = 0 → prefix = "").
Proof.
  intros Hlen Hmany. unfold _chunk_content.
  destruct (Z.leb_spec (Z.of_nat (String.length content)) cs); [lia|].
  destruct (pack_paragraphs_groups cs (split_paragraphs content) [])
    as (groups & Hne & Hcat & Hpack).
  simpl in Hcat. change (join_paragraphs []) with "" in Hpack.
  pose proof (groups_length groups Hne) as Hbound. rewrite Hcat in Hbound.
  assert (Hsome : groups ≠ []).
  { intros ->. simpl in Hcat. symmetry in Hcat.
    by apply split_paragraphs_nonempty in Hcat. }
  exists groups.
  assert (Hgoal : ∃ chunks,
    match pack_paragraphs cs (split_paragraphs content) "" with
    | first :: (_ :: _) as rest => Some (first :: add_overlap ov first rest)
    | l => Some l
    end = Some chunks
    ∧ List.length chunks = List.length groups
    ∧ ∀ j g, groups !! j = Some g →
        ∃ prefix,
          chunks !! j = Some (prefix +:+ PyStr.strip (join_paragraphs g))
          ∧ (j = 0 → prefix = "")).
  { rewrite Hpack. clear Hpack Hcat Hbound Hne.
    destruct groups as [|g1 [|g2 groups]]; [done| |].
    - eexists. split; [done|]. split; [done|].
      intros [|j] g Hj; [|done]. simpl in Hj. simplify_eq. by exists "".
    - cbn [map]. eexists. split; [done|]. split.
      + simpl. by rewrite add_overlap_length, length_map.
      + intros [|j] g Hj; simpl in Hj.
        * simplify_eq. by exists "".
        * destruct (add_overlap_lookup ov
                      (PyStr.strip (join_paragraphs g2)
                       :: map (λ g, PyStr.strip (join_paragraphs g)) groups)
                      (PyStr.strip (join_paragraphs g1)) j
                      (PyStr.strip (join_paragraphs g))) as [prefix Hp].
          { destruct j as [|j]; simpl in *; [by simplify_eq|].
            by rewrite list_lookup_fmap, Hj. }
          exists prefix. split; [exact Hp|done]. }
  destruct Hgoal as (chunks & Hc & Hl & Hj). exists chunks.
  split; [|split; [done|split; [done|split; [done|split; [|done]]]]].
  - cbv zeta. rewrite <- Hc. clear -Hmany. revert Hmany.
    destruct (split_paragraphs content) as [|? [|? ?]]; intros Hmany;
      [|done|]; by destruct (pack_paragraphs _ _ _) as [|? [|? ?]].
  - rewrite Hl. split; [|done]. destruct groups; [done|simpl; lia].
Qed.

Lemma paragraph_chunks_join_paragraphs_witness :
  ∃ groups chunks,
    _chunk_content 500 50 two_paragraphs_5000 = Some chunks
    ∧ List.concat groups = split_paragraphs two_paragraphs_5000
    ∧ (1 ≤ List.length chunks ≤ 2)%nat.
Proof.
  destruct (paragraph_chunks_join_paragraphs 500 50 two_paragraphs_5000)
    as (groups & chunks & Hc & Hg & _ & _ & Hn & _).
  - by vm_compute.
  - by vm_compute.
  - exists groups, chunks. split; [exact Hc|]. split; [exact Hg|].
    replace (List.length (split_paragraphs two_paragraphs_5000)) with 2 in Hn
      by (by vm_compute).
    exact Hn.
Defined.

End ChunkerMore.

(** * More facts about rank fusion *)

Module RRFMore.

Import RRF RRFSpec RRFMoreSpec.
Import RRFFacts.

(** The ids of the output are the keys of the [scores] dict, sorted. *)
Lemma fusion_out_ids k l1 l2 out :
  _reciprocal_rank_fusion k l1 l2 = Ok out →
  ∃ scores,
    map fst scores = first_seen (ids_of l1 ++ ids_of l2)
    ∧ map out_id out = map fst (sorted_desc snd scores)
    ∧ map (λ r : MemoryEntry * float * Source, snd (fst r)) out
      = map snd (sorted_desc snd scores)
    ∧ Forall (λ r, snd r = source_of l1 l2 (out_id r)) out.
Proof.
  intros Hout.
  destruct (fusion_structure _ _ _ _ Hout)
    as (scores1 & entries1 & scores & entries & H1 & H2 & Hc).
  destruct (fusion_keys _ _ _ _ _ _ _ H1 H2) as [Hkeys _].
  pose proof (fusion_entries_keyed _ _ _ _ _ _ _ H1 H2) as Hid.
  pose proof (collect_Forall2 _ _ _ _ _ Hc) as HF.
  exists scores. split; [done|].
  clear Hc Hkeys H1 H2 Hout.
  induction HF as [|p o sorted out' (He & Hs & Hsrc) HF IH]; [by repeat split|].
  destruct IH as (IH1 & IH2 & IH3).
  apply Hid in He. unfold out_id in *. simpl.
  rewrite IH1, IH2, He, Hs. repeat split. constructor; [|done].
  by rewrite He.
Qed.

Lemma fusion_ids_NoDup k l1 l2 out :
  _reciprocal_rank_fusion k l1 l2 = Ok out → NoDup (map out_id out).
Proof.
  intros Hout.
  destruct (fusion_out_ids _ _ _ _ Hout) as (scores & Hkeys & Hids & _).
  assert (Hperm : map out_id out ≡ₚ first_seen (ids_of l1 ++ ids_of l2)).
  { rewrite Hids, <- Hkeys. apply fmap_Permutation, sorted_desc_perm. }
  rewrite Hperm. apply fold_see_NoDup, NoDup_nil_2.
Qed.

(** X12. Every id of the two lists is in the fused output exactly
    once, also when it is in both lists or several times in one: the
    ids of the output are the ids in the order the two loops first
    met them, rearranged. *)
Theorem fusion_output_ids_once k l1 l2 :
  ranks_ok k l1 l2 →
  ∃ out, _reciprocal_rank_fusion k l1 l2 = Ok out
    ∧ map out_id out ≡ₚ first_seen (ids_of l1 ++ ids_of l2)
    ∧ NoDup (map out_id out)
    ∧ ∀ i, i ∈ map out_id out ↔ i ∈ ids_of l1 ∨ i ∈ ids_of l2.
Proof.
  intros Hr. destruct (fusion_returns k l1 l2 Hr) as [out Hout]. exists out.
  split; [done|].
  destruct (fusion_out_ids _ _ _ _ Hout) as (scores & Hkeys & Hids & _).
  assert (Hperm : map out_id out ≡ₚ first_seen (ids_of l1 ++ ids_of l2)).
  { rewrite Hids, <- Hkeys. apply fmap_Permutation, sorted_desc_perm. }
  split; [done|]. split.
  - rewrite Hperm. apply fold_see_NoDup, NoDup_nil_2.
  - intros i. rewrite Hperm. unfold first_seen. rewrite fold_see_elem.
    rewrite elem_of_app. split; [|tauto].
    intros [H|H]; [by apply elem_of_nil in H|done].
Qed.

Lemma fusion_output_ids_once_witness :
  ∃ out, _reciprocal_rank_fusion 60 lexical_ABC semantic_BCA = Ok out
    ∧ NoDup (map out_id out).
Proof.
  destruct (fusion_output_ids_once 60 lexical_ABC semantic_BCA)
    as (out & Hout & _ & Hnd & _).
  - unfold ranks_ok. simpl. lia.
  - exists out. split; [exact Hout|exact Hnd].
Defined.

(** ** Sources *)

(** X13. The [source] of a fused result tells which lists hold its
    id: ["hybrid"] when both do, ["fts"] when only the lexical list
    does, ["semantic"] when only the semantic list does. *)
Theorem fusion_source_tells_lists k l1 l2 :
  ranks_ok k l1 l2 →
  ∃ out, _reciprocal_rank_fusion k l1 l2 = Ok out
    ∧ ∀ r, r ∈ out →
        (snd r = hybrid ↔ out_id r ∈ ids_of l1 ∧ out_id r ∈ ids_of l2)
        ∧ (snd r = fts ↔ out_id r ∈ ids_of l1 ∧ (out_id r ∉ ids_of l2))
        ∧ (snd r = semantic ↔ (out_id r ∉ ids_of l1) ∧ out_id r ∈ ids_of l2).
Proof.
  intros Hr. destruct (fusion_returns k l1 l2 Hr) as [out Hout]. exists out.
  split; [done|]. intros r Hin.
  destruct (fusion_out_ids _ _ _ _ Hout) as (scores & Hkeys & Hids & _ & Hsrc).
  rewrite Forall_forall in Hsrc. rewrite (Hsrc r Hin).
  assert (Hsome : out_id r ∈ ids_of l1 ∨ out_id r ∈ ids_of l2).
  { assert (Hi : out_id r ∈ map out_id out)
      by (apply list_elem_of_fmap; eauto).
    rewrite Hids in Hi.
    assert (Hp : map fst (sorted_desc snd scores) ≡ₚ map fst scores)
      by (apply fmap_Permutation, sorted_desc_perm).
    rewrite Hp, Hkeys in Hi. unfold first_seen in Hi.
    apply fold_see_elem in Hi as [Hi|Hi]; [by apply elem_of_nil in Hi|].
    by apply elem_of_app in Hi. }
  unfold source_of.
  destruct (bool_decide_reflect (out_id r ∈ ids_of l1)),
           (bool_decide_reflect (out_id r ∈ ids_of l2)); simpl;
    repeat split; try done; try tauto; intros [? ?]; done.
Qed.

Lemma fusion_source_tells_lists_witness :
  ∃ out, _reciprocal_rank_fusion 60 [(A, 1%float)] [(B, 1%float)] = Ok out
    ∧ ∀ r, r ∈ out → (snd r = fts ↔ out_id r ∈ ["A"] ∧ (out_id r ∉ ["B"])).
Proof.
  destruct (fusion_source_tells_lists 60 [(A, 1%float)] [(B, 1%float)])
    as (out & Hout & Hsrc).
  - unfold ranks_ok. simpl. lia.
  - exists out. split; [exact Hout|]. intros r Hr.
    destruct (Hsrc r Hr) as (_ & Hfts & _). exact Hfts.
Defined.

(** ** Order *)

Lemma float_ltb_asym (x y : float) :
  PrimFloat.ltb x y = true → PrimFloat.ltb y x = false.
Proof.
  rewrite !ltb_spec. unfold SFltb, SFcompare.
  destruct (Prim2SF x) as [[]|[]| |[] m1 e1],
           (Prim2SF y) as [[]|[]| |[] m2 e2]; simpl; try done.
  all: rewrite (Z.compare_antisym e1 e2).
  all: destruct (e1 ?= e2)%Z eqn:He; simpl; try done.
  all: pose proof (Pos.compare_cont_antisym m1 m2 Eq) as Hm; simpl in Hm.
  all: rewrite <- Hm.
  all: by destruct (Pos.compare_cont Eq m1 m2).
Qed.

Lemma insert_desc_descending {T} (key : T → float) (x : T) (l : list T) :
  descending key l → descending key (insert_desc key x l).
Proof.
  induction l as [|y l IH]; intros Hl; [done|].
  cbn [insert_desc]. destruct (PrimFloat.ltb (key x) (key y)) eqn:Hlt.
  - specialize (IH ltac:(by destruct l as [|? ?]; [|destruct Hl])).
    destruct l as [|z l]; cbn [insert_desc] in *.
    + split; [by apply float_ltb_asym|done].
    + destruct Hl as [Hyz Hl].
      destruct (PrimFloat.ltb (key x) (key z)); (split; [|done]);
        [done|by apply float_ltb_asym].
  - by split.
Qed.

Lemma sorted_desc_descending {T} (key : T → float) (l : list T) :
  descending key (sorted_desc key l).
Proof.
  induction l as [|x l IH]; [done|]. by apply insert_desc_descending.
Qed.

Lemma descending_map {T U} (f : T → U) (key : U → float) (l : list T) :
  descending (λ x, key (f x)) l ↔ descending key (map f l).
Proof.
  induction l as [|a [|b l] IH]; [done|done|].
  change (descending key (map f (a :: b :: l)))
    with (PrimFloat.ltb (key (f a)) (key (f b)) = false
          ∧ descending key (map f (b :: l))).
  change (descending (λ x, key (f x)) (a :: b :: l))
    with (PrimFloat.ltb (key (f a)) (key (f b)) = false
          ∧ descending (λ x, key (f x)) (b :: l)).
  by rewrite IH.
Qed.

Lemma descending_lookup {T} (key : T → float) (l : list T) :
  descending key l →
  ∀ j x y, l !! j = Some x → l !! (S j) = Some y →
           PrimFloat.ltb (key x) (key y) = false.
Proof.
  induction l as [|a [|b l] IH]; intros Hl j x y Hx Hy; [done|by destruct j|].
  destruct Hl as [Hab Hl]. destruct j as [|j]; simpl in Hx, Hy.
  - by simplify_eq.
  - by eapply IH.
Qed.

(** X14. The fused output is in descending order of score: no result
    is directly followed by one with a strictly greater score. *)
Theorem fusion_output_descending k l1 l2 :
  ranks_ok k l1 l2 →
  ∃ out, _reciprocal_rank_fusion k l1 l2 = Ok out
    ∧ ∀ j x y, out !! j = Some x → out !! (S j) = Some y →
        PrimFloat.ltb (snd (fst x)) (snd (fst y)) = false.
Proof.
  intros Hr. destruct (fusion_returns k l1 l2 Hr) as [out Hout]. exists out.
  split; [done|].
  destruct (fusion_out_ids _ _ _ _ Hout) as (scores & _ & _ & Hscores & _).
  apply (descending_lookup (λ r : MemoryEntry * float * Source, snd (fst r))).
  apply (descending_map (λ r : MemoryEntry * float * Source, snd (fst r))
           (λ s : float, s)).
  rewrite Hscores.
  apply (descending_map (snd : string * float → float) (λ s : float, s)).
  apply (sorted_desc_descending (snd : string * float → float)).
Qed.

Lemma fusion_output_descending_witness :
  ∃ out, _reciprocal_rank_fusion 60 lexical_ABC semantic_BCA = Ok out
    ∧ ∀ j x y, out !! j = Some x → out !! (S j) = Some y →
        PrimFloat.ltb (snd (fst x)) (snd (fst y)) = false.
Proof.
  apply (fusion_output_descending 60 lexical_ABC semantic_BCA).
  unfold ranks_ok. simpl. lia.
Defined.

(** ** Where the entries come from *)

Lemma rrf_pass_entries_from k l : ∀ rank scores entries s' e' i x,
  rrf_pass k rank l scores entries = Ok (s', e') →
  dict_get i e' = Some x →
  x ∈ map fst l ∨ ((i ∉ ids_of l) ∧ dict_get i entries = Some x).
Proof.
  induction l as [|[entry sc] l IH]; intros rank scores entries s' e' i x Hp Hx;
    simpl in Hp.
  - simplify_eq. right. split; [apply not_elem_of_nil|done].
  - destruct (PyNum.one_over_int (Z.of_nat rank + k)) as [c|]; [|done].
    destruct (IH _ _ _ _ _ _ _ Hp Hx) as [Hin|[Hnin Hget]].
    + left. simpl. by right.
    + destruct (decide (id entry = i)) as [<-|Hne].
      * rewrite dict_get_set_eq in Hget. simplify_eq. left. simpl. by left.
      * rewrite dict_get_set_ne in Hget by done. right. split; [|done].
        simpl. apply not_elem_of_cons. split; [done|exact Hnin].
Qed.

(** X15. Fusion invents no entry: every fused result carries an
    entry of the lexical or of the semantic list, and the one of the
    semantic list whenever that list holds its id (the second loop
    overwrites [entries[entry.id]]). *)
Theorem fusion_entries_from_lists k l1 l2 :
  ranks_ok k l1 l2 →
  ∃ out, _reciprocal_rank_fusion k l1 l2 = Ok out
    ∧ ∀ r, r ∈ out →
        (fst (fst r) ∈ map fst l1 ∨ fst (fst r) ∈ map fst l2)
        ∧ (out_id r ∈ ids_of l2 → fst (fst r) ∈ map fst l2).
Proof.
  intros Hr. destruct (fusion_returns k l1 l2 Hr) as [out Hout]. exists out.
  split; [done|]. intros r Hin.
  destruct (fusion_structure _ _ _ _ Hout)
    as (scores1 & entries1 & scores & entries & H1 & H2 & Hc).
  pose proof (fusion_entries_keyed _ _ _ _ _ _ _ H1 H2) as Hid.
  pose proof (collect_Forall2 _ _ _ _ _ Hc) as HF.
  apply list_elem_of_lookup in Hin as [n Hn].
  destruct (Forall2_lookup_r _ _ _ _ _ HF Hn) as (p & _ & He & _).
  pose proof (Hid _ _ He) as Hp.
  destruct (rrf_pass_entries_from _ _ _ _ _ _ _ _ _ H2 He) as [H|[Hnin He1]].
  - split; [by right|done].
  - unfold out_id. rewrite Hp. split; [|done]. left.
    destruct (rrf_pass_entries_from _ _ _ _ _ _ _ _ _ H1 He1) as [H|[_ H]];
      done.
Qed.

Lemma fusion_entries_from_lists_witness :
  ∃ out, _reciprocal_rank_fusion 60 lexical_ABC semantic_BCA = Ok out
    ∧ ∀ r, r ∈ out → fst (fst r) ∈ map fst semantic_BCA.
Proof.
  destruct (fusion_entries_from_lists 60 lexical_ABC semantic_BCA)
    as (out & Hout & Hfrom).
  - unfold ranks_ok. simpl. lia.
  - exists out. split; [exact Hout|]. intros r Hr.
    destruct (Hfrom r Hr) as [_ Hsem]. apply Hsem.
    assert (Hall : Forall (λ r, out_id r ∈ ids_of semantic_BCA) out).
    { vm_compute in Hout. injection Hout as <-.
      repeat constructor; apply (bool_decide_unpack _); vm_compute; exact I. }
    rewrite Forall_forall in Hall. by apply Hall.
Defined.

End RRFMore.

(** * More facts about the memory graph *)

Module GraphMore.

Import Graph GraphSpec GraphMoreSpec.
Import GraphFacts.

(** ** The chunk loop of [store] *)

Lemma same_config_refl (g : MemoryGraph) : same_config g g.
Proof. by repeat split. Qed.

Lemma same_config_trans (g1 g2 g3 : MemoryGraph) :
  same_config g1 g2 → same_config g2 g3 → same_config g1 g3.
Proof.
  unfold same_config. intros (?&?&?&?&?&?&?&?) (?&?&?&?&?&?&?&?).
  repeat split; congruence.
Qed.

Lemma embed_chunk_config env i chunk chunk_id memory_id memory_type
    (g : MemoryGraph) :
  same_config g (embed_chunk env i chunk chunk_id memory_id memory_type g).
Proof.
  unfold embed_chunk.
  destruct (_qdrant_available g) eqn:Hq; [|apply same_config_refl].
  destruct (_embedding_engine g) as [engine|]; [|apply same_config_refl].
  destruct (Embeddings.embed (store_http env i) chunk engine) as [[engine' r] c].
  destruct r; [|by repeat split].
  destruct (qdrant_upsert env i); by repeat split.
Qed.

Lemma dict_set_twice {V} (k : string) (v w : V) (d : list (string * V)) :
  dict_set k v (dict_set k w d) = dict_set k v d.
Proof.
  induction d as [|[k' x] d IH]; simpl.
  - by rewrite decide_True.
  - destruct (decide (k' = k)) as [->|Hne]; simpl.
    + by rewrite decide_True.
    + rewrite decide_False by done. by rewrite IH.
Qed.

Lemma chunk_metadata_after metadata memory_id total i j :
  chunk_metadata_of (metadata_after metadata memory_id total i) memory_id total j
  = chunk_metadata_of metadata memory_id total j.
Proof.
  unfold metadata_after, chunk_metadata_of.
  destruct (truthy metadata) eqn:Ht; [|done].
  destruct (1 <? total)%nat; simpl; [|done]. by rewrite dict_set_twice.
Qed.

Lemma truthy_metadata_after metadata memory_id total i :
  truthy (metadata_after metadata memory_id total i) = truthy metadata.
Proof.
  unfold metadata_after, chunk_metadata_of.
  destruct (truthy metadata) eqn:Ht; [|done].
  destruct metadata as [[|[k v] d]|]; try done.
  destruct (1 <? total)%nat; simpl; [|done].
  by destruct (decide (k = "chunk")).
Qed.

Lemma metadata_after_twice metadata memory_id total i j :
  metadata_after (metadata_after metadata memory_id total i) memory_id total j
  = metadata_after metadata memory_id total j.
Proof.
  unfold metadata_after at 1.
  rewrite truthy_metadata_after, chunk_metadata_after.
  unfold metadata_after. by destruct (truthy metadata).
Qed.

Lemma chunk_rows_metadata_after sha env memory_id h memory_type total metadata
    (g : MemoryGraph) k chunks :
  ∀ i, chunk_rows sha env memory_id h memory_type total
         (metadata_after metadata memory_id total k) g i chunks
       = chunk_rows sha env memory_id h memory_type total metadata g i chunks.
Proof.
  induction chunks as [|c chunks IH]; intros i; simpl; [done|].
  rewrite IH. unfold chunk_row. by rewrite chunk_metadata_after.
Qed.

Lemma chunk_rows_config sha env memory_id h memory_type total metadata
    (g g' : MemoryGraph) chunks :
  same_config g g' →
  ∀ i, chunk_rows sha env memory_id h memory_type total metadata g' i chunks
       = chunk_rows sha env memory_id h memory_type total metadata g i chunks.
Proof.
  intros (Hm & _ & Hv & _). induction chunks as [|c chunks IH]; intros i; simpl;
    [done|].
  rewrite IH. unfold chunk_row. by rewrite Hm, Hv.
Qed.

Lemma chunk_rows_lookup sha env memory_id h memory_type total metadata
    (g : MemoryGraph) chunks :
  ∀ i j,
    chunk_rows sha env memory_id h memory_type total metadata g i chunks !! j
    = chunk_row sha env memory_id h memory_type total metadata g (i + j)
      <$> chunks !! j.
Proof.
  induction chunks as [|c chunks IH]; intros i j; [done|].
  destruct j as [|j]; simpl.
  - by rewrite Nat.add_0_r.
  - rewrite IH. by rewrite Nat.add_succ_r.
Qed.

Lemma chunk_rows_length sha env memory_id h memory_type total metadata
    (g : MemoryGraph) chunks :
  ∀ i, List.length (chunk_rows sha env memory_id h memory_type total metadata
                      g i chunks) = List.length chunks.
Proof.
  induction chunks as [|c chunks IH]; intros i; simpl; [done|by rewrite IH].
Qed.

(** The chunk loop, whatever its outcome: it appends the rows of the
    first [n] chunks, in order, and nothing else happens to the
    table; it raises exactly when the insert of chunk [n] raises, and
    otherwise went through all the chunks. *)
Lemma store_chunks_spec sha env memory_id h memory_type total :
  ∀ chunks i metadata (g : MemoryGraph) rows,
    _conn g = Some (mkConn false rows) →
    ∃ n g' metadata' r,
      store_chunks sha env memory_id h memory_type total i chunks metadata g
      = (g', metadata', r)
      ∧ (n ≤ List.length chunks)%nat
      ∧ _conn g' = Some (mkConn false
                           (rows ++ take n (chunk_rows sha env memory_id h
                                              memory_type total metadata g i
                                              chunks)))
      ∧ same_config g g'
      ∧ (∀ m chunk, (m < n)%nat → chunks !! m = Some chunk →
           insert_row
             (chunk_row sha env memory_id h memory_type total metadata g
                (i + m) chunk)
             (rows ++ take m (chunk_rows sha env memory_id h memory_type total
                                metadata g i chunks))
           = Ok (rows ++ take (S m) (chunk_rows sha env memory_id h memory_type
                                       total metadata g i chunks)))
      ∧ match r with
        | Ok _ =>
            n = List.length chunks
            ∧ metadata' = match chunks with
                          | [] => metadata
                          | _ :: _ =>
                              metadata_after metadata memory_id total
                                (i + List.length chunks - 1)
                          end
        | Raise e =>
            ∃ chunk, chunks !! n = Some chunk
              ∧ insert_row
                  (chunk_row sha env memory_id h memory_type total metadata g
                     (i + n) chunk)
                  (rows ++ take n (chunk_rows sha env memory_id h memory_type
                                     total metadata g i chunks))
                = Raise e
        end.
Proof.
  induction chunks as [|chunk rest IH]; intros i metadata g rows Hconn.
  - exists 0, g, metadata, (Ok tt). simpl. rewrite app_nil_r.
    repeat split; try done; intros; lia.
  - cbn [store_chunks]. unfold with_conn. rewrite Hconn. cbn [closed memories].
    fold (chunk_id_of memory_id total i).
    fold (chunk_metadata_of metadata memory_id total i).
    fold (metadata_after metadata memory_id total i).
    fold (chunk_row sha env memory_id h memory_type total metadata g i chunk).
    destruct (insert_row _ rows) as [rows1|e] eqn:Hins.
    + pose proof Hins as Hins0. apply insert_row_Ok in Hins. subst rows1.
      set (g1 := embed_chunk env i chunk (chunk_id_of memory_id total i)
                   memory_id memory_type
                   (set_rows (rows ++ [chunk_row sha env memory_id h memory_type
                                         total metadata g i chunk]) g)).
      assert (Hc1 : _conn g1
                    = Some (mkConn false
                              (rows ++ [chunk_row sha env memory_id h memory_type
                                          total metadata g i chunk]))).
      { unfold g1. by rewrite (proj1 (embed_chunk_conn _ _ _ _ _ _ _)). }
      assert (Hcfg : same_config g g1).
      { unfold g1. eapply same_config_trans; [|apply embed_chunk_config].
        by repeat split. }
      destruct (IH (S i) (metadata_after metadata memory_id total i) g1 _ Hc1)
        as (n & g' & md' & r & Hs & Hn & Hconn' & Hcfg' & Hfresh & Hr).
      rewrite chunk_rows_metadata_after, (chunk_rows_config _ _ _ _ _ _ _ _ _ _ Hcfg)
        in Hconn'.
      exists (S n), g', md', r. split; [exact Hs|].
      split; [simpl; lia|]. split.
      { rewrite Hconn'. cbn [chunk_rows take]. by rewrite <- app_assoc. }
      split; [by eapply same_config_trans|].
      split.
      { intros [|m] c Hm Hc; simpl in Hc.
        - simplify_eq. rewrite Nat.add_0_r. simpl. by rewrite app_nil_r.
        - specialize (Hfresh m c ltac:(lia) Hc).
          rewrite chunk_rows_metadata_after,
            (chunk_rows_config _ _ _ _ _ _ _ _ _ _ Hcfg) in Hfresh.
          cbn [chunk_rows take]. rewrite <- !app_assoc in Hfresh.
          unfold chunk_row in Hfresh |- *. rewrite chunk_metadata_after in Hfresh.
          destruct Hcfg as (Hm' & _ & Hv' & _). rewrite Hm', Hv' in Hfresh.
          by rewrite Nat.add_succ_r. }
      destruct r as [[]|e].
      * destruct Hr as [-> ->]. split; [done|].
        destruct rest as [|c2 rest]; simpl.
        -- by rewrite Nat.add_1_r, Nat.sub_succ, Nat.sub_0_r.
        -- rewrite metadata_after_twice. f_equal. lia.
      * destruct Hr as (c & Hc & Hi). exists c. split; [done|].
        rewrite chunk_rows_metadata_after,
          (chunk_rows_config _ _ _ _ _ _ _ _ _ _ Hcfg) in Hi.
        cbn [chunk_rows take]. rewrite <- app_assoc in Hi.
        unfold chunk_row in Hi |- *. rewrite chunk_metadata_after in Hi.
        destruct Hcfg as (Hm & _ & Hv & _). rewrite Hm, Hv in Hi.
        by rewrite Nat.add_succ_r.
    + exists 0, g, (metadata_after metadata memory_id total i), (Raise e).
      split; [done|]. split; [lia|]. simpl. rewrite app_nil_r.
      split; [done|]. split; [apply same_config_refl|].
      split; [intros; lia|].
      exists chunk. split; [done|]. by rewrite Nat.add_0_r.
Qed.

(** ** [store] of a content that is new *)

(** [store] on an initialized graph whose table has no row with the
    hash of the content: the rows of the first [n] chunks are
    appended; with all of them in and the event published the entry
    is returned, otherwise the failure of the insert or of the
    publication. *)
Lemma store_new_spec sha env content metadata memory_type (g : MemoryGraph)
    rows chunks :
  _initialized g = true →
  _conn g = Some (mkConn false rows) →
  select_by_hash (sha content) rows = None →
  chunks_of g content = Some chunks →
  ∃ n g1 r,
    store sha env content metadata memory_type g = Some (g1, r)
    ∧ (n ≤ List.length chunks)%nat
    ∧ rows_of g1
      = rows ++ take n (rows_for sha env content metadata memory_type g chunks)
    ∧ _conn g1 = Some (mkConn false (rows_of g1))
    ∧ same_config g g1
    ∧ (∀ m chunk, (m < n)%nat → chunks !! m = Some chunk →
         insert_row
           (chunk_row sha env ("mem_" +:+ uuid_hex env) (sha content)
              memory_type (List.length chunks) metadata g m chunk)
           (rows ++ take m (rows_for sha env content metadata memory_type g
                              chunks))
         = Ok (rows ++ take (S m) (rows_for sha env content metadata
                                     memory_type g chunks)))
    ∧ match r with
      | Success e =>
          n = List.length chunks ∧ publish env = Ok tt
          ∧ e = new_entry sha env content metadata memory_type g chunks
      | Failure error =>
          (∃ chunk e,
             chunks !! n = Some chunk
             ∧ insert_row
                 (chunk_row sha env ("mem_" +:+ uuid_hex env) (sha content)
                    memory_type (List.length chunks) metadata g n chunk)
                 (rows ++ take n (rows_for sha env content metadata memory_type
                                    g chunks))
               = Raise e
             ∧ error = store_failure e)
          ∨ (n = List.length chunks
             ∧ ∃ e, publish env = Raise e ∧ error = store_failure e)
      end.
Proof.
  intros Hinit Hconn Hsel Hchunks. unfold store, get_by_hash, with_conn.
  rewrite Hinit, Hconn. cbn [negb closed memories]. rewrite Hsel.
  cbn [fmap option_fmap option_map].
  unfold chunks_of in Hchunks. rewrite Hchunks.
  destruct (store_chunks_spec sha env ("mem_" +:+ uuid_hex env) (sha content)
              memory_type (List.length chunks) chunks 0 metadata g rows Hconn)
    as (n & g' & md' & r & Hs & Hn & Hconn' & Hcfg & Hfresh & Hr).
  rewrite Hs. fold (rows_for sha env content metadata memory_type g chunks) in *.
  assert (Hrows : rows_of g'
                  = rows ++ take n (rows_for sha env content metadata
                                      memory_type g chunks)).
  { unfold rows_of. by rewrite Hconn'. }
  assert (Hfail : ∀ e : exn,
            match exn_kind_of e with
            | IntegrityError =>
                (g', Failure ("Database integrity error: " +:+ exn_msg e))
            | _ => (g', Failure ("Failed to store memory: " +:+ exn_msg e))
            end = (g', Failure (T := MemoryEntry) (store_failure e))).
  { intros e. unfold store_failure. by destruct (exn_kind_of e). }
  assert (Hcommon :
    rows_of g'
    = rows ++ take n (rows_for sha env content metadata memory_type g chunks)
    ∧ _conn g' = Some (mkConn false (rows_of g'))
    ∧ same_config g g'
    ∧ (∀ m chunk, (m < n)%nat → chunks !! m = Some chunk →
         insert_row
           (chunk_row sha env ("mem_" +:+ uuid_hex env) (sha content)
              memory_type (List.length chunks) metadata g m chunk)
           (rows ++ take m (rows_for sha env content metadata memory_type g
                              chunks))
         = Ok (rows ++ take (S m) (rows_for sha env content metadata
                                     memory_type g chunks)))).
  { split; [done|]. split; [by rewrite Hrows|]. split; [done|]. exact Hfresh. }
  destruct Hcommon as (H1 & H2 & H3 & H4).
  destruct r as [[]|e].
  - destruct Hr as [-> ->].
    destruct (publish env) as [[]|e] eqn:Hpub.
    + exists (List.length chunks), g'. eexists. split; [reflexivity|].
      do 5 (split; [done|]). split; [done|]. split; [done|].
      unfold new_entry. by destruct Hcfg as (-> & _).
    + rewrite Hfail. exists (List.length chunks), g'. eexists.
      split; [reflexivity|]. do 5 (split; [done|]).
      right. split; [done|]. by exists e.
  - destruct Hr as (chunk & Hc & Hins). rewrite Hfail.
    exists n, g'. eexists. split; [reflexivity|]. do 5 (split; [done|]).
    left. by exists chunk, e.
Qed.

(** ** Rows by id and by hash *)

Lemma select_by_id_None i rows :
  select_by_id i rows = None ↔ i ∉ map row_id rows.
Proof.
  unfold select_by_id. induction rows as [|r rows IH]; simpl.
  - split; [intros _; apply not_elem_of_nil|done].
  - rewrite not_elem_of_cons.
    destruct (bool_decide_reflect (row_id r = i)) as [Heq|Hne].
    + split; [done|]. by intros [? _].
    + rewrite IH. split; [by split|by intros [_ ?]].
Qed.

Lemma select_by_hash_None h rows :
  select_by_hash h rows = None ↔ h ∉ map row_content_hash rows.
Proof.
  unfold select_by_hash. induction rows as [|r rows IH]; simpl.
  - split; [intros _; apply not_elem_of_nil|done].
  - rewrite not_elem_of_cons.
    destruct (bool_decide_reflect (row_content_hash r = h)) as [Heq|Hne].
    + split; [done|]. by intros [? _].
    + rewrite IH. split; [by split|by intros [_ ?]].
Qed.

Lemma insert_row_iff r rows :
  (insert_row r rows = Ok (rows ++ [r])
   ↔ (row_id r ∉ map row_id rows)
     ∧ (row_content_hash r ∉ map row_content_hash rows))
  ∧ (row_id r ∈ map row_id rows →
     insert_row r rows
     = Raise (Exn IntegrityError "UNIQUE constraint failed: memories.id"))
  ∧ ((row_id r ∉ map row_id rows) →
     row_content_hash r ∈ map row_content_hash rows →
     insert_row r rows
     = Raise (Exn IntegrityError
                "UNIQUE constraint failed: memories.content_hash")).
Proof.
  unfold insert_row.
  destruct (bool_decide_reflect (row_id r ∈ map row_id rows)) as [Hi|Hi];
    [|destruct (bool_decide_reflect
                  (row_content_hash r ∈ map row_content_hash rows)) as [Hh|Hh]].
  - split; [split; [done|by intros [? _]]|]. by split.
  - split; [split; [done|by intros [_ ?]]|]. by split.
  - split; [done|]. by split.
Qed.

Lemma select_by_id_app i rows rows' :
  select_by_id i (rows ++ rows')
  = match select_by_id i rows with
    | Some r => Some r
    | None => select_by_id i rows'
    end.
Proof.
  unfold select_by_id. induction rows as [|x rows IH]; simpl; [done|].
  by destruct (bool_decide (row_id x = i)).
Qed.

Lemma select_by_hash_app' h rows rows' :
  select_by_hash h (rows ++ rows')
  = match select_by_hash h rows with
    | Some r => Some r
    | None => select_by_hash h rows'
    end.
Proof.
  unfold select_by_hash. induction rows as [|x rows IH]; simpl; [done|].
  by destruct (bool_decide (row_content_hash x = h)).
Qed.

(** ** Content that fits one chunk *)

(** X16. Store, then look up. On an initialized graph whose table
    has neither the hash of the content nor the new id, a content
    of at most [chunk_size] characters is stored as one row and the
    entry is returned; [get_by_id] with the returned id and
    [get_by_hash] with the hash of the content then give that entry
    back, with the timestamp of the database in place of the one of
    the entry object. *)
Theorem store_then_get sha env content metadata memory_type (g : MemoryGraph)
    rows :
  _initialized g = true →
  _conn g = Some (mkConn false rows) →
  select_by_hash (sha content) rows = None →
  select_by_id ("mem_" +:+ uuid_hex env) rows = None →
  (Z.of_nat (String.length content) ≤ chunk_size g)%Z →
  publish env = Ok tt →
  ∃ g1 e,
    store sha env content metadata memory_type g = Some (g1, Success e)
    ∧ id e = "mem_" +:+ uuid_hex env
    ∧ Types.content e = content
    ∧ content_hash e = sha content
    ∧ Types.metadata e = metadata_or_empty metadata
    ∧ Types.memory_type e = memory_type
    ∧ List.length (rows_of g1) = S (List.length rows)
    ∧ get_by_id (id e) g1 = Ok (Some (with_timestamp (db_now env) e))
    ∧ get_by_hash (sha content) g1 = Ok (Some (with_timestamp (db_now env) e)).
Proof.
  intros Hinit Hconn Hhash Hid Hlen Hpub.
  assert (Hchunks : chunks_of g content = Some [content]).
  { unfold chunks_of.
    by destruct (Z.ltb_spec (chunk_size g) (Z.of_nat (String.length content)));
      [lia|]. }
  destruct (store_new_spec sha env content metadata memory_type g rows [content]
              Hinit Hconn Hhash Hchunks)
    as (n & g1 & r & Hstore & Hn & Hrows & Hconn1 & _ & _ & Hr).
  set (row := chunk_row sha env ("mem_" +:+ uuid_hex env) (sha content)
                memory_type 1 metadata g 0 content) in *.
  assert (Hins : insert_row row rows = Ok (rows ++ [row])).
  { apply insert_row_iff. split.
    - by apply select_by_id_None.
    - by apply select_by_hash_None. }
  assert (Hmeta : Types.metadata
                    (new_entry sha env content metadata memory_type g [content])
                  = metadata_or_empty metadata).
  { unfold new_entry, metadata_after, chunk_metadata_of. simpl.
    by destruct metadata as [[|? ?]|]. }
  destruct r as [e|error].
  - destruct Hr as (-> & _ & ->). exists g1. eexists. split; [exact Hstore|].
    do 5 (split; [done|]).
    change (take 1 (rows_for sha env content metadata memory_type g [content]))
      with [row] in Hrows.
    split; [rewrite Hrows, length_app; simpl; lia|].
    assert (Hentry : _row_to_entry row
                     = with_timestamp (db_now env)
                         (new_entry sha env content metadata memory_type g
                            [content])).
    { unfold _row_to_entry, with_timestamp. rewrite Hmeta. done. }
    change (id (new_entry sha env content metadata memory_type g [content]))
      with ("mem_" +:+ uuid_hex env).
    unfold get_by_id, get_by_hash, with_conn. rewrite Hconn1, Hrows.
    cbn [closed memories].
    rewrite select_by_id_app, select_by_hash_app', Hid, Hhash. simpl.
    change (chunk_id_of ("mem_" +:+ uuid_hex env) 1 0)
      with ("mem_" +:+ uuid_hex env).
    rewrite !bool_decide_eq_true_2 by done. fold row.
    cbn [fmap option_fmap option_map]. by rewrite Hentry.
  - exfalso. destruct Hr as [(chunk & e & Hc & Hraise & _)|(_ & e & He & _)].
    + destruct n as [|n]; [|by destruct n]. simpl in Hc. simplify_eq.
      simpl in Hraise. rewrite app_nil_r in Hraise. fold row in Hraise.
      congruence.
    + congruence.
Qed.

Lemma store_then_get_witness :
  ∃ g1 e,
    store toy_hash (store_env "0123456789ab" 1) "Neura is local-first" None NOTE
      fresh_graph = Some (g1, Success e)
    ∧ get_by_id (id e) g1 = Ok (Some (with_timestamp 1 e)).
Proof.
  destruct (store_then_get toy_hash (store_env "0123456789ab" 1)
              "Neura is local-first" None NOTE fresh_graph [])
    as (g1 & e & Hs & _ & _ & _ & _ & _ & _ & Hget & _);
    [reflexivity|reflexivity|reflexivity|reflexivity|by vm_compute|reflexivity|].
  exists g1, e. split; [exact Hs|exact Hget].
Defined.

(** ** Content that is cut into chunks *)

Lemma insert_row_Ok_fresh r rows rows' :
  insert_row r rows = Ok rows' →
  (row_id r ∉ map row_id rows)
  ∧ (row_content_hash r ∉ map row_content_hash rows).
Proof.
  unfold insert_row.
  destruct (bool_decide_reflect (row_id r ∈ map row_id rows)); [done|].
  by destruct (bool_decide_reflect
                 (row_content_hash r ∈ map row_content_hash rows)).
Qed.

(** What a successful [store] of a new content did. *)
Lemma store_success_inv sha env content metadata memory_type (g g1 : MemoryGraph)
    e rows chunks :
  _conn g = Some (mkConn false rows) →
  select_by_hash (sha content) rows = None →
  chunks_of g content = Some chunks →
  store sha env content metadata memory_type g = Some (g1, Success e) →
  e = new_entry sha env content metadata memory_type g chunks
  ∧ rows_of g1 = rows ++ rows_for sha env content metadata memory_type g chunks
  ∧ _conn g1 = Some (mkConn false (rows_of g1))
  ∧ same_config g g1
  ∧ ∀ m chunk, chunks !! m = Some chunk →
      insert_row
        (chunk_row sha env ("mem_" +:+ uuid_hex env) (sha content)
           memory_type (List.length chunks) metadata g m chunk)
        (rows ++ take m (rows_for sha env content metadata memory_type g chunks))
      = Ok (rows ++ take (S m) (rows_for sha env content metadata memory_type
                                  g chunks)).
Proof.
  intros Hconn Hhash Hchunks Hstore.
  assert (Hinit : _initialized g = true).
  { unfold store in Hstore. by destruct (_initialized g). }
  destruct (store_new_spec sha env content metadata memory_type g rows chunks
              Hinit Hconn Hhash Hchunks)
    as (n & g1' & r & Hstore' & Hn & Hrows & Hconn1 & Hcfg & Hfresh & Hr).
  rewrite Hstore in Hstore'. simplify_eq. destruct Hr as (-> & _ & ->).
  split; [done|]. split.
  { rewrite Hrows. f_equal. apply firstn_all2.
    unfold rows_for. by rewrite chunk_rows_length. }
  split; [done|]. split; [done|].
  intros m chunk Hm. apply Hfresh; [|done]. by eapply lookup_lt_Some.
Qed.

Lemma chunk_id_ne (memory_id : string) (total i : nat) :
  (1 < total)%nat → chunk_id_of memory_id total i ≠ memory_id.
Proof.
  intros Ht. unfold chunk_id_of.
  destruct (Nat.ltb_spec 1 total); [|lia]. by apply append_ne.
Qed.

Lemma rows_for_lookup sha env content metadata memory_type (g : MemoryGraph)
    chunks j :
  rows_for sha env content metadata memory_type g chunks !! j
  = chunk_row sha env ("mem_" +:+ uuid_hex env) (sha content) memory_type
      (List.length chunks) metadata g j <$> chunks !! j.
Proof. unfold rows_for. by rewrite chunk_rows_lookup. Qed.

Lemma delete_row_notin i rows :
  i ∉ map row_id rows → delete_row i rows = rows.
Proof.
  unfold delete_row. induction rows as [|r rows IH]; simpl; [done|].
  rewrite not_elem_of_cons. intros [Hne Hn].
  rewrite bool_decide_eq_false_2 by done. simpl. by rewrite IH.
Qed.

(** X17. For a content that is cut into more than one chunk, the id
    [store] returns names no row. The rows are those of the chunks,
    each under its own id [<id>_chunk<j>]: [get_by_id] with the
    returned id finds nothing, [delete] with it removes no row, and
    each chunk is found under its chunk id. *)
Theorem chunked_store_id_names_no_row sha env content metadata memory_type
    (g g1 : MemoryGraph) e rows chunks :
  _conn g = Some (mkConn false rows) →
  select_by_hash (sha content) rows = None →
  select_by_id ("mem_" +:+ uuid_hex env) rows = None →
  chunks_of g content = Some chunks →
  (1 < List.length chunks)%nat →
  store sha env content metadata memory_type g = Some (g1, Success e) →
  id e = "mem_" +:+ uuid_hex env
  ∧ Types.content e = content
  ∧ List.length (rows_of g1) = (List.length rows + List.length chunks)%nat
  ∧ get_by_id (id e) g1 = Ok None
  ∧ (∀ denv, rows_of (fst (delete denv (id e) g1)) = rows_of g1)
  ∧ (∀ j chunk, chunks !! j = Some chunk →
       ∃ e', get_by_id (id e +:+ "_chunk" +:+ PyStr.of_nat j) g1 = Ok (Some e')
             ∧ Types.content e' = chunk).
Proof.
  intros Hconn Hhash Hid Hchunks Hmany Hstore.
  destruct (store_success_inv _ _ _ _ _ _ _ _ _ _ Hconn Hhash Hchunks Hstore)
    as (-> & Hrows & Hconn1 & _ & Hfresh).
  set (new := rows_for sha env content metadata memory_type g chunks) in *.
  change (id (new_entry sha env content metadata memory_type g chunks))
    with ("mem_" +:+ uuid_hex env).
  assert (Hnone : ("mem_" +:+ uuid_hex env) ∉ map row_id (rows_of g1)).
  { rewrite Hrows, map_app, not_elem_of_app. split; [by apply select_by_id_None|].
    intros Hin. apply list_elem_of_fmap in Hin as (r & Hr & Hin).
    apply list_elem_of_lookup in Hin as [j Hj].
    unfold new in Hj. rewrite rows_for_lookup in Hj.
    destruct (chunks !! j) as [c|]; [|done]. simpl in Hj. simplify_eq.
    simpl in Hr. symmetry in Hr. by apply chunk_id_ne in Hr. }
  split; [done|]. split; [done|]. split.
  { rewrite Hrows, length_app. unfold new, rows_for.
    by rewrite chunk_rows_length. }
  split.
  { unfold get_by_id, with_conn. rewrite Hconn1. cbn [closed memories].
    apply select_by_id_None in Hnone. by rewrite Hnone. }
  split.
  { intros denv. unfold delete.
    set (g2 := if _qdrant_available g1 then _ else _).
    assert (Hconn2 : _conn g2 = _conn g1).
    { unfold g2. destruct (_qdrant_available g1); [|done].
      by destruct (qdrant_delete denv). }
    unfold with_conn. rewrite Hconn2, Hconn1. cbn [closed memories].
    destruct (sqlite_error denv); cbn [fst].
    - unfold rows_of. by rewrite Hconn2.
    - by rewrite delete_row_notin. }
  intros j chunk Hj.
  specialize (Hfresh j chunk Hj).
  apply insert_row_Ok_fresh in Hfresh as [Hidj _].
  set (row := chunk_row sha env ("mem_" +:+ uuid_hex env) (sha content)
                memory_type (List.length chunks) metadata g j chunk) in *.
  assert (Hrow : new !! j = Some row).
  { unfold new. by rewrite rows_for_lookup, Hj. }
  exists (_row_to_entry row). split; [|done].
  assert (Hcid : row_id row
                 = ("mem_" +:+ uuid_hex env) +:+ "_chunk" +:+ PyStr.of_nat j).
  { unfold row, chunk_row, chunk_id_of. simpl.
    by destruct (Nat.ltb_spec 1 (List.length chunks)); [|lia]. }
  unfold get_by_id, with_conn. rewrite Hconn1, Hrows. cbn [closed memories].
  rewrite <- (take_drop_middle new j row Hrow), (assoc_L app).
  rewrite select_by_id_app.
  rewrite <- Hcid. apply select_by_id_None in Hidj. rewrite Hidj.
  unfold select_by_id. simpl. by rewrite bool_decide_eq_true_2.
Qed.

Lemma chunked_store_id_names_no_row_witness :
  ∃ g1 e,
    store toy_hash (store_env "0123456789ab" 1) long_content None NOTE fresh_graph
    = Some (g1, Success e)
    ∧ get_by_id (id e) g1 = Ok None
    ∧ List.length (rows_of g1) = 2.
Proof.
  assert (H1 : ∃ g1 e,
    store toy_hash (store_env "0123456789ab" 1) long_content None NOTE fresh_graph
    = Some (g1, Success e)).
  { vm_compute. eexists _, _. reflexivity. }
  destruct H1 as (g1 & e & H1).
  destruct (chunked_store_id_names_no_row toy_hash (store_env "0123456789ab" 1)
              long_content None NOTE fresh_graph g1 e []
              [Chunker.repeat_char "a" 500; Chunker.repeat_char "a" 150])
    as (_ & _ & Hlen & Hget & _);
    [reflexivity|reflexivity|reflexivity|by vm_compute|simpl; lia|exact H1|].
  exists g1, e. split; [exact H1|]. split; [exact Hget|exact Hlen].
Defined.

(** X18. A content with a chunk that occurs twice after the first
    chunk cannot be stored: the rows of the chunks after the first
    carry the hash of their own text, [content_hash] is [UNIQUE], and
    so an insert raises at the second occurrence at the latest.
    [store] answers a failure, and the rows inserted before the
    failure stay in the table as the connection sees it. *)
Theorem store_repeated_chunk_fails sha env content metadata memory_type
    (g : MemoryGraph) rows chunks i j chunk :
  _initialized g = true →
  _conn g = Some (mkConn false rows) →
  select_by_hash (sha content) rows = None →
  chunks_of g content = Some chunks →
  (1 ≤ i < j)%nat →
  chunks !! i = Some chunk → chunks !! j = Some chunk →
  ∃ g1 error n,
    store sha env content metadata memory_type g = Some (g1, Failure error)
    ∧ (n ≤ j)%nat
    ∧ rows_of g1
      = rows ++ take n (rows_for sha env content metadata memory_type g chunks).
Proof.
  intros Hinit Hconn Hhash Hchunks Hij Hi Hj.
  destruct (store_new_spec sha env content metadata memory_type g rows chunks
              Hinit Hconn Hhash Hchunks)
    as (n & g1 & r & Hstore & Hn & Hrows & _ & _ & Hfresh & Hr).
  assert (Hnj : (n ≤ j)%nat).
  { destruct (Nat.le_gt_cases n j) as [|Hlt]; [done|]. exfalso.
    specialize (Hfresh j chunk Hlt Hj).
    apply insert_row_Ok_fresh in Hfresh as [_ Hh]. apply Hh.
    rewrite map_app, elem_of_app. right.
    apply list_elem_of_fmap.
    exists (chunk_row sha env ("mem_" +:+ uuid_hex env) (sha content)
              memory_type (List.length chunks) metadata g i chunk).
    split.
    - simpl. destruct i, j; try lia. done.
    - apply (list_elem_of_lookup_2 _ i). rewrite lookup_take_lt by lia.
      by rewrite rows_for_lookup, Hi. }
  pose proof (lookup_lt_Some _ _ _ Hj) as Hlen.
  destruct r as [e|error].
  - destruct Hr as (-> & _). lia.
  - by exists g1, error, n.
Qed.

Lemma store_repeated_chunk_fails_witness :
  ∃ g1 error n,
    store toy_hash (store_env "0123456789ab" 1) (Chunker.repeat_char "a" 1400)
      None NOTE fresh_graph = Some (g1, Failure error)
    ∧ (n ≤ 2)%nat
    ∧ rows_of g1
      = take n (rows_for toy_hash (store_env "0123456789ab" 1)
                  (Chunker.repeat_char "a" 1400) None NOTE fresh_graph
                  [Chunker.repeat_char "a" 500; Chunker.repeat_char "a" 500;
                   Chunker.repeat_char "a" 500; Chunker.repeat_char "a" 50]).
Proof.
  apply (store_repeated_chunk_fails toy_hash (store_env "0123456789ab" 1)
           (Chunker.repeat_char "a" 1400) None NOTE fresh_graph []
           [Chunker.repeat_char "a" 500; Chunker.repeat_char "a" 500;
            Chunker.repeat_char "a" 500; Chunker.repeat_char "a" 50]
           1 2 (Chunker.repeat_char "a" 500));
    [reflexivity|reflexivity|reflexivity|by vm_compute|lia|reflexivity
    |reflexivity].
Defined.

(** X19. The chunk loop writes into the caller's metadata dict.
    After a successful [store] of a content cut into [n > 1]
    chunks, the row of chunk [j] holds the metadata with the
    ["chunk"] entry of index [j]; the entry returned holds the
    ["chunk"] entry of the last chunk when the caller passed
    metadata that is not empty (the loop wrote into that dict) and
    no ["chunk"] entry, an empty dict, when the caller passed none. *)
Theorem chunked_store_metadata sha env content metadata memory_type
    (g g1 : MemoryGraph) e rows chunks :
  _conn g = Some (mkConn false rows) →
  select_by_hash (sha content) rows = None →
  chunks_of g content = Some chunks →
  (1 < List.length chunks)%nat →
  store sha env content metadata memory_type g = Some (g1, Success e) →
  Types.metadata e
  = (if truthy metadata
     then dict_set "chunk"
            (ChunkMetadata_dict (id e) (List.length chunks - 1)
               (List.length chunks))
            (metadata_or_empty metadata)
     else [])
  ∧ ∀ j r, (j < List.length chunks)%nat →
      rows_of g1 !! (List.length rows + j)%nat = Some r →
      row_metadata r
      = dict_set "chunk" (ChunkMetadata_dict (id e) j (List.length chunks))
          (metadata_or_empty metadata).
Proof.
  intros Hconn Hhash Hchunks Hmany Hstore.
  destruct (store_success_inv _ _ _ _ _ _ _ _ _ _ Hconn Hhash Hchunks Hstore)
    as (-> & Hrows & _).
  change (id (new_entry sha env content metadata memory_type g chunks))
    with ("mem_" +:+ uuid_hex env).
  split.
  - unfold new_entry, metadata_after, chunk_metadata_of.
    cbn [Types.metadata].
    destruct chunks as [|c chunks]; [simpl in Hmany; lia|].
    destruct (Nat.ltb_spec 1 (List.length (c :: chunks))); [|lia].
    by destruct metadata as [[|? ?]|].
  - intros j r Hj Hr. rewrite Hrows in Hr.
    rewrite lookup_app_r in Hr by lia.
    replace (List.length rows + j - List.length rows)%nat with j in Hr by lia.
    rewrite rows_for_lookup in Hr.
    destruct (chunks !! j) as [c|]; [|done]. simpl in Hr. simplify_eq.
    unfold chunk_row, chunk_metadata_of. cbn [row_metadata].
    by destruct (Nat.ltb_spec 1 (List.length chunks)); [|lia].
Qed.

Lemma chunked_store_metadata_witness :
  ∃ g1 e,
    store toy_hash (store_env "0123456789ab" 1) long_content
      (Some [("topic", JStr "a")]) NOTE fresh_graph = Some (g1, Success e)
    ∧ Types.metadata e
      = [("topic", JStr "a");
         ("chunk", ChunkMetadata_dict "mem_0123456789ab" 1 2)].
Proof.
  assert (H1 : ∃ g1 e,
    store toy_hash (store_env "0123456789ab" 1) long_content
      (Some [("topic", JStr "a")]) NOTE fresh_graph = Some (g1, Success e)).
  { vm_compute. eexists _, _. reflexivity. }
  destruct H1 as (g1 & e & H1).
  destruct (chunked_store_metadata toy_hash (store_env "0123456789ab" 1)
              long_content (Some [("topic", JStr "a")]) NOTE fresh_graph g1 e []
              [Chunker.repeat_char "a" 500; Chunker.repeat_char "a" 150])
    as (Hmeta & _);
    [reflexivity|reflexivity|by vm_compute|simpl; lia|exact H1|].
  exists g1, e. split; [exact H1|].
  rewrite Hmeta.
  assert (Hid : id e = "mem_0123456789ab").
  { vm_compute in H1. by injection H1 as _ <-. }
  rewrite Hid. reflexivity.
Defined.

(** ** The vectors [store] writes *)

Lemma embed_chunk_points env i chunk chunk_id memory_id memory_type
    (g : MemoryGraph) :
  (_qdrant_available g = false →
   _qdrant (embed_chunk env i chunk chunk_id memory_id memory_type g) = _qdrant g
   ∧ _embedding_engine (embed_chunk env i chunk chunk_id memory_id memory_type g)
     = _embedding_engine g)
  ∧ (∀ k, is_Some (_qdrant g !! k) →
          is_Some (_qdrant (embed_chunk env i chunk chunk_id memory_id
                              memory_type g) !! k))
  ∧ (∀ k p,
       _qdrant (embed_chunk env i chunk chunk_id memory_id memory_type g) !! k
       = Some p →
       _qdrant g !! k = Some p
       ∨ (k = chunk_id ∧ point_content p = chunk
          ∧ point_memory_id p = memory_id ∧ point_type p = memory_type)).
Proof.
  unfold embed_chunk.
  destruct (_qdrant_available g); [|by repeat split; eauto].
  destruct (_embedding_engine g) as [engine|]; [|by repeat split; eauto].
  destruct (Embeddings.embed (store_http env i) chunk engine) as [[engine' r] c].
  destruct r as [vector|]; [|by repeat split; eauto].
  destruct (qdrant_upsert env i); [|by repeat split; eauto].
  split; [done|]. simpl. split.
  - intros k Hk. destruct (decide (k = chunk_id)) as [->|Hne].
    + rewrite lookup_insert_eq. eauto.
    + by rewrite lookup_insert_ne.
  - intros k p. destruct (decide (k = chunk_id)) as [->|Hne].
    + rewrite lookup_insert_eq. intros. simplify_eq. right. done.
    + rewrite lookup_insert_ne by done. eauto.
Qed.

Lemma store_chunks_points sha env memory_id h memory_type total :
  ∀ chunks i metadata (g g' : MemoryGraph) metadata' r,
    store_chunks sha env memory_id h memory_type total i chunks metadata g
    = (g', metadata', r) →
    (_qdrant_available g = false →
     _qdrant g' = _qdrant g ∧ _embedding_engine g' = _embedding_engine g)
    ∧ (∀ k, is_Some (_qdrant g !! k) → is_Some (_qdrant g' !! k))
    ∧ (∀ k p, _qdrant g' !! k = Some p →
         _qdrant g !! k = Some p
         ∨ (∃ j, chunks !! j = Some (point_content p)
                 ∧ k = chunk_id_of memory_id total (i + j))
           ∧ point_memory_id p = memory_id ∧ point_type p = memory_type).
Proof.
  induction chunks as [|chunk rest IH]; intros i metadata g g' metadata' r Hs;
    cbn [store_chunks] in Hs.
  - simplify_eq. repeat split; eauto.
  - destruct (with_conn g _) as [rows1|e]; [|simplify_eq; repeat split; eauto].
    fold (chunk_id_of memory_id total i) in Hs.
    match type of Hs with
    | store_chunks _ _ _ _ _ _ _ _ _ (embed_chunk ?e ?i ?c ?ci ?m ?t ?g0) = _ =>
        destruct (embed_chunk_points e i c ci m t g0) as (Hoff & Hmono & Hnew);
        pose proof (embed_chunk_config e i c ci m t g0) as Hcfg
    end.
    apply IH in Hs as (Hoff' & Hmono' & Hnew').
    destruct Hcfg as (_ & _ & _ & _ & _ & _ & Havail & _).
    split; [|split].
    + intros Hq. destruct (Hoff Hq) as [Hq1 He1].
      destruct Hoff' as [Hq2 He2]; [by rewrite Havail|].
      by rewrite Hq2, He2, Hq1, He1.
    + intros k Hk. by apply Hmono', Hmono.
    + intros k p Hp. destruct (Hnew' k p Hp) as [Hold|[(j & Hj & ->) Hpay]].
      * destruct (Hnew k p Hold) as [?|(-> & <- & ? & ?)]; [by left|].
        right. split; [|done]. exists 0. by rewrite Nat.add_0_r.
      * right. split; [|done]. exists (S j). by rewrite Nat.add_succ_r.
Qed.

(** X20. [store] never removes a vector and writes one only for a
    chunk of its content: every point of the collection afterwards
    was there before or has the id and the text of a chunk, the new
    memory id and the type in its payload. With the vector index
    unavailable, the collection and the embedding engine are
    untouched. *)
Theorem store_writes_only_chunk_vectors sha env content metadata memory_type
    (g g1 : MemoryGraph) (r : Result MemoryEntry) :
  store sha env content metadata memory_type g = Some (g1, r) →
  (_qdrant_available g = false →
   _qdrant g1 = _qdrant g ∧ _embedding_engine g1 = _embedding_engine g)
  ∧ (∀ k, is_Some (_qdrant g !! k) → is_Some (_qdrant g1 !! k))
  ∧ (∀ k p, _qdrant g1 !! k = Some p →
       _qdrant g !! k = Some p
       ∨ (∃ chunks j,
            chunks_of g content = Some chunks
            ∧ chunks !! j = Some (point_content p)
            ∧ k = chunk_id_of ("mem_" +:+ uuid_hex env) (List.length chunks) j)
         ∧ point_memory_id p = "mem_" +:+ uuid_hex env
         ∧ point_type p = memory_type).
Proof.
  intros Hstore. unfold store in Hstore.
  assert (Hsame : ∀ g0 : MemoryGraph,
            _qdrant g0 = _qdrant g → _embedding_engine g0 = _embedding_engine g →
            g1 = g0 →
            (_qdrant_available g = false →
             _qdrant g1 = _qdrant g ∧ _embedding_engine g1 = _embedding_engine g)
            ∧ (∀ k, is_Some (_qdrant g !! k) → is_Some (_qdrant g1 !! k))
            ∧ (∀ k p, _qdrant g1 !! k = Some p →
                 _qdrant g !! k = Some p
                 ∨ (∃ chunks j,
                      chunks_of g content = Some chunks
                      ∧ chunks !! j = Some (point_content p)
                      ∧ k = chunk_id_of ("mem_" +:+ uuid_hex env)
                              (List.length chunks) j)
                   ∧ point_memory_id p = "mem_" +:+ uuid_hex env
                   ∧ point_type p = memory_type)).
  { intros g0 Hq He ->. rewrite Hq, He. repeat split; eauto. }
  assert (Hfailed : ∀ (g0 : MemoryGraph) (e : exn),
            Some match exn_kind_of e with
                 | IntegrityError =>
                     (g0, Failure ("Database integrity error: " +:+ exn_msg e))
                 | _ => (g0, Failure ("Failed to store memory: " +:+ exn_msg e))
                 end = Some (g1, r) → g1 = g0).
  { intros g0 e H. destruct (exn_kind_of e); by simplify_eq. }
  destruct (_initialized g); simpl in Hstore;
    [|simplify_eq; by apply (Hsame g1)].
  destruct (get_by_hash (sha content) g) as [[existing|]|e].
  - destruct (with_conn g _) as [rows'|e].
    + simplify_eq. by apply (Hsame (set_rows rows' g)).
    + apply Hfailed in Hstore. by apply (Hsame g).
  - fold (chunks_of g content) in Hstore.
    destruct (chunks_of g content) as [chunks|] eqn:Hchunks; [|done].
    destruct (store_chunks _ _ _ _ _ _ _ _ _ _) as [[g' md'] rc] eqn:Hsc.
    apply store_chunks_points in Hsc as (Hoff & Hmono & Hnew).
    assert (Hg : g1 = g').
    { destruct rc as [[]|e]; [destruct (publish env) as [[]|e]|].
      - by simplify_eq.
      - by apply Hfailed in Hstore.
      - by apply Hfailed in Hstore. }
    subst g'. split; [done|]. split; [done|].
    intros k p Hp. destruct (Hnew k p Hp) as [?|[(j & Hj & ->) Hpay]];
      [by left|].
    right. split; [|done]. by exists chunks, j.
  - apply Hfailed in Hstore. by apply (Hsame g).
Qed.

Lemma store_writes_only_chunk_vectors_witness :
  ∃ g1 r,
    store toy_hash (store_env "0123456789ab" 1) long_content None NOTE fresh_graph
    = Some (g1, r)
    ∧ _qdrant g1 = _qdrant fresh_graph.
Proof.
  assert (H1 : ∃ g1 r,
    store toy_hash (store_env "0123456789ab" 1) long_content None NOTE fresh_graph
    = Some (g1, r)).
  { vm_compute. eexists _, _. reflexivity. }
  destruct H1 as (g1 & r & H1).
  destruct (store_writes_only_chunk_vectors toy_hash (store_env "0123456789ab" 1)
              long_content None NOTE fresh_graph g1 r H1) as (Hoff & _).
  exists g1, r. split; [exact H1|]. apply Hoff. reflexivity.
Defined.

(** ** Content that is stored already *)

Lemma touch_lookup now h rows j :
  touch now h rows !! j
  = (λ x, if bool_decide (row_content_hash x = h)
          then row_with_timestamp now x else x) <$> rows !! j.
Proof. unfold touch. by rewrite list_lookup_fmap. Qed.

(** X21. The deduplication path writes one thing only. For a content
    whose hash is in the table, [store] returns the entry of the row
    with that hash as it was read before the update, so with the old
    timestamp; in the table the rows with that hash get the
    timestamp of the database and every other row and column stays;
    no row is added, and neither the vectors nor the embedding
    engine are touched. *)
Theorem store_existing_refreshes_timestamp sha env content metadata memory_type
    (g : MemoryGraph) rows r :
  _initialized g = true →
  _conn g = Some (mkConn false rows) →
  select_by_hash (sha content) rows = Some r →
  ∃ g1,
    store sha env content metadata memory_type g
    = Some (g1, Success (_row_to_entry r))
    ∧ List.length (rows_of g1) = List.length rows
    ∧ (∀ j x, rows !! j = Some x →
         rows_of g1 !! j
         = Some (if bool_decide (row_content_hash x = sha content)
                 then row_with_timestamp (db_now env) x else x))
    ∧ select_by_hash (sha content) (rows_of g1)
      = Some (row_with_timestamp (db_now env) r)
    ∧ _qdrant g1 = _qdrant g
    ∧ _embedding_engine g1 = _embedding_engine g.
Proof.
  intros Hinit Hconn Hsel.
  rewrite (store_existing sha env content metadata memory_type g rows r
             Hinit Hconn Hsel).
  eexists. split; [reflexivity|].
  change (rows_of (set_rows (touch (db_now env) (sha content) rows) g))
    with (touch (db_now env) (sha content) rows).
  split; [unfold touch; by rewrite length_map|].
  split; [intros j x Hj; by rewrite touch_lookup, Hj|].
  split; [|done].
  clear Hconn. unfold select_by_hash, touch in *.
  induction rows as [|x rows IH]; [done|]. simpl in *.
  destruct (bool_decide_reflect (row_content_hash x = sha content)) as [Hx|Hx].
  - simplify_eq. simpl. by rewrite bool_decide_eq_true_2.
  - rewrite bool_decide_eq_false_2 by done. by apply IH.
Qed.

Lemma store_existing_refreshes_timestamp_witness :
  ∃ g1,
    store toy_hash (store_env "0123456789ab" 7) "mem_1" None NOTE two_notes
    = Some (g1, Success (_row_to_entry (note "mem_1" "Neura is a cognitive OS")))
    ∧ select_by_hash "mem_1" (rows_of g1)
      = Some (row_with_timestamp 7 (note "mem_1" "Neura is a cognitive OS")).
Proof.
  destruct (store_existing_refreshes_timestamp toy_hash
              (store_env "0123456789ab" 7) "mem_1" None NOTE two_notes
              [note "mem_1" "Neura is a cognitive OS";
               note "mem_2" "a cognitive system"]
              (note "mem_1" "Neura is a cognitive OS"))
    as (g1 & Hs & _ & _ & Hsel & _); [reflexivity|reflexivity|reflexivity|].
  exists g1. split; [exact Hs|exact Hsel].
Defined.

(** ** What [recall] reads and returns *)

Lemma semantic_search_reads env query limit memory_type (g : MemoryGraph) :
  _conn (fst (_semantic_search env query limit memory_type g)) = _conn g
  ∧ _qdrant (fst (_semantic_search env query limit memory_type g)) = _qdrant g
  ∧ same_config g (fst (_semantic_search env query limit memory_type g)).
Proof.
  unfold _semantic_search.
  destruct (_embedding_engine g) as [engine|]; [|by repeat split].
  destruct (Embeddings.embed (recall_http env) query engine) as [[engine' r] c].
  destruct r as [vector|]; [|by repeat split].
  destruct (qdrant_search env _ vector limit memory_type); [|by repeat split].
  destruct (fetch_hits _ _); by repeat split.
Qed.

Lemma list_upto_length {T} (k : Z) (l : list T) :
  (0 ≤ k)%Z → (Z.of_nat (List.length (PyNum.list_upto k l)) ≤ k)%Z.
Proof.
  intros Hk. unfold PyNum.list_upto, PyNum.slice_index.
  destruct (Z.ltb_spec k 0); [lia|]. rewrite length_take. lia.
Qed.

(** X22. [recall] only reads, and returns at most [k] results. It
    always returns a list; the table, the vectors and the
    configuration of the graph are afterwards what they were (only
    the embedding engine, its cache and counters, may have changed);
    and for [k >= 0] the list has at most [k] results. *)
Theorem recall_reads_at_most_k env query k memory_type (g : MemoryGraph) :
  ∃ g' results,
    recall env query k memory_type g = (g', Ok results)
    ∧ _conn g' = _conn g
    ∧ _qdrant g' = _qdrant g
    ∧ same_config g g'
    ∧ ((0 ≤ k)%Z → (Z.of_nat (List.length results) ≤ k)%Z).
Proof.
  unfold recall. destruct (_initialized g) eqn:Hinit; cbn [negb].
  2: { exists g, []. split; [done|]. split; [done|]. split; [done|].
       split; [apply same_config_refl|]. simpl. lia. }
  unfold recall_body.
  assert (Hs : ∃ p,
    p = match _qdrant_available g, _embedding_engine g with
        | true, Some _ => _semantic_search env query 20 memory_type g
        | _, _ => (g, [])
        end
    ∧ _conn (fst p) = _conn g ∧ _qdrant (fst p) = _qdrant g
    ∧ same_config g (fst p)).
  { eexists. split; [reflexivity|].
    destruct (_qdrant_available g), (_embedding_engine g);
      try (split; [done|split; [done|apply same_config_refl]]).
    apply semantic_search_reads. }
  destruct Hs as ([g' sem] & <- & Hc & Hq & Hcfg). cbn [fst] in Hc, Hq, Hcfg.
  destruct (match sem with
            | [] => _
            | _ :: _ => _
            end) as [combined|e].
  - eexists _, _. split; [reflexivity|]. do 3 (split; [done|]).
    intros Hk. rewrite length_map. by apply list_upto_length.
  - exists g', []. do 4 (split; [done|]). simpl. lia.
Qed.

(** ** delete, then look up *)

Lemma select_by_id_delete_row i j rows :
  select_by_id j (delete_row i rows)
  = if bool_decide (j = i) then None else select_by_id j rows.
Proof.
  unfold select_by_id, delete_row. induction rows as [|r rows IH]; simpl.
  - by destruct (bool_decide (j = i)).
  - destruct (bool_decide_reflect (row_id r = i)) as [Hri|Hri]; simpl.
    + rewrite IH. destruct (bool_decide_reflect (j = i)) as [Hji|Hji]; [done|].
      rewrite bool_decide_eq_false_2 by congruence. done.
    + destruct (bool_decide_reflect (row_id r = j)) as [Hrj|Hrj].
      * rewrite bool_decide_eq_false_2 by congruence. done.
      * by rewrite IH.
Qed.

(** X23. After a [delete] that answered success, the id is gone and
    nothing else is: [get_by_id] finds no row with the id, every
    other id is found as before, and the table is the old one without
    the rows of that id. The vector of the id is removed only when
    the vector index is available and its delete did not raise;
    otherwise the vectors stay as they were. *)
Theorem delete_then_get denv memory_id (g g1 : MemoryGraph) :
  delete denv memory_id g = (g1, Success true) →
  get_by_id memory_id g1 = Ok None
  ∧ (∀ j, j ≠ memory_id → get_by_id j g1 = get_by_id j g)
  ∧ rows_of g1 = delete_row memory_id (rows_of g)
  ∧ _qdrant g1
    = match _qdrant_available g, qdrant_delete denv with
      | true, Ok _ => base.delete memory_id (_qdrant g)
      | _, _ => _qdrant g
      end.
Proof.
  unfold delete. intros Hd.
  set (g2 := if _qdrant_available g then _ else _) in *.
  assert (Hconn2 : _conn g2 = _conn g).
  { unfold g2. destruct (_qdrant_available g); [|done].
    by destruct (qdrant_delete denv). }
  assert (Hq2 : _qdrant g2
                = match _qdrant_available g, qdrant_delete denv with
                  | true, Ok _ => base.delete memory_id (_qdrant g)
                  | _, _ => _qdrant g
                  end).
  { unfold g2. destruct (_qdrant_available g); [|done].
    by destruct (qdrant_delete denv). }
  unfold with_conn in Hd. rewrite Hconn2 in Hd.
  destruct (_conn g) as [[[] rows]|] eqn:Hconn; try done.
  cbn [closed memories] in Hd.
  destruct (sqlite_error denv); [done|]. simplify_eq.
  unfold get_by_id, with_conn, rows_of. simpl. rewrite Hconn.
  cbn [closed memories].
  split; [by rewrite select_by_id_delete_row, bool_decide_eq_true_2|].
  split; [|done].
  intros j Hj. by rewrite select_by_id_delete_row, bool_decide_eq_false_2.
Qed.

Lemma delete_then_get_witness :
  get_by_id "mem_1" (fst (delete qdrant_down "mem_1" two_notes)) = Ok None
  ∧ rows_of (fst (delete qdrant_down "mem_1" two_notes))
    = [note "mem_2" "a cognitive system"].
Proof.
  destruct (delete_then_get qdrant_down "mem_1" two_notes
              (fst (delete qdrant_down "mem_1" two_notes)))
    as (Hget & _ & Hrows & _); [reflexivity|].
  split; [exact Hget|]. rewrite Hrows. reflexivity.
Defined.

(** ** A graph that was closed *)

Lemma fetch_hits_closed (g : MemoryGraph) rows hits :
  _conn g = Some (mkConn true rows) →
  fetch_hits g hits = Ok [] ∨ ∃ e, fetch_hits g hits = Raise e.
Proof.
  intros Hconn. destruct hits as [|[i s] hits]; [by left|].
  right. simpl. unfold with_conn. rewrite Hconn. simpl. eauto.
Qed.

Lemma semantic_search_closed env query limit memory_type (g : MemoryGraph) rows :
  _conn g = Some (mkConn true rows) →
  snd (_semantic_search env query limit memory_type g) = [].
Proof.
  intros Hconn. unfold _semantic_search.
  destruct (_embedding_engine g) as [engine|]; [|done].
  destruct (Embeddings.embed (recall_http env) query engine) as [[engine' r] c].
  destruct r as [vector|]; [|done].
  destruct (qdrant_search env _ vector limit memory_type) as [hits|]; [|done].
  destruct (fetch_hits_closed (set_engine (Some engine') g) rows hits Hconn)
    as [->|[e ->]]; done.
Qed.

(** X24. After [close], the graph still counts as initialized and its
    [_conn] still refers to the closed connection: [store] and
    [delete] answer a failure with the message of sqlite3, [recall]
    returns the empty list whatever the indexes would answer, and
    [get_by_id] and [get_by_hash], which catch nothing, raise
    [ProgrammingError]. *)
Theorem closed_graph_answers sha senv renv denv content metadata memory_type
    query k type_filter memory_id (g : MemoryGraph) :
  _initialized g = true → is_Some (_conn g) →
  store sha senv content metadata memory_type (close g)
  = Some (close g,
          Failure "Failed to store memory: Cannot operate on a closed database.")
  ∧ recalled renv query k type_filter (close g) = Ok []
  ∧ snd (delete denv memory_id (close g))
    = Failure "Failed to delete memory: Cannot operate on a closed database."
  ∧ get_by_id memory_id (close g)
    = Raise (Exn ProgrammingError "Cannot operate on a closed database.")
  ∧ get_by_hash (sha content) (close g)
    = Raise (Exn ProgrammingError "Cannot operate on a closed database.").
Proof.
  intros Hinit [[c rows] Hconn]. unfold close. rewrite Hconn.
  set (g' := set_conn _ g).
  assert (Hconn' : _conn g' = Some (mkConn true rows)) by done.
  assert (Hinit' : _initialized g' = true) by done.
  split; [|split; [|split; [|split]]].
  - unfold store, get_by_hash, with_conn. by rewrite Hinit', Hconn'.
  - assert (Hsem : semantic_results renv query type_filter g' = []).
    { unfold semantic_results.
      destruct (_qdrant_available g'), (_embedding_engine g'); try done.
      by eapply semantic_search_closed. }
    rewrite (recalled_lexical_only _ _ _ _ _ Hsem), Hinit'.
    unfold lexical_results, _fts_search, with_conn. rewrite Hconn'. simpl.
    by rewrite list_upto_nil.
  - unfold delete.
    set (g2 := if _qdrant_available g' then _ else _).
    assert (Hconn2 : _conn g2 = Some (mkConn true rows)).
    { unfold g2. destruct (_qdrant_available g'); [|done].
      by destruct (qdrant_delete denv). }
    unfold with_conn. by rewrite Hconn2.
  - unfold get_by_id, with_conn. by rewrite Hconn'.
  - unfold get_by_hash, with_conn. by rewrite Hconn'.
Qed.

Lemma closed_graph_answers_witness :
  recalled match_all "cognitive" 5 None (close two_notes) = Ok []
  ∧ get_by_id "mem_1" (close two_notes)
    = Raise (Exn ProgrammingError "Cannot operate on a closed database.").
Proof.
  destruct (closed_graph_answers toy_hash (store_env "0123456789ab" 1) match_all
              qdrant_down "x" None NOTE "cognitive" 5%Z None "mem_1" two_notes)
    as (_ & Hrec & _ & Hget & _); [reflexivity|by eexists|].
  split; [exact Hrec|exact Hget].
Defined.

(** ** Hits of the vector index without a row *)

Lemma fetch_hits_open (g : MemoryGraph) rows hits :
  _conn g = Some (mkConn false rows) →
  fetch_hits g hits = Ok (omap (hit_entry rows) hits).
Proof.
  intros Hconn. induction hits as [|[i s] hits IH]; [done|].
  cbn [fetch_hits]. unfold with_conn. rewrite Hconn. cbn [closed memories].
  rewrite IH. cbn [omap list_omap].
  change (hit_entry rows (i, s))
    with ((fun r => (_row_to_entry r, s)) <$> select_by_id i rows).
  by destruct (select_by_id i rows).
Qed.

(** X25. The semantic search returns a hit of the vector index only
    if the table has a row with the id of the hit: with the query
    embedded and the search answered, the result is the list of the
    hits, in their order and with their scores, each as the entry of
    its row, and the hits without a row (vectors left behind by a
    delete, say) are skipped. *)
Theorem semantic_search_skips_missing_rows env query limit memory_type
    (g : MemoryGraph) rows engine engine' vector calls hits :
  _conn g = Some (mkConn false rows) →
  _embedding_engine g = Some engine →
  Embeddings.embed (recall_http env) query engine
  = (engine', Success vector, calls) →
  qdrant_search env (_qdrant g) vector limit memory_type = Ok hits →
  snd (_semantic_search env query limit memory_type g)
  = omap (hit_entry rows) hits
  ∧ (List.length (snd (_semantic_search env query limit memory_type g))
     ≤ List.length hits)%nat
  ∧ ∀ r, r ∈ snd (_semantic_search env query limit memory_type g) →
         id (fst r) ∈ map row_id rows ∧ (id (fst r), snd r) ∈ hits.
Proof.
  intros Hconn Hengine Hembed Hsearch.
  assert (Hres : snd (_semantic_search env query limit memory_type g)
                 = omap (hit_entry rows) hits).
  { unfold _semantic_search. rewrite Hengine, Hembed.
    change (_qdrant (set_engine (Some engine') g)) with (_qdrant g).
    rewrite Hsearch.
    by rewrite (fetch_hits_open (set_engine (Some engine') g) rows hits Hconn). }
  rewrite Hres. split; [done|]. split.
  - clear. induction hits as [|h hits IH]; [done|].
    cbn [omap list_omap]. destruct (hit_entry rows h); cbn [List.length]; lia.
  - intros r Hr. apply list_elem_of_omap in Hr as ([i s] & Hin & Hhit).
    unfold hit_entry in Hhit. simpl in Hhit.
    destruct (select_by_id i rows) as [row|] eqn:Hrow; [|done].
    simpl in Hhit. simplify_eq. simpl.
    unfold select_by_id in Hrow. apply find_some in Hrow as [Hrin Hid].
    apply bool_decide_eq_true in Hid. subst i. split; [|done].
    apply list_elem_of_fmap. exists row. split; [done|].
    by apply list_elem_of_In.
Qed.

Lemma semantic_search_skips_missing_rows_witness :
  snd (_semantic_search stale_hit "cognitive" 20 None indexed_notes)
  = [(_row_to_entry (note "mem_2" "a cognitive system"), 0.25%float)].
Proof.
  destruct (semantic_search_skips_missing_rows stale_hit "cognitive" 20 None
              indexed_notes
              [note "mem_1" "Neura is a cognitive OS";
               note "mem_2" "a cognitive system"]
              Embeddings.default
              (EmbeddingsSpec.engine_after EmbeddingsSpec.always_ok "cognitive"
                 Embeddings.default)
              [1%float] ["mxbai-embed-large"]
              [("mem_gone", 0.5%float); ("mem_2", 0.25%float)])
    as (Hres & _);
    [reflexivity|reflexivity|vm_compute; reflexivity|reflexivity|].
  rewrite Hres. reflexivity.
Defined.

(** ** [recall] with both indexes *)

(** X26. With semantic results, [recall] is rank fusion cut to [k]:
    it returns the first [k] results of the fusion of the lexical and
    the semantic list, each with the fused score and the source the
    fusion gave it, so no id is returned twice. *)
Theorem recall_hybrid_is_top_k_of_fusion env query k memory_type
    (g : MemoryGraph) :
  _initialized g = true →
  semantic_results env query memory_type g ≠ [] →
  RRFSpec.ranks_ok (rrf_k g) (_fts_search env query 20 memory_type g)
    (semantic_results env query memory_type g) →
  ∃ out,
    RRF._reciprocal_rank_fusion (rrf_k g) (_fts_search env query 20 memory_type g)
      (semantic_results env query memory_type g) = Ok out
    ∧ recalled env query k memory_type g
      = Ok (map as_result (PyNum.list_upto k out))
    ∧ NoDup (map (λ r, id (entry r)) (map as_result (PyNum.list_upto k out))).
Proof.
  intros Hinit Hsem Hranks.
  destruct (RRFFacts.fusion_returns _ _ _ Hranks) as [out Hout]. exists out.
  split; [done|]. split.
  - unfold recalled, recall. rewrite Hinit. cbn [negb]. unfold recall_body.
    assert (Hs : ∃ p,
      p = match _qdrant_available g, _embedding_engine g with
          | true, Some _ => _semantic_search env query 20 memory_type g
          | _, _ => (g, [])
          end
      ∧ rrf_k (fst p) = rrf_k g
      ∧ snd p = semantic_results env query memory_type g).
    { eexists. split; [reflexivity|]. unfold semantic_results.
      destruct (_qdrant_available g), (_embedding_engine g);
        try done. split; [apply semantic_search_config|done]. }
    destruct Hs as ([g' sem] & <- & Hk & Hs). cbn [fst snd] in Hk, Hs.
    subst sem. rewrite Hk.
    destruct (semantic_results env query memory_type g) as [|r sem] eqn:Hsr;
      [done|].
    by rewrite Hout.
  - rewrite map_map.
    change (map (λ x, id (entry (as_result x))) (PyNum.list_upto k out))
      with (map RRFMoreSpec.out_id (PyNum.list_upto k out)).
    unfold PyNum.list_upto. rewrite <- firstn_map.
    eapply sublist_NoDup; [|apply sublist_take].
    by eapply RRFMore.fusion_ids_NoDup.
Qed.

Lemma recall_hybrid_is_top_k_of_fusion_witness :
  semantic_results stale_hit "cognitive" None indexed_notes ≠ []
  ∧ ∃ out,
      RRF._reciprocal_rank_fusion (rrf_k indexed_notes)
        (_fts_search stale_hit "cognitive" 20 None indexed_notes)
        (semantic_results stale_hit "cognitive" None indexed_notes) = Ok out
      ∧ recalled stale_hit "cognitive" 5 None indexed_notes
        = Ok (map as_result (PyNum.list_upto 5 out))
      ∧ NoDup (map (λ r, id (entry r))
                 (map as_result (PyNum.list_upto 5 out))).
Proof.
  assert (Hsem : semantic_results stale_hit "cognitive" None indexed_notes ≠ [])
    by (vm_compute; discriminate).
  split; [exact Hsem|].
  apply (recall_hybrid_is_top_k_of_fusion stale_hit "cognitive" 5 None
           indexed_notes); [reflexivity|exact Hsem|].
  repeat split; vm_compute; reflexivity.
Defined.

(** ** When [store] returns *)

(** X27. [store] answers a result in every case but one: an
    initialized graph, a content whose hash is not in the table,
    longer than [chunk_size], not empty and without a blank line, and
    [chunk_overlap >= chunk_size]. There chunking does not terminate
    and neither does [store]; with [chunk_overlap < chunk_size] it
    always returns. *)
Theorem store_returns sha env content metadata memory_type (g : MemoryGraph) :
  (store sha env content metadata memory_type g = None
   ↔ _initialized g = true
     ∧ get_by_hash (sha content) g = Ok None
     ∧ List.length (Chunker.split_paragraphs content) = 1
     ∧ (chunk_size g < Z.of_nat (String.length content))%Z
     ∧ content ≠ ""
     ∧ (chunk_size g ≤ chunk_overlap g)%Z)
  ∧ ((chunk_overlap g < chunk_size g)%Z →
     is_Some (store sha env content metadata memory_type g)).
Proof.
  assert (Hiff : store sha env content metadata memory_type g = None
   ↔ _initialized g = true
     ∧ get_by_hash (sha content) g = Ok None
     ∧ List.length (Chunker.split_paragraphs content) = 1
     ∧ (chunk_size g < Z.of_nat (String.length content))%Z
     ∧ content ≠ ""
     ∧ (chunk_size g ≤ chunk_overlap g)%Z).
  { unfold store.
    destruct (_initialized g); cbn [negb]; [|split; [done|by intros [? _]]].
    destruct (get_by_hash (sha content) g) as [[existing|]|e].
    - split; [|by intros (_ & ? & _)].
      by destruct (with_conn g _) as [?|?].
    - destruct (Z.ltb_spec (chunk_size g) (Z.of_nat (String.length content)))
        as [Hlong|Hshort].
      + destruct (Chunker._chunk_content (chunk_size g) (chunk_overlap g) content)
          as [chunks|] eqn:Hc.
        * split.
          -- destruct (store_chunks _ _ _ _ _ _ _ _ _ _) as [[? ?] [[]|?]];
               [by destruct (publish env)|done].
          -- intros (_ & _ & H1 & H2 & H3 & H4).
             assert (Hnone : Chunker._chunk_content (chunk_size g)
                               (chunk_overlap g) content = None)
               by (by apply ChunkerMore.chunk_content_None).
             congruence.
        * apply ChunkerMore.chunk_content_None in Hc. by split.
      + split; [|intros (_ & _ & _ & ? & _); lia].
        destruct (store_chunks _ _ _ _ _ _ _ _ _ _) as [[? ?] [[]|?]];
          [by destruct (publish env)|done].
    - split; [done|by intros (_ & ? & _)]. }
  split; [exact Hiff|].
  intros Hov.
  apply not_eq_None_Some. intros Hs.
  apply Hiff in Hs as (_ & _ & _ & _ & _ & ?). lia.
Qed.

End GraphMore.
